(** * SPSCQueue: a bounded single-producer single-consumer ring buffer

    Shallow embedding of [src/SPSCQueue.h] (rigtorp::SPSCQueue<T>) and the
    properties of its operations.

    Conventions of the embedding.
    - [size_t] is the 64-bit unsigned integer type (LP64); values are [Z] in
      [0, 2^64) and every arithmetic operator of the source is written with
      its wrap-around ([size_add], [size_sub], [size_mul]).  [ssize_t] is the
      64-bit two's complement type ([to_ssize_t]).
    - The element type [T] is abstract; what the queue needs to know about it
      is [sizeof(T)], provided by the class [Sized].
    - The block returned by [std::malloc] is a [Block]: the number of bytes
      that was requested together with the slots that currently hold a live
      element, addressed by slot index relative to [slots_].  Slot [i] lies
      inside the block when [(i + 1) * sizeof(T)] does not exceed its size; a
      placement-new or destructor call on a slot outside the block is
      undefined behaviour in C++ and ends the computation ([OutOfBounds]).
    - Member functions are computations in the monad [op]: they read and write
      the fields of the object, log every placement-new, destructor call and
      [free], and may stop on a failed [assert], on an access outside the
      block, or run out of fuel in a loop.
    - Three granularities are covered.  A client may perform whole calls of
      member functions one after the other ([run]).  A producer thread and
      a consumer thread may each perform the atomic accesses of their calls,
      in any interleaving, every load reading the last store
      ([interleave]): this is used for what holds whatever a load reads.
      Or the two threads run under the [memory_order_*] arguments of the
      source ([rinterleave]): an acquire load may read an older store of
      the other thread, a release store orders what its writer did before
      it, and an access to a slot that races with the other thread ends the
      computation.
    - [assert] is modelled as compiled in (no NDEBUG).  The two assertions of
      the constructor are about the layout of the object in memory and are
      not part of the embedding.
    - [%] is [Z.modulo]; the source never divides by a [capacity_] below 2,
      because the constructor refuses it. *)

From Stdlib Require Import ZArith Lia Strings.Byte.
From stdpp Require Import base option list gmap.

Local Open Scope Z_scope.

(** ** Machine integers *)

Definition SIZE_WIDTH : Z := 64.
Definition SIZE_MODULUS : Z := 18446744073709551616.
Definition SIZE_MAX : Z := 18446744073709551615.
Definition SSIZE_MAX : Z := 9223372036854775807.

(** Reduction of a mathematical integer into [size_t]. *)
Definition to_size_t (z : Z) : Z := z mod SIZE_MODULUS.

(** Conversion to [ssize_t]: values above [SSIZE_MAX] become negative. *)
Definition to_ssize_t (z : Z) : Z :=
  let u := to_size_t z in
  if u <=? SSIZE_MAX then u else u - SIZE_MODULUS.

(** A value that fits the type [size_t]. *)
Definition is_size_t (z : Z) : Prop := 0 <= z <= SIZE_MAX.

Definition size_add (a b : Z) : Z := to_size_t (a + b).
Definition size_sub (a b : Z) : Z := to_size_t (a - b).
Definition size_mul (a b : Z) : Z := to_size_t (a * b).

(** ** Element types *)

(** [sizeof(T)]: at least one byte, and itself a [size_t]. *)
Class Sized (T : Type) := {
  sizeof : Z;
  sizeof_range : 1 <= sizeof <= SIZE_MAX
}.
Arguments sizeof T {_}.

(** ** Constants of the class template *)

Definition kCacheLineSize : Z := 128.

(** [kPadding = (kCacheLineSize - 1) / sizeof(T) + 1] *)
Definition kPadding (T : Type) `{Sized T} : Z :=
  size_add (size_sub kCacheLineSize 1 / sizeof T) 1.

(** Division rounded up, for positive [b]. *)
Definition ceil_div (a b : Z) : Z := (a + b - 1) / b.

(** The argument of [std::malloc] in the constructor:
    [sizeof(T) * (capacity_ + 2 * kPadding)]. *)
Definition malloc_size (T : Type) `{Sized T} (capacity : Z) : Z :=
  size_mul (sizeof T) (size_add capacity (size_mul 2 (kPadding T))).

(** ** The object *)

(** A block obtained from [malloc]: its size in bytes and, by slot index,
    the elements that are constructed and not yet destroyed. *)
Record Block (T : Type) := mkBlock {
  block_bytes : Z;
  block_cells : gmap Z T
}.
Arguments mkBlock {T} _ _.
Arguments block_bytes {T} _.
Arguments block_cells {T} _.

(** The data members; [slots_] is never null in a constructed object. *)
Record SPSCQueue (T : Type) := mkSPSCQueue {
  capacity_ : Z;
  slots_ : Block T;
  head_ : Z;
  tail_ : Z
}.
Arguments mkSPSCQueue {T} _ _ _ _.
Arguments capacity_ {T} _.
Arguments slots_ {T} _.
Arguments head_ {T} _.
Arguments tail_ {T} _.

(** ** Effects *)

(** What a member function does to the block. *)
Inductive event (T : Type) :=
| Construct (i : Z) (v : T)   (* new (&slots_[i]) T(v) *)
| Destroy (i : Z) (victim : option T)
    (* slots_[i].~T(); [victim] is the element that was live in the slot *)
| Free.                       (* std::free(slots_) *)
Arguments Construct {T} _ _.
Arguments Destroy {T} _ _.
Arguments Free {T}.

(** How a computation ends: it returns [a] and leaves the object as [q],
    having done [log]; an [assert] fails; it touches a slot outside the
    block; or a loop is still running when the fuel is used up. *)
Inductive result (T A : Type) :=
| Ret (a : A) (q : SPSCQueue T) (log : list (event T))
| AssertFailed
| OutOfBounds
| OutOfFuel.
Arguments Ret {T A} _ _ _.
Arguments AssertFailed {T A}.
Arguments OutOfBounds {T A}.
Arguments OutOfFuel {T A}.

Definition op (T A : Type) : Type := SPSCQueue T -> result T A.

Definition op_ret {T A} (a : A) : op T A := fun q => Ret a q [].

Definition op_bind {T A B} (m : op T A) (f : A -> op T B) : op T B :=
  fun q =>
    match m q with
    | Ret a q1 log1 =>
        match f a q1 with
        | Ret b q2 log2 => Ret b q2 (log1 ++ log2)
        | AssertFailed => AssertFailed
        | OutOfBounds => OutOfBounds
        | OutOfFuel => OutOfFuel
        end
    | AssertFailed => AssertFailed
    | OutOfBounds => OutOfBounds
    | OutOfFuel => OutOfFuel
    end.

#[global] Instance op_mret {T} : MRet (op T) := fun A => @op_ret T A.
#[global] Instance op_mbind {T} : MBind (op T) :=
  fun A B f m => @op_bind T A B m f.

Section Primitives.
Context {T : Type} `{Sized T}.

(** Slot [i] lies inside the block. *)
Definition in_bounds (b : Block T) (i : Z) : bool :=
  (0 <=? i) && ((i + 1) * sizeof T <=? block_bytes b).

Definition load_capacity : op T Z := fun q => Ret (capacity_ q) q [].
Definition load_head : op T Z := fun q => Ret (head_ q) q [].
Definition load_tail : op T Z := fun q => Ret (tail_ q) q [].

Definition store_head (n : Z) : op T unit :=
  fun q => Ret tt (mkSPSCQueue (capacity_ q) (slots_ q) n (tail_ q)) [].

Definition store_tail (n : Z) : op T unit :=
  fun q => Ret tt (mkSPSCQueue (capacity_ q) (slots_ q) (head_ q) n) [].

(** [new (&slots_[i]) T(v)] *)
Definition placement_new (i : Z) (v : T) : op T unit :=
  fun q =>
    let b := slots_ q in
    if negb (in_bounds b i) then OutOfBounds else
    Ret tt
      (mkSPSCQueue (capacity_ q)
         (mkBlock (block_bytes b) (<[i := v]> (block_cells b)))
         (head_ q) (tail_ q))
      [Construct i v].

(** [slots_[i].~T()] *)
Definition destroy_at (i : Z) : op T unit :=
  fun q =>
    let b := slots_ q in
    if negb (in_bounds b i) then OutOfBounds else
    Ret tt
      (mkSPSCQueue (capacity_ q)
         (mkBlock (block_bytes b) (delete i (block_cells b)))
         (head_ q) (tail_ q))
      [Destroy i (block_cells b !! i)].

(** [std::free(slots_)] *)
Definition free_slots : op T unit := fun q => Ret tt q [Free].

(** [assert(b)] *)
Definition c_assert (b : bool) : op T unit :=
  fun q => if b then Ret tt q [] else AssertFailed.
End Primitives.

(** ** Member functions *)

Section Operations.
Context {T : Type} `{Sized T}.

(** [while (nextHead == tail_.load(acquire)) ;] *)
Fixpoint wait_not_full (fuel : nat) (nextHead : Z) : op T unit :=
  match fuel with
  | O => fun _ => OutOfFuel
  | S fuel =>
      tail ← load_tail;
      if nextHead =? tail then wait_not_full fuel nextHead else mret tt
  end.

Definition emplace (fuel : nat) (v : T) : op T unit :=
  head ← load_head;
  capacity ← load_capacity;
  let nextHead := size_add head 1 mod capacity in
  wait_not_full fuel nextHead;;
  placement_new (size_add head (kPadding T)) v;;
  store_head nextHead.

Definition try_emplace (v : T) : op T bool :=
  head ← load_head;
  capacity ← load_capacity;
  let nextHead := size_add head 1 mod capacity in
  tail ← load_tail;
  if nextHead =? tail then mret false
  else
    placement_new (size_add head (kPadding T)) v;;
    store_head nextHead;;
    mret true.

Definition push (fuel : nat) (v : T) : op T unit := emplace fuel v.

Definition try_push (v : T) : op T bool := try_emplace v.

(** The returned [T *] is the index of the pointee relative to [slots_];
    [None] is [nullptr]. *)
Definition front : op T (option Z) :=
  tail ← load_tail;
  head ← load_head;
  if head =? tail then mret None
  else mret (Some (size_add tail (kPadding T))).

Definition pop : op T unit :=
  tail ← load_tail;
  head ← load_head;
  c_assert (negb (head =? tail));;
  destroy_at (size_add tail (kPadding T));;
  capacity ← load_capacity;
  let nextTail := size_add tail 1 mod capacity in
  store_tail nextTail.

Definition size : op T Z :=
  head ← load_head;
  tail ← load_tail;
  let diff := to_ssize_t (size_sub head tail) in
  diff ← (if diff <? 0
          then capacity ← load_capacity;
               mret (to_ssize_t (size_add (to_size_t diff) capacity))
          else mret diff);
  mret (to_size_t diff).

Definition empty : op T bool :=
  n ← size;
  mret (n =? 0).

Definition capacity : op T Z := load_capacity.

(** [while (front()) { pop(); }] *)
Fixpoint drain (fuel : nat) : op T unit :=
  match fuel with
  | O => fun _ => OutOfFuel
  | S fuel =>
      p ← front;
      match p with
      | Some _ => pop;; drain fuel
      | None => mret tt
      end
  end.

(** [~SPSCQueue()] *)
Definition destroy (fuel : nat) : op T unit :=
  drain fuel;;
  free_slots.
End Operations.

(** ** Construction *)

Inductive exception := invalid_argument | bad_alloc.

Inductive construction (T : Type) :=
| Constructed (q : SPSCQueue T)
| Thrown (e : exception).
Arguments Constructed {T} _.
Arguments Thrown {T} _.

(** [std::malloc(n)]: [available n] tells whether the allocator serves a
    request of [n] bytes; [None] is the null pointer. *)
Definition malloc {T : Type} (available : Z -> bool) (n : Z)
    : option (Block T) :=
  if available n then Some (mkBlock n ∅) else None.

(** [SPSCQueue(const size_t capacity)]: the member initialisers run first, in
    declaration order, then the body. *)
Definition construct (T : Type) `{Sized T}
    (available : Z -> bool) (capacity : Z) : construction T :=
  let capacity_ := capacity in
  let slots_ := malloc available (malloc_size T capacity_) in
  let head_ := 0 in
  let tail_ := 0 in
  if capacity_ <? 2 then Thrown invalid_argument
  else
    match slots_ with
    | None => Thrown bad_alloc
    | Some block => Constructed (mkSPSCQueue capacity_ block head_ tail_)
    end.

(** ** Clients: sequences of calls *)

Inductive call (T : Type) :=
| CallEmplace (v : T)
| CallTryEmplace (v : T)
| CallPush (v : T)
| CallTryPush (v : T)
| CallFront
| CallPop
| CallSize
| CallEmpty
| CallCapacity.
Arguments CallEmplace {T} _.
Arguments CallTryEmplace {T} _.
Arguments CallPush {T} _.
Arguments CallTryPush {T} _.
Arguments CallFront {T}.
Arguments CallPop {T}.
Arguments CallSize {T}.
Arguments CallEmpty {T}.
Arguments CallCapacity {T}.

Inductive answer :=
| AnsVoid
| AnsBool (b : bool)
| AnsPtr (p : option Z)
| AnsSize (n : Z).

(** What a client sees: the effects of the queue on its slots and, for each
    call of [front], the element behind the returned pointer ([None] when the
    pointer is null or the slot holds no live element). *)
Inductive observation (T : Type) :=
| ObsEvent (e : event T)
| ObsFront (seen : option T).
Arguments ObsEvent {T} _.
Arguments ObsFront {T} _.

Section Clients.
Context {T : Type} `{Sized T}.

Definition invoke (fuel : nat) (c : call T) : op T answer :=
  match c with
  | CallEmplace v => emplace fuel v;; mret AnsVoid
  | CallTryEmplace v => b ← try_emplace v; mret (AnsBool b)
  | CallPush v => push fuel v;; mret AnsVoid
  | CallTryPush v => b ← try_push v; mret (AnsBool b)
  | CallFront => p ← front; mret (AnsPtr p)
  | CallPop => pop;; mret AnsVoid
  | CallSize => n ← size; mret (AnsSize n)
  | CallEmpty => b ← empty; mret (AnsBool b)
  | CallCapacity => n ← capacity; mret (AnsSize n)
  end.

(** The states a queue object goes through between construction and
    destruction. *)
Inductive reachable : SPSCQueue T -> Prop :=
| reachable_construct available capacity q :
    is_size_t capacity ->
    construct T available capacity = Constructed q -> reachable q
| reachable_invoke q fuel c a q' log :
    reachable q -> invoke fuel c q = Ret a q' log -> reachable q'.

(** Dereferencing a pointer returned by [front]. *)
Definition deref (q : SPSCQueue T) (p : option Z) : option T :=
  i ← p; block_cells (slots_ q) !! i.

Definition observe (a : answer) (q : SPSCQueue T) (log : list (event T))
    : list (observation T) :=
  map ObsEvent log ++
  match a with
  | AnsPtr p => [ObsFront (deref q p)]
  | _ => []
  end.

(** A client performs the calls [cs] one after the other; [None] when a call
    does not return (failed assertion, access outside the block, or a spin
    that is never released). *)
Fixpoint run (fuel : nat) (cs : list (call T)) (q : SPSCQueue T)
    : option (list (observation T) * SPSCQueue T) :=
  match cs with
  | [] => Some ([], q)
  | c :: cs =>
      match invoke fuel c q with
      | Ret a q' log =>
          match run fuel cs q' with
          | Some (obs, q'') => Some (observe a q' log ++ obs, q'')
          | None => None
          end
      | _ => None
      end
  end.

(** [admissible c n cs]: started on a queue of capacity [c] that holds [n]
    elements, every blocking insert of [cs] finds room and every [pop]
    finds an element. *)
Fixpoint admissible (c n : Z) (cs : list (call T)) : bool :=
  match cs with
  | [] => true
  | CallEmplace _ :: cs | CallPush _ :: cs =>
      (n + 1 <? c) && admissible c (n + 1) cs
  | CallTryEmplace _ :: cs | CallTryPush _ :: cs =>
      admissible c (if n + 1 <? c then n + 1 else n) cs
  | CallPop :: cs => (0 <? n) && admissible c (n - 1) cs
  | _ :: cs => admissible c n cs
  end.

(** The values handed to placement-new, in order. *)
Definition inserted (obs : list (observation T)) : list T :=
  omap (fun o => match o with
                 | ObsEvent (Construct _ v) => Some v
                 | _ => None
                 end) obs.

(** The values whose destructor ran, in order. *)
Definition removed (obs : list (observation T)) : list T :=
  omap (fun o => match o with
                 | ObsEvent (Destroy _ victim) => victim
                 | _ => None
                 end) obs.

(** The slot indices touched by placement-new or a destructor call. *)
Definition touched (log : list (event T)) : list Z :=
  omap (fun e => match e with
                 | Construct i _ => Some i
                 | Destroy i _ => Some i
                 | Free => None
                 end) log.

(** ** Abstraction: the logical content of the ring *)

(** Number of elements between [tail_] and [head_]. *)
Definition occupancy (q : SPSCQueue T) : Z :=
  (head_ q - tail_ q) mod capacity_ q.

(** Slot index of the [k]-th element after [tail_]. *)
Definition slot_of (q : SPSCQueue T) (k : Z) : Z :=
  size_add ((tail_ q + k) mod capacity_ q) (kPadding T).

(** The live elements from [tail_] up to [head_], oldest first. *)
Definition contents (q : SPSCQueue T) : list T :=
  omap (fun k => block_cells (slots_ q) !! slot_of q k)
       (seqZ 0 (occupancy q)).

(** The destructor calls that empty the queue: the [k]-th oldest element is
    destroyed in the slot of [tail_ + k]. *)
Definition drain_log (q : SPSCQueue T) : list (event T) :=
  imap (fun k v => Destroy (slot_of q (Z.of_nat k)) (Some v)) (contents q).

(** The slots between the two paddings. *)
Definition ring_slot (q : SPSCQueue T) (i : Z) : Prop :=
  kPadding T <= i < kPadding T + capacity_ q.

(** ** The member functions without the monad *)

(** The queue after [new (&slots_[head_ + kPadding]) T(v)] and the store of
    the next head. *)
Definition inserted_at (q : SPSCQueue T) (v : T) : SPSCQueue T :=
  mkSPSCQueue (capacity_ q)
    (mkBlock (block_bytes (slots_ q))
       (<[size_add (head_ q) (kPadding T) := v]> (block_cells (slots_ q))))
    (size_add (head_ q) 1 mod capacity_ q) (tail_ q).

(** The queue after the destructor call on [slots_[tail_ + kPadding]] and
    the store of the next tail. *)
Definition removed_at (q : SPSCQueue T) : SPSCQueue T :=
  mkSPSCQueue (capacity_ q)
    (mkBlock (block_bytes (slots_ q))
       (delete (size_add (tail_ q) (kPadding T)) (block_cells (slots_ q))))
    (head_ q) (size_add (tail_ q) 1 mod capacity_ q).

(** The value computed by [size()]. *)
Definition size_value (q : SPSCQueue T) : Z :=
  let diff := to_ssize_t (size_sub (head_ q) (tail_ q)) in
  to_size_t
    (if diff <? 0 then to_ssize_t (size_add (to_size_t diff) (capacity_ q))
     else diff).

End Clients.

(** ** Two threads, one atomic access at a time *)

(** The producer thread performs a list of insertions, the consumer thread a
    list of [front] and [pop] calls.  A thread advances by one access to the
    shared object at a time: one load or store of an index, one
    placement-new, one destructor call.  Between two accesses of a thread the
    other thread may perform any number of its own.  Each access is one of
    the primitives the member functions are made of.  In this section every
    load reads the last store to the index, as if all accesses were
    [memory_order_seq_cst]; the [memory_order] arguments of lines 62-98 are
    modelled in the next section. *)

Inductive producer_call (T : Type) :=
| PEmplace (v : T)       (* emplace(v), push(v) *)
| PTryEmplace (v : T).   (* try_emplace(v), try_push(v) *)
Arguments PEmplace {T} _.
Arguments PTryEmplace {T} _.

Inductive consumer_call :=
| CFront                 (* p = front(); if (p) read *p *)
| CPop.                  (* pop() *)

Definition call_value {T : Type} (c : producer_call T) : T :=
  match c with PEmplace v => v | PTryEmplace v => v end.

(** Where the producer is inside [emplace] or [try_emplace], with its local
    variables. *)
Inductive producer_pc (T : Type) :=
| PIdle
| PHeadLoaded (c : producer_call T) (head nextHead : Z)
| PRoomFound (c : producer_call T) (head nextHead : Z)
| PConstructed (c : producer_call T) (head nextHead : Z).
Arguments PIdle {T}.
Arguments PHeadLoaded {T} _ _ _.
Arguments PRoomFound {T} _ _ _.
Arguments PConstructed {T} _ _ _.

(** Where the consumer is inside [front] or [pop], with its local
    variables. *)
Inductive consumer_pc :=
| CIdle
| CFrontTailLoaded (tail : Z)
| CFrontReturned (p : option Z)
| CPopTailLoaded (tail : Z)
| CPopAsserted (tail : Z)
| CPopDestroyed (tail : Z).

Inductive thread := Producer | Consumer.

Record config (T : Type) := mkConfig {
  cfg_queue : SPSCQueue T;
  cfg_producer : producer_pc T;
  cfg_inserts : list (producer_call T);
  cfg_consumer : consumer_pc;
  cfg_removes : list consumer_call;
  cfg_trace : list (observation T)
}.
Arguments mkConfig {T} _ _ _ _ _ _.
Arguments cfg_queue {T} _.
Arguments cfg_producer {T} _.
Arguments cfg_inserts {T} _.
Arguments cfg_consumer {T} _.
Arguments cfg_removes {T} _.
Arguments cfg_trace {T} _.

Section Threads.
Context {T : Type} `{Sized T}.

(** One access of the producer.  A producer that has nothing left to do
    stays idle. *)
Definition producer_step (pc : producer_pc T) (todo : list (producer_call T))
    : op T (producer_pc T * list (producer_call T)) :=
  match pc with
  | PIdle =>
      match todo with
      | [] => mret (PIdle, [])
      | c :: todo =>
          head ← load_head;
          capacity ← load_capacity;
          mret (PHeadLoaded c head (size_add head 1 mod capacity), todo)
      end
  | PHeadLoaded c head nextHead =>
      tail ← load_tail;
      if nextHead =? tail then
        match c with
        | PEmplace _ => mret (PHeadLoaded c head nextHead, todo)   (* spin *)
        | PTryEmplace _ => mret (PIdle, todo)                 (* return false *)
        end
      else mret (PRoomFound c head nextHead, todo)
  | PRoomFound c head nextHead =>
      placement_new (size_add head (kPadding T)) (call_value c);;
      mret (PConstructed c head nextHead, todo)
  | PConstructed c head nextHead =>
      store_head nextHead;;
      mret (PIdle, todo)
  end.

(** One access of the consumer; the last step of a [front] call is the read
    of the element through the returned pointer, which is what the client
    observes. *)
Definition consumer_step (pc : consumer_pc) (todo : list consumer_call)
    : op T (consumer_pc * list consumer_call * list (observation T)) :=
  match pc with
  | CIdle =>
      match todo with
      | [] => mret (CIdle, [], [])
      | CFront :: todo =>
          tail ← load_tail; mret (CFrontTailLoaded tail, todo, [])
      | CPop :: todo =>
          tail ← load_tail; mret (CPopTailLoaded tail, todo, [])
      end
  | CFrontTailLoaded tail =>
      head ← load_head;
      mret (CFrontReturned (if head =? tail then None
                            else Some (size_add tail (kPadding T))),
            todo, [])
  | CFrontReturned p =>
      fun q => Ret (CIdle, todo, [ObsFront (deref q p)]) q []
  | CPopTailLoaded tail =>
      head ← load_head;
      c_assert (negb (head =? tail));;
      mret (CPopAsserted tail, todo, [])
  | CPopAsserted tail =>
      destroy_at (size_add tail (kPadding T));;
      mret (CPopDestroyed tail, todo, [])
  | CPopDestroyed tail =>
      capacity ← load_capacity;
      store_tail (size_add tail 1 mod capacity);;
      mret (CIdle, todo, [])
  end.

(** The chosen thread performs its next access, its loads reading the last
    store; [None] when that access is a failed assertion or lies outside
    the block. *)
Definition thread_step (t : thread) (cfg : config T) : option (config T) :=
  match t with
  | Producer =>
      match producer_step (cfg_producer cfg) (cfg_inserts cfg) (cfg_queue cfg)
      with
      | Ret (pc, todo) q log =>
          Some (mkConfig q pc todo (cfg_consumer cfg) (cfg_removes cfg)
                  (cfg_trace cfg ++ map ObsEvent log))
      | _ => None
      end
  | Consumer =>
      match consumer_step (cfg_consumer cfg) (cfg_removes cfg) (cfg_queue cfg)
      with
      | Ret (pc, todo, seen) q log =>
          Some (mkConfig q (cfg_producer cfg) (cfg_inserts cfg) pc todo
                  (cfg_trace cfg ++ map ObsEvent log ++ seen))
      | _ => None
      end
  end.

(** The two threads run under the schedule [sched]. *)
Fixpoint interleave (sched : list thread) (cfg : config T)
    : option (config T) :=
  match sched with
  | [] => Some cfg
  | t :: sched =>
      match thread_step t cfg with
      | Some cfg => interleave sched cfg
      | None => None
      end
  end.

(** Both threads are about to start on a queue. *)
Definition start (q : SPSCQueue T) (inserts : list (producer_call T))
    (removes : list consumer_call) : config T :=
  mkConfig q PIdle inserts CIdle removes [].

(** The queue as it will be once the accesses in flight are completed: an
    element that is constructed counts as inserted, an element that is
    destroyed counts as removed. *)
Definition settled (cfg : config T) : SPSCQueue T :=
  let q := cfg_queue cfg in
  mkSPSCQueue (capacity_ q) (slots_ q)
    (match cfg_producer cfg with
     | PConstructed _ _ nextHead => nextHead
     | _ => head_ q
     end)
    (match cfg_consumer cfg with
     | CPopDestroyed tail => size_add tail 1 mod capacity_ q
     | _ => tail_ q
     end).
End Threads.

(** The number of accesses of thread [t] in a schedule. *)
Fixpoint accesses (t : thread) (sched : list thread) : nat :=
  match sched with
  | [] => 0
  | u :: sched =>
      match t, u with
      | Producer, Producer | Consumer, Consumer => S (accesses t sched)
      | _, _ => accesses t sched
      end
  end.

(** ** Two threads under the memory orders of the source *)

(** The accesses of [emplace], [try_emplace], [front] and [pop] with their
    [memory_order] arguments.  [head_] and [tail_] are atomic objects; the
    memory keeps, for each, the stores made to it in modification order,
    the initialisation by the constructor first.  Each index is stored to by
    one thread only.  That thread loads it with [memory_order_relaxed] and
    reads its own last store.  The other thread loads it with
    [memory_order_acquire] and may read any store that is not older than
    the one it read before; reading a store, which is a
    [memory_order_release] store, makes everything its writer did before it
    happen before what the reader does next.  The slots are not atomic: a
    placement-new, a destructor call or a read on a slot that the other
    thread accessed, without that access happening before it, is a data
    race, which is undefined behaviour. *)

Record memory (T : Type) := mkMemory {
  m_capacity : Z;
  m_slots : Block T;
  (** the stores to [head_] and to [tail_], oldest first *)
  m_heads : list Z;
  m_tails : list Z;
  (** for each slot, the number of stores to [head_] that preceded the last
      access of the producer to the slot, and the number of stores to
      [tail_] that preceded the last access of the consumer *)
  m_produced : gmap Z nat;
  m_consumed : gmap Z nat
}.
Arguments mkMemory {T} _ _ _ _ _ _.
Arguments m_capacity {T} _.
Arguments m_slots {T} _.
Arguments m_heads {T} _.
Arguments m_tails {T} _.
Arguments m_produced {T} _.
Arguments m_consumed {T} _.

(** A configuration of the two threads: beside its place in the call, each
    thread has the number of the last store to the other thread's index that
    it has read. *)
Record rconfig (T : Type) := mkRConfig {
  r_memory : memory T;
  r_producer : producer_pc T;
  r_inserts : list (producer_call T);
  r_tail_seen : nat;
  r_consumer : consumer_pc;
  r_removes : list consumer_call;
  r_head_seen : nat;
  r_trace : list (observation T)
}.
Arguments mkRConfig {T} _ _ _ _ _ _ _ _.
Arguments r_memory {T} _.
Arguments r_producer {T} _.
Arguments r_inserts {T} _.
Arguments r_tail_seen {T} _.
Arguments r_consumer {T} _.
Arguments r_removes {T} _.
Arguments r_head_seen {T} _.
Arguments r_trace {T} _.

(** The value of the last store: what a relaxed load reads from the index
    that only the loading thread stores to. *)
Definition latest (stores : list Z) : Z := default 0 (last stores).

(** An acquire load by a thread that has read store number [seen] before: it
    reads the store that is [lag] stores older than the last one, unless
    that one is older than store [seen].  The number of the store read and
    its value. *)
Definition acquire (stores : list Z) (seen lag : nat) : nat * Z :=
  let i := (seen `max` (length stores - 1 - lag))%nat in
  (i, default 0 (stores !! i)).

(** [ordered stamps i seen]: the last access of the other thread to slot
    [i], if there is one, preceded a store of that thread which this thread
    has read, so it happens before the access this thread is about to
    make. *)
Definition ordered (stamps : gmap Z nat) (i : Z) (seen : nat) : bool :=
  match stamps !! i with
  | Some n => (n <=? seen)%nat
  | None => true
  end.

Section ReleaseAcquire.
Context {T : Type} `{Sized T}.

(** [new (&slots_[i]) T(v)] by the producer *)
Definition construct_at (i : Z) (v : T) (m : memory T) : memory T :=
  mkMemory (m_capacity m)
    (mkBlock (block_bytes (m_slots m)) (<[i := v]> (block_cells (m_slots m))))
    (m_heads m) (m_tails m)
    (<[i := length (m_heads m)]> (m_produced m)) (m_consumed m).

(** [slots_[i].~T()] by the consumer *)
Definition destroy_in (i : Z) (m : memory T) : memory T :=
  mkMemory (m_capacity m)
    (mkBlock (block_bytes (m_slots m)) (delete i (block_cells (m_slots m))))
    (m_heads m) (m_tails m)
    (m_produced m) (<[i := length (m_tails m)]> (m_consumed m)).

(** a read of [slots_[i]] by the consumer, through the pointer it got from
    [front] *)
Definition read_in (i : Z) (m : memory T) : memory T :=
  mkMemory (m_capacity m) (m_slots m) (m_heads m) (m_tails m)
    (m_produced m) (<[i := length (m_tails m)]> (m_consumed m)).

(** [head_.store(n, std::memory_order_release)] *)
Definition release_head (n : Z) (m : memory T) : memory T :=
  mkMemory (m_capacity m) (m_slots m) (m_heads m ++ [n]) (m_tails m)
    (m_produced m) (m_consumed m).

(** [tail_.store(n, std::memory_order_release)] *)
Definition release_tail (n : Z) (m : memory T) : memory T :=
  mkMemory (m_capacity m) (m_slots m) (m_heads m) (m_tails m ++ [n])
    (m_produced m) (m_consumed m).

Definition producer_at (pc : producer_pc T) (todo : list (producer_call T))
    (seen : nat) (m : memory T) (obs : list (observation T))
    (cfg : rconfig T) : rconfig T :=
  mkRConfig m pc todo seen (r_consumer cfg) (r_removes cfg) (r_head_seen cfg)
    (r_trace cfg ++ obs).

Definition consumer_at (pc : consumer_pc) (todo : list consumer_call)
    (seen : nat) (m : memory T) (obs : list (observation T))
    (cfg : rconfig T) : rconfig T :=
  mkRConfig m (r_producer cfg) (r_inserts cfg) (r_tail_seen cfg) pc todo seen
    (r_trace cfg ++ obs).

(** One access of the producer ([emplace], lines 62-67; [try_emplace],
    lines 71-78); [lag] chooses the store that its acquire load reads. *)
Definition rproducer_step (lag : nat) (cfg : rconfig T)
    : option (rconfig T) :=
  let m := r_memory cfg in
  let todo := r_inserts cfg in
  let seen := r_tail_seen cfg in
  match r_producer cfg with
  | PIdle =>
      match todo with
      | [] => Some cfg
      | c :: todo =>
          (* head_.load(std::memory_order_relaxed) *)
          let head := latest (m_heads m) in
          Some (producer_at
                  (PHeadLoaded c head (size_add head 1 mod m_capacity m))
                  todo seen m [] cfg)
      end
  | PHeadLoaded c head nextHead =>
      (* tail_.load(std::memory_order_acquire) *)
      let '(seen, tail) := acquire (m_tails m) seen lag in
      if nextHead =? tail then
        match c with
        | PEmplace _ =>
            Some (producer_at (PHeadLoaded c head nextHead) todo seen m []
                    cfg)
        | PTryEmplace _ => Some (producer_at PIdle todo seen m [] cfg)
        end
      else Some (producer_at (PRoomFound c head nextHead) todo seen m [] cfg)
  | PRoomFound c head nextHead =>
      let i := size_add head (kPadding T) in
      if in_bounds (m_slots m) i && ordered (m_consumed m) i seen then
        Some (producer_at (PConstructed c head nextHead) todo seen
                (construct_at i (call_value c) m)
                [ObsEvent (Construct i (call_value c))] cfg)
      else None
  | PConstructed c head nextHead =>
      Some (producer_at PIdle todo seen (release_head nextHead m) [] cfg)
  end.

(** One access of the consumer ([front], lines 86-90, and the read through
    the pointer it returns; [pop], lines 94-98). *)
Definition rconsumer_step (lag : nat) (cfg : rconfig T)
    : option (rconfig T) :=
  let m := r_memory cfg in
  let todo := r_removes cfg in
  let seen := r_head_seen cfg in
  match r_consumer cfg with
  | CIdle =>
      match todo with
      | [] => Some cfg
      | CFront :: todo =>
          (* tail_.load(std::memory_order_relaxed) *)
          Some (consumer_at (CFrontTailLoaded (latest (m_tails m))) todo seen
                  m [] cfg)
      | CPop :: todo =>
          Some (consumer_at (CPopTailLoaded (latest (m_tails m))) todo seen
                  m [] cfg)
      end
  | CFrontTailLoaded tail =>
      (* head_.load(std::memory_order_acquire) *)
      let '(seen, head) := acquire (m_heads m) seen lag in
      Some (consumer_at
              (CFrontReturned (if head =? tail then None
                               else Some (size_add tail (kPadding T))))
              todo seen m [] cfg)
  | CFrontReturned None =>
      Some (consumer_at CIdle todo seen m [ObsFront None] cfg)
  | CFrontReturned (Some i) =>
      if ordered (m_produced m) i seen then
        Some (consumer_at CIdle todo seen (read_in i m)
                [ObsFront (block_cells (m_slots m) !! i)] cfg)
      else None
  | CPopTailLoaded tail =>
      let '(seen, head) := acquire (m_heads m) seen lag in
      (* assert(head != tail) *)
      if head =? tail then None
      else Some (consumer_at (CPopAsserted tail) todo seen m [] cfg)
  | CPopAsserted tail =>
      let i := size_add tail (kPadding T) in
      if in_bounds (m_slots m) i && ordered (m_produced m) i seen then
        Some (consumer_at (CPopDestroyed tail) todo seen (destroy_in i m)
                [ObsEvent (Destroy i (block_cells (m_slots m) !! i))] cfg)
      else None
  | CPopDestroyed tail =>
      Some (consumer_at CIdle todo seen
              (release_tail (size_add tail 1 mod m_capacity m) m) [] cfg)
  end.

(** The chosen thread performs its next access; [None] when that access is
    a failed assertion, lies outside the block or is a data race. *)
Definition rstep (t : thread) (lag : nat) (cfg : rconfig T)
    : option (rconfig T) :=
  match t with
  | Producer => rproducer_step lag cfg
  | Consumer => rconsumer_step lag cfg
  end.

(** The two threads run under a schedule, which also chooses what each
    acquire load reads. *)
Fixpoint rinterleave (sched : list (thread * nat)) (cfg : rconfig T)
    : option (rconfig T) :=
  match sched with
  | [] => Some cfg
  | (t, lag) :: sched =>
      match rstep t lag cfg with
      | Some cfg => rinterleave sched cfg
      | None => None
      end
  end.

(** Both threads are about to start on a queue; the work of the constructor
    happens before what they do. *)
Definition rstart (q : SPSCQueue T) (inserts : list (producer_call T))
    (removes : list consumer_call) : rconfig T :=
  mkRConfig
    (mkMemory (capacity_ q) (slots_ q) [head_ q] [tail_ q] ∅ ∅)
    PIdle inserts 0 CIdle removes 0 [].

(** The queue as it will be once the accesses in flight are completed. *)
Definition rsettled (cfg : rconfig T) : SPSCQueue T :=
  let m := r_memory cfg in
  mkSPSCQueue (m_capacity m) (m_slots m)
    (match r_producer cfg with
     | PConstructed _ _ nextHead => nextHead
     | _ => latest (m_heads m)
     end)
    (match r_consumer cfg with
     | CPopDestroyed tail => size_add tail 1 mod m_capacity m
     | _ => latest (m_tails m)
     end).
End ReleaseAcquire.

(** ** Concrete element types *)

Lemma sizeof_char_range : 1 <= 1 <= SIZE_MAX.
Proof. unfold SIZE_MAX. lia. Qed.

Lemma sizeof_uint64_range : 1 <= 8 <= SIZE_MAX.
Proof. unfold SIZE_MAX. lia. Qed.

(** [unsigned char] *)
#[global] Instance byte_Sized : Sized byte :=
  {| sizeof := 1; sizeof_range := sizeof_char_range |}.

(** [uint64_t], with [N] standing for its values *)
#[global] Instance N_Sized : Sized N :=
  {| sizeof := 8; sizeof_range := sizeof_uint64_range |}.

Definition always_available : Z -> bool := fun _ => true.
Definition never_available : Z -> bool := fun _ => false.

(** An allocator that serves every request of at most [PTRDIFF_MAX]
    ([SSIZE_MAX]) bytes and no other: no object is larger. *)
Definition ptrdiff_available : Z -> bool := fun n => n <=? SSIZE_MAX.

(** ** A worked scenario: capacity 4, three usable slots *)

Definition queue4 : SPSCQueue byte := mkSPSCQueue 4 (mkBlock 260 ∅) 0 0.

(** Insert A, B, C; a fourth insert is refused; remove A; insert D; then
    drain. *)
Definition scenario : list (call byte) :=
  [CallTryPush "A"; CallTryPush "B"; CallTryPush "C"; CallTryPush "D";
   CallPop; CallTryPush "D"; CallFront; CallPop; CallFront; CallPop;
   CallFront; CallPop; CallFront]%byte.

Definition scenario_observations : list (observation byte) :=
  [ObsEvent (Construct 128 "A"); ObsEvent (Construct 129 "B");
   ObsEvent (Construct 130 "C"); ObsEvent (Destroy 128 (Some "A"));
   ObsEvent (Construct 131 "D"); ObsFront (Some "B");
   ObsEvent (Destroy 129 (Some "B")); ObsFront (Some "C");
   ObsEvent (Destroy 130 (Some "C")); ObsFront (Some "D");
   ObsEvent (Destroy 131 (Some "D")); ObsFront None]%byte.

(** A schedule of the two threads: the consumer looks at the queue while
    the first insertion is under way, and removes A while B is constructed
    but not yet published. *)
Definition schedule : list thread :=
  [Producer; Producer; Consumer; Consumer; Consumer; Producer; Producer;
   Consumer; Consumer; Consumer; Producer; Producer; Producer; Consumer;
   Consumer; Consumer; Producer; Consumer; Consumer; Consumer; Consumer;
   Consumer; Consumer; Consumer; Consumer].

Definition schedule_observations : list (observation byte) :=
  [ObsFront None; ObsEvent (Construct 128 "A"); ObsFront (Some "A");
   ObsEvent (Construct 129 "B"); ObsEvent (Destroy 128 (Some "A"));
   ObsFront (Some "B"); ObsEvent (Destroy 129 (Some "B"))]%byte.

(** The scenario after its first call. *)
Definition queue4_A : SPSCQueue byte :=
  mkSPSCQueue 4 (mkBlock 260 {[128 := "A"%byte]}) 1 0.

(** The scenario after its first three calls: the queue is full. *)
Definition queue4_full : SPSCQueue byte :=
  mkSPSCQueue 4
    (mkBlock 260 {[128 := "A"%byte; 129 := "B"%byte; 130 := "C"%byte]}) 3 0.

(** ** States of the two threads on the queue of capacity 4 *)

(** A schedule in which every acquire load reads the last store. *)
Definition always_fresh (ts : list thread) : list (thread * nat) :=
  map (fun t => (t, 0%nat)) ts.

(** The producer has inserted A, B and C with [emplace] and is in the loop
    of a fourth [emplace]; the consumer has completed a [pop], which the
    producer has not noticed yet. *)
Definition waiting_config : rconfig byte :=
  mkRConfig
    (mkMemory 4 (mkBlock 260 {[129 := "B"%byte; 130 := "C"%byte]})
       [0; 1; 2; 3] [0; 1]
       {[128 := 1%nat; 129 := 2%nat; 130 := 3%nat]} {[128 := 1%nat]})
    (PHeadLoaded (PEmplace "D"%byte) 3 0) [] 0 CIdle [] 3
    [ObsEvent (Construct 128 "A"%byte); ObsEvent (Construct 129 "B"%byte);
     ObsEvent (Construct 130 "C"%byte);
     ObsEvent (Destroy 128 (Some "A"%byte))].

(** [front] has returned the pointer to A to the consumer. *)
Definition front_config : rconfig byte :=
  mkRConfig
    (mkMemory 4 (mkBlock 260 {[128 := "A"%byte]}) [0; 1] [0]
       {[128 := 1%nat]} ∅)
    PIdle [PTryEmplace "B"%byte] 0 (CFrontReturned (Some 128)) [] 1
    [ObsEvent (Construct 128 "A"%byte)].

(** The producer has found room for A. *)
Definition room_config : rconfig byte :=
  mkRConfig (mkMemory 4 (mkBlock 260 ∅) [0] [0] ∅ ∅)
    (PRoomFound (PTryEmplace "A"%byte) 0 1) [] 0 CIdle [CFront] 0 [].

(** The producer has constructed A and not yet stored [head_]. *)
Definition constructed_config : rconfig byte :=
  mkRConfig
    (mkMemory 4 (mkBlock 260 {[128 := "A"%byte]}) [0] [0]
       {[128 := 1%nat]} ∅)
    (PConstructed (PTryEmplace "A"%byte) 0 1) [] 0 CIdle [CFront] 0
    [ObsEvent (Construct 128 "A"%byte)].

(** ** Queues of very large capacity *)

(** [2^63 + 2], a capacity for which only an allocator that serves more than
    [PTRDIFF_MAX] bytes ([always_available]) yields a queue. *)
Definition huge : Z := 9223372036854775810.

(** A queue of capacity [c] whose indices have both advanced to [n], with no
    element in it. *)
Definition rotated (c n : Z) : SPSCQueue byte :=
  mkSPSCQueue c (mkBlock (malloc_size byte c) ∅) n n.

(** The queue of capacity [huge] after [huge - 1] insertions and removals and
    one more insertion: [head_] has wrapped to 0, [tail_] is at the last
    slot. *)
Definition lagging_queue : SPSCQueue byte :=
  mkSPSCQueue huge
    (mkBlock (malloc_size byte huge) {[huge - 1 + 128 := "A"%byte]})
    0 (huge - 1).

(** ** The representation invariant *)

(** [ring_inv q l]: the indices are in range and the slots hold exactly the
    elements of [l], the oldest at [tail_], the others in the slots after it
    (modulo [capacity_]); every other slot is dead. *)
Record ring_inv {T : Type} `{Sized T} (q : SPSCQueue T) (l : list T) : Prop := {
  inv_capacity : 2 <= capacity_ q <= SIZE_MAX;
  inv_head : 0 <= head_ q < capacity_ q;
  inv_tail : 0 <= tail_ q < capacity_ q;
  inv_length : Z.of_nat (length l) = occupancy q;
  inv_cells : forall j, 0 <= j < capacity_ q ->
    block_cells (slots_ q) !! size_add j (kPadding T)
    = l !! Z.to_nat ((j - tail_ q) mod capacity_ q);
  inv_dead : forall i, is_Some (block_cells (slots_ q) !! i) ->
    exists j, 0 <= j < capacity_ q /\ i = size_add j (kPadding T)
}.

(** [bounds_inv q]: every slot of the ring that holds a live element lies
    inside the block, and so does every slot below the one of [head_]. *)
Record bounds_inv {T : Type} `{Sized T} (q : SPSCQueue T) : Prop := {
  bnd_bytes : is_size_t (block_bytes (slots_ q));
  bnd_head : head_ q = 0
    \/ (head_ q + kPadding T) * sizeof T <= block_bytes (slots_ q);
  bnd_live : forall j, 0 <= j < capacity_ q ->
    is_Some (block_cells (slots_ q) !! size_add j (kPadding T)) ->
    (j + kPadding T + 1) * sizeof T <= block_bytes (slots_ q)
}.

(** [spacious q]: the block holds the [capacity_ + 2 * kPadding] slots that
    the layout of the queue calls for. *)
Definition spacious {T : Type} `{Sized T} (q : SPSCQueue T) : Prop :=
  sizeof T * (capacity_ q + 2 * kPadding T) <= block_bytes (slots_ q)
  /\ block_bytes (slots_ q) <= SIZE_MAX.

(** The FIFO law on what the clients observed, [pending] being the elements
    still in the queue: the values destroyed, followed by the pending ones,
    are the values constructed, in the order of their construction; every
    element read through a pointer returned by [front] is the oldest one that
    was not destroyed at that time; no destructor ran on a slot without a
    live element. *)
Definition fifo {T : Type} (obs : list (observation T)) (pending : list T)
    : Prop :=
  inserted obs = removed obs ++ pending
  /\ (forall obs1 v obs2, obs = obs1 ++ ObsFront (Some v) :: obs2 ->
        inserted obs1 !! length (removed obs1) = Some v)
  /\ (forall i, ObsEvent (Destroy i None) ∉ obs).

(** What the local variables of the producer are worth. *)
Definition producer_ok {T : Type} (cfg : config T) : Prop :=
  let q := cfg_queue cfg in
  match cfg_producer cfg with
  | PIdle => True
  | PHeadLoaded _ head nextHead =>
      head = head_ q /\ nextHead = size_add head 1 mod capacity_ q
  | PRoomFound _ head nextHead | PConstructed _ head nextHead =>
      head = head_ q /\ nextHead = size_add head 1 mod capacity_ q
      /\ nextHead ≠ tail_ q
  end.

(** What the local variables of the consumer are worth. *)
Definition consumer_ok {T : Type} `{Sized T} (cfg : config T) : Prop :=
  let q := cfg_queue cfg in
  match cfg_consumer cfg with
  | CIdle => True
  | CFrontTailLoaded tail | CPopTailLoaded tail => tail = tail_ q
  | CFrontReturned p =>
      p = None
      \/ (p = Some (size_add (tail_ q) (kPadding T)) /\ head_ q ≠ tail_ q)
  | CPopAsserted tail | CPopDestroyed tail =>
      tail = tail_ q /\ head_ q ≠ tail_ q
  end.

(** The invariant of the two threads: the slots hold the elements [l] of the
    settled queue, the shared indices are in range, the local variables agree
    with them, and the observations so far obey the FIFO law with [l]
    pending. *)
Record threads_inv {T : Type} `{Sized T} (cfg : config T) (l : list T)
    : Prop := {
  ti_ring : ring_inv (settled cfg) l;
  ti_head : 0 <= head_ (cfg_queue cfg) < capacity_ (cfg_queue cfg);
  ti_tail : 0 <= tail_ (cfg_queue cfg) < capacity_ (cfg_queue cfg);
  ti_producer : producer_ok cfg;
  ti_consumer : consumer_ok cfg;
  ti_fifo : fifo (cfg_trace cfg) l
}.

(** An upper bound on the accesses the producer has left when none of its
    calls is a blocking one: those of the call in progress, and four for
    each call to come. *)
Definition producer_left {T : Type} (cfg : config T) : nat :=
  (match cfg_producer cfg with
   | PIdle => 0
   | PHeadLoaded _ _ _ => 3
   | PRoomFound _ _ _ => 2
   | PConstructed _ _ _ => 1
   end + 4 * length (cfg_inserts cfg))%nat.

(** The same for the consumer. *)
Definition consumer_left {T : Type} (cfg : config T) : nat :=
  (match cfg_consumer cfg with
   | CIdle => 0
   | CFrontTailLoaded _ => 2
   | CFrontReturned _ => 1
   | CPopTailLoaded _ => 3
   | CPopAsserted _ => 2
   | CPopDestroyed _ => 1
   end + 4 * length (cfg_removes cfg))%nat.

(** No call of the producer, in progress or to come, is a blocking one. *)
Definition never_spins {T : Type} (cfg : config T) : Prop :=
  Forall (fun c => exists v, c = PTryEmplace v) (cfg_inserts cfg)
  /\ match cfg_producer cfg with
     | PHeadLoaded (PEmplace _) _ _ => False
     | _ => True
     end.

(** ** The invariant under release/acquire *)

(** The stores to an index count upwards modulo the capacity, from the
    initial 0. *)
Definition counted (c : Z) (stores : list Z) : Prop :=
  stores ≠ [] /\ forall (i : nat) x, stores !! i = Some x -> x = Z.of_nat i mod c.

(** 1 while an element is constructed and [head_] not yet stored; 1 while an
    element is destroyed and [tail_] not yet stored. *)
Definition unpublished {T : Type} (cfg : rconfig T) : Z :=
  match r_producer cfg with PConstructed _ _ _ => 1 | _ => 0 end.

Definition unreleased {T : Type} (cfg : rconfig T) : Z :=
  match r_consumer cfg with CPopDestroyed _ => 1 | _ => 0 end.

(** What the local variables of the producer are worth; when it has found
    room, the store to [tail_] that it read leaves room indeed. *)
Definition rproducer_ok {T : Type} (cfg : rconfig T) : Prop :=
  let m := r_memory cfg in
  match r_producer cfg with
  | PIdle => True
  | PHeadLoaded _ head nextHead | PConstructed _ head nextHead =>
      head = latest (m_heads m)
      /\ nextHead = size_add head 1 mod m_capacity m
  | PRoomFound _ head nextHead =>
      head = latest (m_heads m)
      /\ nextHead = size_add head 1 mod m_capacity m
      /\ Z.of_nat (length (m_heads m)) + 1
         <= Z.of_nat (r_tail_seen cfg) + m_capacity m
  end.

(** What the local variables of the consumer are worth; when it has found an
    element, the store to [head_] that it read published that element. *)
Definition rconsumer_ok {T : Type} `{Sized T} (cfg : rconfig T) : Prop :=
  let m := r_memory cfg in
  match r_consumer cfg with
  | CIdle => True
  | CFrontTailLoaded tail | CPopTailLoaded tail | CPopDestroyed tail =>
      tail = latest (m_tails m)
  | CFrontReturned p =>
      p = None
      \/ (p = Some (size_add (latest (m_tails m)) (kPadding T))
         /\ (length (m_tails m) <= r_head_seen cfg)%nat)
  | CPopAsserted tail =>
      tail = latest (m_tails m)
      /\ (length (m_tails m) <= r_head_seen cfg)%nat
  end.

(** The invariant of the two threads: the slots hold the elements [l] of the
    settled queue; the stores to each index count the elements inserted and
    removed; neither thread has read a store that was not made; the
    producer is less than a capacity ahead of the removals it knows of, the
    consumer not ahead of the insertions it knows of; each slot was last
    accessed by the producer for an element that is constructed, by the
    consumer for an element that it knew to be published; and the
    observations so far obey the FIFO law with [l] pending. *)
Record rthreads_inv {T : Type} `{Sized T} (cfg : rconfig T) (l : list T)
    : Prop := {
  ri_ring : ring_inv (rsettled cfg) l;
  ri_heads : counted (m_capacity (r_memory cfg)) (m_heads (r_memory cfg));
  ri_tails : counted (m_capacity (r_memory cfg)) (m_tails (r_memory cfg));
  ri_count :
    Z.of_nat (length (m_heads (r_memory cfg))) + unpublished cfg
    = Z.of_nat (length (m_tails (r_memory cfg))) + unreleased cfg
      + Z.of_nat (length l);
  ri_tail_seen : (r_tail_seen cfg < length (m_tails (r_memory cfg)))%nat;
  ri_head_seen : (r_head_seen cfg < length (m_heads (r_memory cfg)))%nat;
  ri_ahead :
    Z.of_nat (length (m_heads (r_memory cfg))) + unpublished cfg
    <= Z.of_nat (r_tail_seen cfg) + m_capacity (r_memory cfg);
  ri_behind :
    Z.of_nat (length (m_tails (r_memory cfg))) + unreleased cfg
    <= Z.of_nat (r_head_seen cfg) + 1;
  ri_producer : rproducer_ok cfg;
  ri_consumer : rconsumer_ok cfg;
  ri_produced : forall s n, m_produced (r_memory cfg) !! s = Some n ->
    exists e : nat,
      s = size_add (Z.of_nat e mod m_capacity (r_memory cfg)) (kPadding T)
      /\ n = S e
      /\ Z.of_nat e + 2
         <= Z.of_nat (length (m_heads (r_memory cfg))) + unpublished cfg;
  ri_consumed : forall s n, m_consumed (r_memory cfg) !! s = Some n ->
    exists e : nat,
      s = size_add (Z.of_nat e mod m_capacity (r_memory cfg)) (kPadding T)
      /\ n = S e /\ (S e <= r_head_seen cfg)%nat;
  ri_fifo : fifo (r_trace cfg) l
}.

(** * Properties *)

(** ** Machine arithmetic *)

Lemma size_constants :
  SIZE_MODULUS = 2 ^ SIZE_WIDTH /\ SIZE_MAX = SIZE_MODULUS - 1
  /\ SSIZE_MAX = 2 ^ (SIZE_WIDTH - 1) - 1.
Proof. done. Qed.

Lemma to_size_t_small z : 0 <= z <= SIZE_MAX -> to_size_t z = z.
Proof.
  unfold to_size_t, SIZE_MAX, SIZE_MODULUS. intros. apply Z.mod_small. lia.
Qed.

Lemma to_size_t_range z : 0 <= to_size_t z <= SIZE_MAX.
Proof.
  unfold to_size_t, SIZE_MAX, SIZE_MODULUS.
  pose proof (Z.mod_pos_bound z 18446744073709551616). lia.
Qed.

Lemma size_add_small a b : 0 <= a + b <= SIZE_MAX -> size_add a b = a + b.
Proof. apply to_size_t_small. Qed.

Lemma size_add_inj a b k :
  0 <= a <= SIZE_MAX -> 0 <= b <= SIZE_MAX ->
  size_add a k = size_add b k -> a = b.
Proof.
  unfold size_add, to_size_t, SIZE_MAX, SIZE_MODULUS. intros Ha Hb Heq.
  Z.div_mod_to_equations. lia.
Qed.

Lemma mod_cases c x :
  0 < c -> - c <= x < 2 * c ->
  x mod c = if x <? 0 then x + c else if x <? c then x else x - c.
Proof.
  intros Hc Hx.
  destruct (Z.ltb_spec x 0); [|destruct (Z.ltb_spec x c)].
  - symmetry. apply (Z.mod_unique_pos _ _ (-1)); lia.
  - apply Z.mod_small. lia.
  - symmetry. apply (Z.mod_unique_pos _ _ 1); lia.
Qed.

(** Conversions between [size_t] and [ssize_t] *)

Lemma to_size_t_cases z :
  - SIZE_MODULUS <= z < 2 * SIZE_MODULUS ->
  to_size_t z = if z <? 0 then z + SIZE_MODULUS
                else if z <? SIZE_MODULUS then z else z - SIZE_MODULUS.
Proof. intros Hz. apply mod_cases; [done|lia]. Qed.

Lemma to_ssize_t_cases z :
  0 <= z <= SIZE_MAX ->
  to_ssize_t z = if z <=? SSIZE_MAX then z else z - SIZE_MODULUS.
Proof. intros Hz. unfold to_ssize_t. by rewrite to_size_t_small. Qed.

Lemma to_size_t_idemp z : to_size_t (to_size_t z) = to_size_t z.
Proof. apply to_size_t_small, to_size_t_range. Qed.

Lemma to_size_t_to_ssize_t z : to_size_t (to_ssize_t z) = to_size_t z.
Proof.
  unfold to_ssize_t. pose proof (to_size_t_range z) as Hr.
  destruct (Z.leb_spec (to_size_t z) SSIZE_MAX); [apply to_size_t_idemp|].
  rewrite to_size_t_cases by (unfold SIZE_MAX, SIZE_MODULUS in *; lia).
  unfold SIZE_MAX, SSIZE_MAX, SIZE_MODULUS in *.
  destruct (Z.ltb_spec (to_size_t z - 18446744073709551616) 0); lia.
Qed.

(** Rewrites every [_ mod c] of the goal and of the hypotheses whose argument
    is within one period of [0, c), and splits on the comparisons. *)
Ltac ring_cases :=
  repeat match goal with
    | |- context [?x mod ?c] => rewrite (mod_cases c x) by lia
    | H : context [?x mod ?c] |- _ => rewrite (mod_cases c x) in H by lia
    | |- context [?x <? ?y] => destruct (Z.ltb_spec x y)
    | H : context [?x <? ?y] |- _ => destruct (Z.ltb_spec x y)
    end.

Section Arith.
Context {T : Type} `{Sized T}.

Lemma kPadding_eq : kPadding T = 127 / sizeof T + 1.
Proof.
  unfold kPadding, kCacheLineSize, size_sub.
  rewrite (to_size_t_small (128 - 1)) by (unfold SIZE_MAX; lia).
  apply size_add_small.
  pose proof (sizeof_range (T:=T)) as Hs.
  assert (0 <= 127 / sizeof T <= 127).
  { split; [apply Z.div_pos; lia|].
    apply Z.div_le_upper_bound; nia. }
  unfold SIZE_MAX. lia.
Qed.

Lemma kPadding_range : 1 <= kPadding T <= 128.
Proof.
  rewrite kPadding_eq.
  pose proof (sizeof_range (T:=T)) as Hs.
  assert (0 <= 127 / sizeof T <= 127).
  { split; [apply Z.div_pos; lia|].
    apply Z.div_le_upper_bound; nia. }
  lia.
Qed.

Lemma ring_next c i :
  2 <= c <= SIZE_MAX -> 0 <= i < c ->
  size_add i 1 mod c = (if i + 1 <? c then i + 1 else 0)
  /\ 0 <= size_add i 1 mod c < c.
Proof.
  intros Hc Hi. rewrite size_add_small by lia.
  ring_cases; lia.
Qed.
End Arith.

(** ** Each member function in closed form *)

Section ClosedForms.
Context {T : Type} `{Sized T}.
Implicit Types (q : SPSCQueue T) (v : T).

Lemma try_emplace_eq v q :
  try_emplace v q =
    if size_add (head_ q) 1 mod capacity_ q =? tail_ q then Ret false q []
    else if in_bounds (slots_ q) (size_add (head_ q) (kPadding T))
    then Ret true (inserted_at q v)
           [Construct (size_add (head_ q) (kPadding T)) v]
    else OutOfBounds.
Proof.
  unfold try_emplace, placement_new, mbind, op_mbind, op_bind; simpl.
  destruct (_ =? _); [reflexivity|]. destruct (in_bounds _ _); reflexivity.
Qed.

Lemma wait_not_full_eq fuel n q :
  wait_not_full fuel n q =
    if n =? tail_ q then OutOfFuel
    else match fuel with O => OutOfFuel | S _ => Ret tt q [] end.
Proof.
  induction fuel as [|fuel IH]; simpl.
  - destruct (_ =? _); reflexivity.
  - unfold mbind, op_mbind, op_bind; simpl.
    destruct (n =? tail_ q) eqn:E; [|reflexivity].
    rewrite IH. reflexivity.
Qed.

Lemma emplace_eq fuel v q :
  emplace fuel v q =
    if size_add (head_ q) 1 mod capacity_ q =? tail_ q then OutOfFuel
    else match fuel with
         | O => OutOfFuel
         | S _ =>
             if in_bounds (slots_ q) (size_add (head_ q) (kPadding T))
             then Ret tt (inserted_at q v)
                    [Construct (size_add (head_ q) (kPadding T)) v]
             else OutOfBounds
         end.
Proof.
  unfold emplace, placement_new, mbind, op_mbind, op_bind; simpl.
  rewrite wait_not_full_eq.
  destruct (_ =? _); [reflexivity|]. destruct fuel; [reflexivity|].
  destruct (in_bounds _ _); reflexivity.
Qed.

Lemma front_eq q :
  front q =
    Ret (if head_ q =? tail_ q then None
         else Some (size_add (tail_ q) (kPadding T))) q [].
Proof.
  unfold front, mbind, op_mbind, op_bind; simpl.
  destruct (_ =? _); reflexivity.
Qed.

Lemma pop_eq q :
  pop q =
    if head_ q =? tail_ q then AssertFailed
    else if in_bounds (slots_ q) (size_add (tail_ q) (kPadding T))
    then Ret tt (removed_at q)
           [Destroy (size_add (tail_ q) (kPadding T))
              (block_cells (slots_ q) !! size_add (tail_ q) (kPadding T))]
    else OutOfBounds.
Proof.
  unfold pop, destroy_at, mbind, op_mbind, op_bind; simpl.
  destruct (_ =? _); [reflexivity|]; simpl.
  destruct (in_bounds _ _); reflexivity.
Qed.

Lemma size_eq q : size q = Ret (size_value q) q [].
Proof.
  unfold size, size_value, mbind, op_mbind, op_bind; simpl.
  destruct (_ <? _); reflexivity.
Qed.

Lemma empty_eq q : empty q = Ret (size_value q =? 0) q [].
Proof.
  unfold empty, mbind, op_mbind, op_bind. rewrite size_eq. reflexivity.
Qed.

Lemma capacity_eq q : capacity q = Ret (capacity_ q) q [].
Proof. reflexivity. Qed.

(** [size()] without the detour through [ssize_t]: the difference of the
    indices in [size_t], to which [capacity_] is added when it is above
    [SSIZE_MAX]. *)
Lemma size_value_eq q :
  size_value q =
    let u := size_sub (head_ q) (tail_ q) in
    if u <=? SSIZE_MAX then u else size_add u (capacity_ q).
Proof.
  unfold size_sub. simpl.
  pose proof (to_size_t_range (head_ q - tail_ q)) as Hu.
  change (size_value q) with
    (let u := to_size_t (head_ q - tail_ q) in
     to_size_t (if to_ssize_t u <? 0
                then to_ssize_t (size_add (to_size_t (to_ssize_t u))
                                   (capacity_ q))
                else to_ssize_t u)).
  set (u := to_size_t (head_ q - tail_ q)) in *. simpl.
  rewrite (to_size_t_to_ssize_t u), (to_size_t_small u Hu).
  rewrite (to_ssize_t_cases u Hu).
  destruct (Z.leb_spec u SSIZE_MAX) as [Hle|Hgt].
  - rewrite (proj2 (Z.ltb_ge u 0)) by lia. by apply to_size_t_small.
  - rewrite (proj2 (Z.ltb_lt (u - SIZE_MODULUS) 0))
      by (unfold SIZE_MAX, SIZE_MODULUS in *; lia).
    rewrite to_size_t_to_ssize_t. apply to_size_t_idemp.
Qed.

(** [size()] is exact as long as the distance between the indices fits
    [ssize_t]. *)
Lemma size_value_exact q :
  capacity_ q <= SSIZE_MAX + 1 ->
  0 <= head_ q < capacity_ q -> 0 <= tail_ q < capacity_ q ->
  size_value q = (head_ q - tail_ q) mod capacity_ q.
Proof.
  intros Hc Hh Ht. rewrite size_value_eq. unfold size_sub, size_add; simpl.
  unfold SSIZE_MAX in *.
  rewrite (to_size_t_cases (head_ q - tail_ q)) by (unfold SIZE_MODULUS; lia).
  rewrite (mod_cases (capacity_ q)) by lia.
  destruct (Z.ltb_spec (head_ q - tail_ q) 0).
  - rewrite (proj2 (Z.leb_gt _ _)) by (unfold SIZE_MODULUS; lia).
    rewrite to_size_t_cases by (unfold SIZE_MODULUS; lia).
    unfold SIZE_MODULUS. ring_cases; lia.
  - unfold SIZE_MODULUS. ring_cases; try lia.
    destruct (Z.leb_spec (head_ q - tail_ q) 9223372036854775807); lia.
Qed.

(** [size()] is zero exactly when the indices coincide, whatever the
    capacity. *)
Lemma size_value_zero q :
  is_size_t (capacity_ q) ->
  0 <= head_ q < capacity_ q -> 0 <= tail_ q < capacity_ q ->
  size_value q = 0 <-> head_ q = tail_ q.
Proof.
  intros [_ Hc] Hh Ht. rewrite size_value_eq. unfold size_sub, size_add; simpl.
  unfold SIZE_MAX, SSIZE_MAX in *.
  rewrite (to_size_t_cases (head_ q - tail_ q)) by (unfold SIZE_MODULUS; lia).
  destruct (Z.ltb_spec (head_ q - tail_ q) 0);
    [|destruct (Z.ltb_spec (head_ q - tail_ q) SIZE_MODULUS)];
    match goal with
    | |- context [?u <=? ?m] => destruct (Z.leb_spec u m)
    end;
    try rewrite to_size_t_cases by (unfold SIZE_MODULUS in *; lia);
    unfold SIZE_MODULUS in *; ring_cases; lia.
Qed.
End ClosedForms.

(** ** The invariant is established and preserved *)

Section Invariant.
Context {T : Type} `{Sized T}.
Implicit Types (q : SPSCQueue T) (v : T) (l : list T).

Lemma construct_eq available c q :
  construct T available c = Constructed q ->
  2 <= c /\ available (malloc_size T c) = true
  /\ q = mkSPSCQueue c (mkBlock (malloc_size T c) ∅) 0 0.
Proof.
  unfold construct, malloc. destruct (Z.ltb_spec c 2); [discriminate|].
  destruct (available _); [|discriminate].
  intros [= <-]. auto.
Qed.

Lemma construct_inv available c q :
  is_size_t c -> construct T available c = Constructed q -> ring_inv q [].
Proof.
  intros [? ?] (Hc & _ & ->)%construct_eq.
  split; simpl; try lia.
  - unfold occupancy; simpl. rewrite Z.mod_0_l; lia.
  - intros j Hj. rewrite lookup_empty. symmetry. apply lookup_nil.
  - intros i [x Hx]. rewrite lookup_empty in Hx. discriminate.
Qed.

Lemma inv_not_full q l :
  ring_inv q l -> size_add (head_ q) 1 mod capacity_ q ≠ tail_ q ->
  Z.of_nat (length l) + 1 < capacity_ q.
Proof.
  intros [Hc Hh Ht Hlen _ _] Hnf. unfold occupancy in Hlen.
  destruct (ring_next (capacity_ q) (head_ q) Hc Hh) as [Hn _].
  rewrite Hn in Hnf. ring_cases; lia.
Qed.

Lemma inv_full q l :
  ring_inv q l -> size_add (head_ q) 1 mod capacity_ q = tail_ q ->
  Z.of_nat (length l) = capacity_ q - 1.
Proof.
  intros [Hc Hh Ht Hlen _ _] Hf. unfold occupancy in Hlen.
  destruct (ring_next (capacity_ q) (head_ q) Hc Hh) as [Hn _].
  rewrite Hn in Hf. ring_cases; lia.
Qed.

Lemma inv_empty q l : ring_inv q l -> head_ q = tail_ q <-> l = [].
Proof.
  intros [Hc Hh Ht Hlen _ _]. unfold occupancy in Hlen.
  rewrite <-length_zero_iff_nil. ring_cases; lia.
Qed.

Lemma inserted_at_inv q l v :
  ring_inv q l -> size_add (head_ q) 1 mod capacity_ q ≠ tail_ q ->
  ring_inv (inserted_at q v) (l ++ [v]).
Proof.
  intros Hinv Hnf. pose proof (inv_not_full q l Hinv Hnf) as Hroom.
  destruct Hinv as [Hc Hh Ht Hlen Hcells Hdead]. unfold occupancy in Hlen.
  destruct (ring_next (capacity_ q) (head_ q) Hc Hh) as [Hn Hnr].
  split; simpl; try lia.
  - unfold occupancy; simpl. rewrite length_app, Hn; simpl.
    ring_cases; lia.
  - intros j Hj. destruct (decide (j = head_ q)) as [->|Hne].
    + rewrite lookup_insert_eq. symmetry. apply list_lookup_middle. lia.
    + rewrite lookup_insert_ne
        by (intros Heq; apply size_add_inj in Heq; lia).
      rewrite Hcells by lia.
      destruct (decide (Z.to_nat ((j - tail_ q) mod capacity_ q)
                        < length l)%nat) as [Hlt|Hge].
      * by rewrite lookup_app_l.
      * rewrite !lookup_ge_None_2; [done| |lia].
        rewrite length_app; simpl. ring_cases; lia.
  - intros i Hi. apply lookup_insert_is_Some in Hi as [<-|[_ Hi]]; eauto.
Qed.

Lemma removed_at_inv q l :
  ring_inv q l -> head_ q ≠ tail_ q ->
  exists v l', l = v :: l'
    /\ block_cells (slots_ q) !! size_add (tail_ q) (kPadding T) = Some v
    /\ ring_inv (removed_at q) l'.
Proof.
  intros Hinv Hne. pose proof (inv_empty q l Hinv) as Hemp.
  destruct Hinv as [Hc Hh Ht Hlen Hcells Hdead]. unfold occupancy in Hlen.
  destruct l as [|v l']; [tauto|]. exists v, l'. simpl in Hlen.
  destruct (ring_next (capacity_ q) (tail_ q) Hc Ht) as [Hn Hnr].
  split; [done|]. split.
  { rewrite Hcells by lia. by rewrite Z.sub_diag, Z.mod_0_l by lia. }
  split; simpl; try lia.
  - unfold occupancy; simpl. rewrite Hn. ring_cases; lia.
  - intros j Hj. rewrite Hn. destruct (decide (j = tail_ q)) as [->|Hjne].
    + rewrite lookup_delete_eq. symmetry. apply lookup_ge_None_2.
      ring_cases; lia.
    + rewrite lookup_delete_ne
        by (intros Heq; apply size_add_inj in Heq; lia).
      rewrite Hcells by lia.
      replace (Z.to_nat ((j - tail_ q) mod capacity_ q))
        with (S (Z.to_nat
                   ((j - (if tail_ q + 1 <? capacity_ q
                          then tail_ q + 1 else 0)) mod capacity_ q)));
        [done|].
      ring_cases; lia.
  - intros i Hi. apply lookup_delete_is_Some in Hi as [_ Hi]. eauto.
Qed.

Lemma omap_lookup_seqZ l :
  omap (fun k => l !! Z.to_nat k) (seqZ 0 (Z.of_nat (length l))) = l.
Proof.
  induction l as [|x l IH] using rev_ind; [done|].
  rewrite length_app, Nat.add_1_r, seqZ_S, omap_app; simpl.
  rewrite Z.add_0_l, Nat2Z.id, list_lookup_middle by done.
  f_equal. etrans; [|exact IH]. apply list_omap_ext.
  apply Forall_Forall2_diag, Forall_forall.
  intros k [? ?]%elem_of_seqZ. apply lookup_app_l. lia.
Qed.

Lemma contents_inv q l : ring_inv q l -> contents q = l.
Proof.
  intros [Hc Hh Ht Hlen Hcells Hdead]. unfold contents.
  rewrite <-Hlen. etrans; [|exact (omap_lookup_seqZ l)].
  apply list_omap_ext, Forall_Forall2_diag, Forall_forall.
  intros k [Hk0 Hk]%elem_of_seqZ. unfold occupancy in Hlen.
  unfold slot_of. rewrite Hcells by (ring_cases; lia).
  f_equal. f_equal. ring_cases; lia.
Qed.
Lemma in_bounds_true (b : Block T) i :
  in_bounds b i = true <-> 0 <= i /\ (i + 1) * sizeof T <= block_bytes b.
Proof. unfold in_bounds. rewrite andb_true_iff, Z.leb_le, Z.leb_le. done. Qed.

Lemma construct_bounds available c q :
  construct T available c = Constructed q -> bounds_inv q.
Proof.
  intros (Hc & _ & ->)%construct_eq. split; simpl; auto.
  - apply to_size_t_range.
  - intros j _ [x Hx]. rewrite lookup_empty in Hx. discriminate.
Qed.

(** Below the end of the block the slot index does not wrap. *)
Lemma slot_no_wrap q i :
  is_size_t (block_bytes (slots_ q)) -> 0 <= i ->
  i = 0 \/ (i + kPadding T) * sizeof T <= block_bytes (slots_ q) ->
  size_add i (kPadding T) = i + kPadding T.
Proof.
  intros [_ Hb] Hi Hor. apply size_add_small.
  pose proof kPadding_range as Hk. pose proof (sizeof_range (T:=T)) as Hs.
  destruct Hor as [->|Hle]; [unfold SIZE_MAX; lia|]. nia.
Qed.

(** A live element sits in the slot [j + kPadding], inside the block. *)
Lemma live_in_bounds q j :
  bounds_inv q -> 0 <= j < capacity_ q ->
  is_Some (block_cells (slots_ q) !! size_add j (kPadding T)) ->
  size_add j (kPadding T) = j + kPadding T
  /\ in_bounds (slots_ q) (size_add j (kPadding T)) = true.
Proof.
  intros [Hb _ Hlive] Hj Hsome. specialize (Hlive j Hj Hsome).
  pose proof kPadding_range as Hk. pose proof (sizeof_range (T:=T)) as Hs.
  assert (Hnw : size_add j (kPadding T) = j + kPadding T).
  { apply (slot_no_wrap q); [done|lia|]. right. nia. }
  split; [done|]. rewrite Hnw. apply in_bounds_true. lia.
Qed.

Lemma inserted_at_bounds q l v :
  ring_inv q l -> bounds_inv q ->
  in_bounds (slots_ q) (size_add (head_ q) (kPadding T)) = true ->
  bounds_inv (inserted_at q v).
Proof.
  intros [Hc Hh Ht _ _ _] [Hb Hbh Hlive] Hin.
  pose proof (slot_no_wrap q (head_ q) Hb (proj1 Hh) Hbh) as Hnw.
  destruct (ring_next (capacity_ q) (head_ q) Hc Hh) as [Hn _].
  apply in_bounds_true in Hin as [_ Hin]. rewrite Hnw in Hin.
  split; simpl; try done.
  - rewrite Hn.
    destruct (Z.ltb_spec (head_ q + 1) (capacity_ q)); [right; lia|by left].
  - intros j Hj [Heq|[_ Hi]]%lookup_insert_is_Some; [|by apply Hlive].
    apply size_add_inj in Heq; [subst j; lia|unfold SIZE_MAX in *; lia..].
Qed.

Lemma removed_at_bounds q l :
  ring_inv q l -> bounds_inv q -> head_ q ≠ tail_ q ->
  size_add (tail_ q) (kPadding T) = tail_ q + kPadding T
  /\ in_bounds (slots_ q) (size_add (tail_ q) (kPadding T)) = true
  /\ bounds_inv (removed_at q).
Proof.
  intros Hinv Hbnd Hne.
  destruct (removed_at_inv q l Hinv Hne) as (v & l' & _ & Hv & _).
  destruct (live_in_bounds q (tail_ q) Hbnd (inv_tail _ _ Hinv)) as [Hnw Hin];
    [by eexists|].
  destruct Hbnd as [Hb Hbh Hlive].
  split; [done|]. split; [done|]. split; simpl; try done.
  intros j Hj [_ Hi]%lookup_delete_is_Some. by apply Hlive.
Qed.

(** In a block of the intended size every slot of the ring is in bounds. *)
Lemma spacious_in_bounds q i :
  spacious q -> 0 <= i < capacity_ q ->
  in_bounds (slots_ q) (size_add i (kPadding T)) = true
  /\ size_add i (kPadding T) = i + kPadding T.
Proof.
  intros [Hsp Hb] Hi.
  pose proof kPadding_range as Hk. pose proof (sizeof_range (T:=T)) as Hs.
  assert (Hnw : size_add i (kPadding T) = i + kPadding T).
  { apply size_add_small. nia. }
  split; [|done]. rewrite Hnw. apply in_bounds_true. nia.
Qed.

Lemma construct_spacious available c q :
  is_size_t c -> sizeof T * (c + 2 * kPadding T) <= SIZE_MAX ->
  construct T available c = Constructed q -> spacious q.
Proof.
  intros [Hc0 _] Hfit (Hc & _ & ->)%construct_eq. unfold spacious; simpl.
  pose proof kPadding_range as Hk. pose proof (sizeof_range (T:=T)) as Hs.
  unfold malloc_size, size_mul.
  rewrite (to_size_t_small (2 * kPadding T)) by (unfold SIZE_MAX; lia).
  rewrite size_add_small by nia.
  rewrite to_size_t_small by nia. lia.
Qed.
End Invariant.

(** ** Calls *)

Section Calls.
Context {T : Type} `{Sized T}.
Implicit Types (q : SPSCQueue T) (v : T) (l : list T).

(** A call that returns is an insertion into a queue that is not full, a
    removal from a queue that is not empty, or changes nothing. *)
Lemma invoke_Ret fuel c q a q' log :
  invoke fuel c q = Ret a q' log ->
  (exists v, size_add (head_ q) 1 mod capacity_ q ≠ tail_ q
     /\ in_bounds (slots_ q) (size_add (head_ q) (kPadding T)) = true
     /\ q' = inserted_at q v
     /\ log = [Construct (size_add (head_ q) (kPadding T)) v]
     /\ forall p, a ≠ AnsPtr p)
  \/ (head_ q ≠ tail_ q
     /\ in_bounds (slots_ q) (size_add (tail_ q) (kPadding T)) = true
     /\ q' = removed_at q
     /\ log = [Destroy (size_add (tail_ q) (kPadding T))
                 (block_cells (slots_ q) !! size_add (tail_ q) (kPadding T))]
     /\ forall p, a ≠ AnsPtr p)
  \/ (q' = q /\ log = []
     /\ forall p, a = AnsPtr p ->
          p = if head_ q =? tail_ q then None
              else Some (size_add (tail_ q) (kPadding T))).
Proof.
  destruct c; simpl; unfold push, try_push, mbind, op_mbind, op_bind;
    rewrite ?emplace_eq, ?try_emplace_eq, ?front_eq, ?pop_eq, ?size_eq,
      ?empty_eq, ?capacity_eq;
    repeat match goal with
      | |- context [?x =? ?y] => destruct (Z.eqb_spec x y)
      | |- context [match ?f with O => _ | S _ => _ end] => destruct f
      | |- context [in_bounds ?b ?i] => destruct (in_bounds b i) eqn:?
      end;
    simpl; intros Hret; try discriminate; injection Hret as <- <- <-;
    try (left; eexists; by repeat split);
    try (right; left; by repeat split);
    right; right; repeat split; congruence.
Qed.

(** What one call lets a client observe, in terms of the logical content. *)
Lemma invoke_observe fuel c q l a q' log :
  ring_inv q l -> invoke fuel c q = Ret a q' log ->
  exists l', ring_inv q' l' /\
    ((exists i v, observe a q' log = [ObsEvent (Construct i v)]
        /\ l' = l ++ [v])
     \/ (exists i v, observe a q' log = [ObsEvent (Destroy i (Some v))]
        /\ l = v :: l')
     \/ (observe a q' log = [] /\ l' = l)
     \/ (observe a q' log = [ObsFront (head l)] /\ l' = l)).
Proof.
  intros Hinv [(v & Hnf & _ & -> & -> & Ha)|[(Hne & _ & -> & -> & Ha)
              |(-> & -> & Ha)]]%invoke_Ret.
  - exists (l ++ [v]). split; [by apply inserted_at_inv|].
    left. eexists _, v. split; [|done].
    unfold observe; simpl. destruct a; try done. by destruct (Ha p).
  - destruct (removed_at_inv q l Hinv Hne) as (v & l' & -> & -> & Hinv').
    exists l'. split; [done|]. right; left. eexists _, v. split; [|done].
    unfold observe; simpl. destruct a; try done. by destruct (Ha p).
  - exists l. split; [done|]. right; right.
    destruct a as [| |p|]; try (left; done). right. split; [|done].
    unfold observe; simpl. do 2 f_equal. rewrite (Ha p eq_refl).
    pose proof (inv_empty q l Hinv) as Hemp.
    destruct (Z.eqb_spec (head_ q) (tail_ q)) as [Heq|Hne]; simpl.
    + apply Hemp in Heq as ->. done.
    + destruct (removed_at_inv q l Hinv Hne) as (v & l' & -> & -> & _).
      done.
Qed.

Lemma invoke_bounds fuel c q l a q' log :
  ring_inv q l -> bounds_inv q -> invoke fuel c q = Ret a q' log ->
  bounds_inv q'.
Proof.
  intros Hinv Hbnd [(v & Hnf & Hin & -> & _)|[(Hne & _ & -> & _)
                   |(-> & _)]]%invoke_Ret.
  - by eapply inserted_at_bounds.
  - by eapply removed_at_bounds.
  - done.
Qed.

Lemma invoke_spacious fuel c q a q' log :
  spacious q -> invoke fuel c q = Ret a q' log -> spacious q'.
Proof.
  by intros Hsp [(v & _ & _ & -> & _)|[(_ & _ & -> & _)|(-> & _)]]%invoke_Ret.
Qed.

Lemma reachable_inv q :
  reachable q -> exists l, ring_inv q l /\ bounds_inv q.
Proof.
  induction 1 as [available c q Hc Hq|q fuel c a q' log _ (l & IH & Hb) Hstep].
  - exists []. split; [by eapply construct_inv|by eapply construct_bounds].
  - destruct (invoke_observe _ _ _ _ _ _ _ IH Hstep) as (l' & ? & _).
    exists l'. split; [done|]. exact (invoke_bounds _ _ _ _ _ _ _ IH Hb Hstep).
Qed.
End Calls.

(** ** Sequences of calls *)

Section Runs.
Context {T : Type} `{Sized T}.
Implicit Types (q : SPSCQueue T) (v : T) (l : list T).

Lemma inserted_app (o1 o2 : list (observation T)) :
  inserted (o1 ++ o2) = inserted o1 ++ inserted o2.
Proof. apply omap_app. Qed.

Lemma removed_app (o1 o2 : list (observation T)) :
  removed (o1 ++ o2) = removed o1 ++ removed o2.
Proof. apply omap_app. Qed.

Lemma run_fifo fuel cs : forall q l obs q',
  ring_inv q l -> run fuel cs q = Some (obs, q') ->
  exists l', ring_inv q' l'
    /\ l ++ inserted obs = removed obs ++ l'
    /\ (forall obs1 o obs2, obs = obs1 ++ ObsFront o :: obs2 ->
          o = (l ++ inserted obs1) !! length (removed obs1))
    /\ (forall i, ObsEvent (Destroy i None) ∉ obs).
Proof.
  induction cs as [|c cs IH]; intros q l obs q' Hinv Hrun; simpl in Hrun.
  { injection Hrun as <- <-. exists l.
    split_and!; [done|by rewrite !app_nil_r| |].
    - intros [|??] ???; discriminate.
    - intros i Hin. by apply elem_of_nil in Hin. }
  destruct (invoke fuel c q) as [a q1 log| | |] eqn:Hstep; try discriminate.
  destruct (run fuel cs q1) as [[rest q2]|] eqn:Hrest; try discriminate.
  injection Hrun as <- <-.
  destruct (invoke_observe _ _ _ _ _ _ _ Hinv Hstep) as (l1 & Hinv1 & Hobs).
  destruct (IH _ _ _ _ Hinv1 Hrest) as (l' & Hinv' & Hio & Hfront & Hlive).
  exists l'. split; [done|].
  destruct Hobs as [(i & v & -> & ->)|[(i & v & -> & ->)|[[-> ->]|[-> ->]]]];
    simpl.
  - split_and!.
    + rewrite <-Hio, <-app_assoc. done.
    + intros [|o1 obs1] o obs2 Heq; [discriminate|].
      injection Heq as <- ->. simpl.
      rewrite (Hfront _ _ _ eq_refl), <-app_assoc. done.
    + intros j [?|?]%elem_of_cons; [discriminate|]. by eapply Hlive.
  - split_and!.
    + simpl. by rewrite <-Hio.
    + intros [|o1 obs1] o obs2 Heq; [discriminate|].
      injection Heq as <- ->. simpl. by rewrite (Hfront _ _ _ eq_refl).
    + intros j [?|?]%elem_of_cons; [discriminate|]. by eapply Hlive.
  - done.
  - split_and!.
    + done.
    + intros [|o1 obs1] o obs2 Heq.
      * injection Heq as <- _. simpl. rewrite app_nil_r. apply head_lookup.
      * injection Heq as <- ->. simpl. by rewrite (Hfront _ _ _ eq_refl).
    + intros j [?|?]%elem_of_cons; [discriminate|]. by eapply Hlive.
Qed.

Lemma run_returns fuel cs : forall q l,
  (0 < fuel)%nat -> ring_inv q l -> spacious q ->
  admissible (capacity_ q) (Z.of_nat (length l)) cs = true ->
  is_Some (run fuel cs q).
Proof.
  destruct fuel as [|fuel]; [lia|]. intros q l _.
  revert q l. induction cs as [|c cs IH]; intros q l Hinv Hsp Hadm;
    [by eexists|].
  pose proof (inv_capacity _ _ Hinv) as Hc.
  pose proof (inv_head _ _ Hinv) as Hh.
  pose proof (inv_tail _ _ Hinv) as Ht.
  pose proof (inv_length _ _ Hinv) as Hlen. unfold occupancy in Hlen.
  destruct (spacious_in_bounds q (head_ q) Hsp Hh) as [Hinh _].
  destruct (spacious_in_bounds q (tail_ q) Hsp Ht) as [Hint _].
  assert (Hroom : if decide (size_add (head_ q) 1 mod capacity_ q = tail_ q)
                  then Z.of_nat (length l) = capacity_ q - 1
                  else Z.of_nat (length l) + 1 < capacity_ q).
  { case_decide; [by apply inv_full|by apply inv_not_full]. }
  assert (Hins : forall v, size_add (head_ q) 1 mod capacity_ q ≠ tail_ q ->
            admissible (capacity_ q) (Z.of_nat (length l) + 1) cs = true ->
            is_Some (run (S fuel) cs (inserted_at q v))).
  { intros v Hnf Hadm'. apply (IH _ (l ++ [v])).
    - by apply inserted_at_inv.
    - done.
    - rewrite length_app, Nat2Z.inj_add. exact Hadm'. }
  assert (Hrem : head_ q ≠ tail_ q -> 0 < Z.of_nat (length l) ->
            admissible (capacity_ q) (Z.of_nat (length l) - 1) cs = true ->
            is_Some (run (S fuel) cs (removed_at q))).
  { intros Hne _ Hadm'.
    destruct (removed_at_inv q l Hinv Hne) as (v & l' & -> & Hv & Hinv').
    apply (IH _ l' Hinv'); [done|].
    replace (Z.of_nat (length l')) with (Z.of_nat (length (v :: l')) - 1)
      by (simpl; lia). done. }
  assert (Hemp : head_ q = tail_ q -> Z.of_nat (length l) = 0).
  { intros Heq%(inv_empty q l Hinv). by subst l. }
  destruct c; simpl in Hadm |- *;
    unfold push, try_push, mbind, op_mbind, op_bind;
    rewrite ?emplace_eq, ?try_emplace_eq, ?front_eq, ?pop_eq, ?size_eq,
      ?empty_eq, ?capacity_eq, ?Hinh, ?Hint;
    repeat match goal with
      | H : _ && _ = true |- _ => apply andb_true_iff in H as [? ?]
      | H : (_ <? _) = true |- _ => apply Z.ltb_lt in H
      | H : context [?x <? ?y] |- _ => destruct (Z.ltb_spec x y)
      | |- context [?x =? ?y] => destruct (Z.eqb_spec x y)
      end;
    simpl; try case_decide; try (exfalso; (done || lia));
    match goal with
    | |- is_Some (match run ?f ?cs ?q1 with _ => _ end) =>
        cut (is_Some (run f cs q1));
          [intros [[? ?] ->]; by eexists|]
    end;
    first [apply Hins; [done|done]
          |apply Hrem; [done|lia|done]
          |by apply (IH _ l Hinv)].
Qed.
End Runs.

(** ** Draining *)

Section Drain.
Context {T : Type} `{Sized T}.
Implicit Types (q : SPSCQueue T) (v : T) (l : list T).

Lemma drain_eq fuel q :
  drain (S fuel) q =
    if head_ q =? tail_ q then Ret tt q [] else (pop;; drain fuel) q.
Proof.
  simpl. unfold mbind at 1, op_mbind at 1, op_bind at 1. rewrite front_eq.
  destruct (_ =? _); [reflexivity|].
  destruct ((pop;; drain fuel) q); reflexivity.
Qed.

Lemma inv_nil_cells q : ring_inv q [] -> block_cells (slots_ q) = ∅.
Proof.
  intros [_ _ _ _ Hcells Hdead]. apply map_empty. intros i.
  destruct (block_cells (slots_ q) !! i) as [x|] eqn:Hi; [|done].
  destruct (Hdead i) as (j & Hj & ->); [by eexists|].
  rewrite Hcells in Hi by done. by rewrite lookup_nil in Hi.
Qed.

Lemma slot_of_removed_at q l k :
  ring_inv q l -> slot_of (removed_at q) k = slot_of q (k + 1).
Proof.
  intros [Hc _ Ht _ _ _]. unfold slot_of, removed_at; simpl.
  destruct (ring_next (capacity_ q) (tail_ q) Hc Ht) as [-> _]. f_equal.
  destruct (Z.ltb_spec (tail_ q + 1) (capacity_ q)).
  - f_equal. lia.
  - replace (tail_ q + (k + 1)) with (0 + k + 1 * capacity_ q) by lia.
    by rewrite Z.mod_add by lia.
Qed.

Lemma slot_of_0 q l :
  ring_inv q l -> slot_of q 0 = size_add (tail_ q) (kPadding T).
Proof.
  intros [Hc _ Ht _ _ _]. unfold slot_of.
  by rewrite Z.add_0_r, Z.mod_small by lia.
Qed.

(** The loop of the destructor: it terminates within one iteration more
    than there are elements, destroys them oldest first, leaves the queue
    empty, and does what that many calls of [pop] do. *)
Lemma drain_inv l : forall q fuel fuel',
  ring_inv q l -> bounds_inv q -> (length l < fuel)%nat ->
  exists q',
    drain fuel q
    = Ret tt q' (imap (fun k v => Destroy (slot_of q (Z.of_nat k)) (Some v)) l)
    /\ run fuel' (replicate (length l) CallPop) q
       = Some (ObsEvent <$>
                 imap (fun k v => Destroy (slot_of q (Z.of_nat k)) (Some v)) l,
               q')
    /\ ring_inv q' [] /\ bounds_inv q'
    /\ capacity_ q' = capacity_ q
    /\ (l = [] -> q' = q).
Proof.
  induction l as [|v l IH]; intros q fuel fuel' Hinv Hbnd Hfuel;
    (destruct fuel as [|fuel]; [simpl in Hfuel; lia|]); rewrite drain_eq.
  - rewrite (proj2 (Z.eqb_eq _ _)) by by apply (inv_empty q []).
    exists q. by split_and!.
  - assert (Hne : head_ q ≠ tail_ q)
      by (intros Heq%(inv_empty q _ Hinv); discriminate).
    rewrite (proj2 (Z.eqb_neq _ _) Hne).
    destruct (removed_at_inv q _ Hinv Hne)
      as (v' & l' & [= <- <-] & Hv & Hinv').
    destruct (removed_at_bounds q _ Hinv Hbnd Hne) as (_ & Hin & Hbnd').
    destruct (IH (removed_at q) fuel fuel' Hinv' Hbnd')
      as (q' & Hdrain & Hrun & Hq' & Hbq' & Hcap & _); [simpl in Hfuel; lia|].
    assert (Hlog : imap (fun k v0 =>
                     Destroy (slot_of q (Z.of_nat k)) (Some v0)) (v :: l)
                   = Destroy (size_add (tail_ q) (kPadding T)) (Some v)
                     :: imap (fun k v0 =>
                          Destroy (slot_of (removed_at q) (Z.of_nat k))
                            (Some v0)) l).
    { rewrite imap_cons. cbv beta. change (Z.of_nat 0) with 0.
      rewrite (slot_of_0 q _ Hinv). f_equal.
      apply imap_ext. intros k x _. unfold compose.
      rewrite (slot_of_removed_at q _ _ Hinv). do 2 f_equal. lia. }
    exists q'. rewrite Hlog. split_and!; try done.
    + unfold mbind, op_mbind, op_bind.
      rewrite pop_eq, (proj2 (Z.eqb_neq _ _) Hne), Hin, Hv, Hdrain.
      reflexivity.
    + simpl. unfold mbind, op_mbind, op_bind.
      rewrite pop_eq, (proj2 (Z.eqb_neq _ _) Hne), Hin, Hv. simpl.
      rewrite Hrun. reflexivity.
Qed.

Lemma removed_imap_Destroy (f : nat -> Z) l :
  removed (ObsEvent <$> imap (fun k v => Destroy (f k) (Some v)) l) = l.
Proof.
  revert f. induction l as [|v l IH]; intros f; [done|].
  rewrite imap_cons, fmap_cons. unfold removed in *. simpl. f_equal.
  apply (IH (f ∘ S)).
Qed.

Lemma drain_touched fuel : forall q l q' log,
  ring_inv q l -> bounds_inv q -> drain fuel q = Ret tt q' log ->
  Forall (ring_slot q) (touched log).
Proof.
  induction fuel as [|fuel IH]; intros q l q' log Hinv Hbnd; [done|].
  rewrite drain_eq. destruct (Z.eqb_spec (head_ q) (tail_ q)) as [Heq|Hne].
  { intros [= <- <-]. constructor. }
  destruct (removed_at_inv q _ Hinv Hne) as (v & l' & -> & Hv & Hinv').
  destruct (removed_at_bounds q _ Hinv Hbnd Hne) as (Hnw & Hin & Hbnd').
  unfold mbind, op_mbind, op_bind. rewrite pop_eq.
  rewrite (proj2 (Z.eqb_neq _ _) Hne), Hin.
  destruct (drain fuel (removed_at q)) as [[] q2 log2| | |] eqn:Hrest;
    try discriminate.
  intros [= <- <-]. simpl. constructor.
  - rewrite Hnw. pose proof (inv_tail _ _ Hinv). unfold ring_slot. lia.
  - exact (IH _ _ _ _ Hinv' Hbnd' Hrest).
Qed.
End Drain.

(** ** Rotating an empty queue *)

Section Rotation.
Context {T : Type} `{Sized T}.
Implicit Types (q : SPSCQueue T) (v : T).

Lemma invoke_try_emplace_ok fuel q v :
  size_add (head_ q) 1 mod capacity_ q ≠ tail_ q ->
  in_bounds (slots_ q) (size_add (head_ q) (kPadding T)) = true ->
  invoke fuel (CallTryEmplace v) q
  = Ret (AnsBool true) (inserted_at q v)
      [Construct (size_add (head_ q) (kPadding T)) v].
Proof.
  intros Hnf Hin. simpl. unfold mbind, op_mbind, op_bind.
  rewrite try_emplace_eq, (proj2 (Z.eqb_neq _ _) Hnf), Hin. reflexivity.
Qed.

Lemma invoke_pop_ok fuel q :
  head_ q ≠ tail_ q ->
  in_bounds (slots_ q) (size_add (tail_ q) (kPadding T)) = true ->
  invoke fuel CallPop q
  = Ret AnsVoid (removed_at q)
      [Destroy (size_add (tail_ q) (kPadding T))
         (block_cells (slots_ q) !! size_add (tail_ q) (kPadding T))].
Proof.
  intros Hne Hin. simpl. unfold mbind, op_mbind, op_bind.
  rewrite pop_eq, (proj2 (Z.eqb_neq _ _) Hne), Hin. reflexivity.
Qed.

(** One insertion followed by one removal moves both indices of an empty
    queue one slot further; repeated, it brings them to any slot whose
    predecessors are inside the block. *)
Lemma reachable_rotation v c bytes n :
  reachable (mkSPSCQueue c (mkBlock bytes (∅ : gmap Z T)) 0 0) ->
  0 <= n < c -> (n + kPadding T) * sizeof T <= bytes <= SIZE_MAX ->
  reachable (mkSPSCQueue c (mkBlock bytes (∅ : gmap Z T)) n n).
Proof.
  intros Hreach [Hn0 Hn]. revert Hn. pattern n.
  apply natlike_ind; [by intros| |exact Hn0]. clear n Hn0.
  intros n Hn0 IH Hn Hfit.
  pose proof (kPadding_range (T:=T)) as Hk.
  pose proof (sizeof_range (T:=T)) as Hs.
  destruct (reachable_inv _ Hreach) as (l & [Hc _ _ _ _ _] & _).
  simpl in Hc.
  assert (Hq : reachable (mkSPSCQueue c (mkBlock bytes (∅ : gmap Z T)) n n))
    by (apply IH; [lia|nia]).
  destruct (ring_next c n Hc ltac:(lia)) as [Hnext _].
  rewrite (proj2 (Z.ltb_lt (n + 1) c)) in Hnext by lia.
  assert (Hslot : size_add n (kPadding T) = n + kPadding T)
    by (apply size_add_small; nia).
  assert (Hin : in_bounds (mkBlock bytes (∅ : gmap Z T))
                  (size_add n (kPadding T)) = true).
  { rewrite Hslot. apply in_bounds_true. simpl. split; [lia|nia]. }
  eapply reachable_invoke in Hq;
    [|apply (invoke_try_emplace_ok 1 _ v); simpl;
      [rewrite Hnext; lia|exact Hin]].
  eapply reachable_invoke in Hq;
    [|apply (invoke_pop_ok 1); simpl; [rewrite Hnext; lia|exact Hin]].
  unfold removed_at, inserted_at in Hq; simpl in Hq.
  rewrite Hnext, delete_insert_eq, delete_empty in Hq. exact Hq.
Qed.
End Rotation.

(** ** The FIFO law under one more observation *)

Section Fifo.
Context {T : Type}.
Implicit Types (obs : list (observation T)) (l : list T) (v : T).

Lemma snoc_split obs (e x : observation T) obs1 obs2 :
  obs ++ [e] = obs1 ++ x :: obs2 ->
  (obs2 = [] /\ obs1 = obs /\ x = e)
  \/ exists obs2', obs2 = obs2' ++ [e] /\ obs = obs1 ++ x :: obs2'.
Proof.
  destruct obs2 as [|y obs2 _] using rev_ind.
  - intros [-> ->]%app_inj_tail. by left.
  - rewrite app_comm_cons, app_assoc. intros [-> ->]%app_inj_tail.
    right. by eexists.
Qed.

Lemma fifo_nil : fifo (T:=T) [] [].
Proof.
  split_and!; [done| |].
  - intros [|??] ???; discriminate.
  - intros i Hin. by apply elem_of_nil in Hin.
Qed.

Lemma fifo_construct obs l i v :
  fifo obs l -> fifo (obs ++ [ObsEvent (Construct i v)]) (l ++ [v]).
Proof.
  intros (Hio & Hfront & Hlive). split_and!.
  - rewrite inserted_app, removed_app, Hio. simpl.
    by rewrite app_nil_r, <-app_assoc.
  - intros obs1 w obs2 [(_ & _ & [=])|(obs2' & -> & ->)]%snoc_split.
    by eapply Hfront.
  - intros j [Hin|[=]%list_elem_of_singleton]%elem_of_app. by eapply Hlive.
Qed.

Lemma fifo_destroy obs l i v :
  fifo obs (v :: l) -> fifo (obs ++ [ObsEvent (Destroy i (Some v))]) l.
Proof.
  intros (Hio & Hfront & Hlive). split_and!.
  - rewrite inserted_app, removed_app, Hio. simpl.
    by rewrite app_nil_r, <-app_assoc.
  - intros obs1 w obs2 [(_ & _ & [=])|(obs2' & -> & ->)]%snoc_split.
    by eapply Hfront.
  - intros j [Hin|[=]%list_elem_of_singleton]%elem_of_app. by eapply Hlive.
Qed.

Lemma fifo_front obs l o :
  fifo obs l -> (forall v, o = Some v -> head l = Some v) ->
  fifo (obs ++ [ObsFront o]) l.
Proof.
  intros (Hio & Hfront & Hlive) Ho. split_and!.
  - rewrite inserted_app, removed_app, Hio. simpl. by rewrite !app_nil_r.
  - intros obs1 w obs2 [(_ & -> & [= <-])|(obs2' & -> & ->)]%snoc_split.
    + rewrite Hio, lookup_app_r, Nat.sub_diag, <-head_lookup by lia.
      by apply Ho.
    + by eapply Hfront.
  - intros j [Hin|[=]%list_elem_of_singleton]%elem_of_app. by eapply Hlive.
Qed.
End Fifo.

(** ** The invariant of the two threads *)

Section ThreadsInv.
Context {T : Type} `{Sized T}.
Implicit Types (q : SPSCQueue T) (v : T) (l : list T) (cfg : config T).

Lemma start_inv available c q inserts removes :
  is_size_t c -> construct T available c = Constructed q ->
  threads_inv (start q inserts removes) [].
Proof.
  intros Hc Hq. pose proof (construct_inv _ _ _ Hc Hq) as Hinv.
  split; try done.
  - by destruct q.
  - apply Hinv.
  - apply Hinv.
  - apply fifo_nil.
Qed.

(** In range, two next indices coincide only for coinciding indices. *)
Lemma ring_next_inj c i j :
  2 <= c <= SIZE_MAX -> 0 <= i < c -> 0 <= j < c ->
  size_add i 1 mod c = size_add j 1 mod c -> i = j.
Proof.
  intros Hc Hi Hj.
  destruct (ring_next c i Hc Hi) as [-> _].
  destruct (ring_next c j Hc Hj) as [-> _].
  ring_cases; lia.
Qed.

Lemma producer_step_inv cfg l cfg' :
  threads_inv cfg l -> thread_step Producer cfg = Some cfg' ->
  exists l', threads_inv cfg' l'.
Proof.
  destruct cfg as [q ppc ins cpc rems tr].
  intros [Hring Hh Ht Hp Hc Hfifo]. unfold thread_step; simpl.
  unfold producer_ok, consumer_ok in *; simpl in *.
  pose proof (inv_capacity _ _ Hring) as Hcap. simpl in Hcap.
  destruct ppc as [|c head nextHead|c head nextHead|c head nextHead].
  - (* the call starts: load of head_ *)
    destruct ins as [|c ins]; intros [= <-]; exists l;
      (split; simpl; [done..|by rewrite app_nil_r]).
  - (* load of tail_ *)
    destruct Hp as [-> ->].
    unfold producer_step, mbind, op_mbind, op_bind; simpl.
    destruct (Z.eqb_spec (size_add (head_ q) 1 mod capacity_ q) (tail_ q));
      [destruct c|]; intros [= <-]; exists l;
      (split; simpl; [done..|by rewrite app_nil_r]).
  - (* placement-new *)
    destruct Hp as (-> & -> & Hroom).
    unfold producer_step, placement_new, mbind, op_mbind, op_bind; simpl.
    destruct (in_bounds (slots_ q) _) eqn:Hin; [|discriminate]. simpl.
    intros [= <-]. exists (l ++ [call_value c]).
    assert (Hnf : size_add (head_ q) 1 mod capacity_ q
                  ≠ tail_ (settled
                             (mkConfig q
                                (PRoomFound c (head_ q)
                                   (size_add (head_ q) 1 mod capacity_ q))
                                ins cpc rems tr))).
    { simpl. destruct cpc as [| | | | |t]; try done.
      destruct Hc as [-> Hne]. intros Heq. apply Hne.
      by eapply ring_next_inj. }
    pose proof (inserted_at_inv _ _ (call_value c) Hring Hnf) as Hring'.
    split; simpl; [exact Hring'|done..| |by apply fifo_construct].
    destruct cpc; done.
  - (* store of head_ *)
    destruct Hp as (-> & -> & Hroom).
    unfold producer_step, mbind, op_mbind, op_bind; simpl.
    intros [= <-]. exists l.
    destruct (ring_next (capacity_ q) (head_ q) Hcap Hh) as [_ Hnr].
    split; simpl; [done..| |by rewrite app_nil_r].
    destruct cpc as [|t|p|t|t|t]; simpl; try done.
    + destruct Hc as [?|[? ?]]; [by left|by right].
    + by destruct Hc.
    + by destruct Hc.
Qed.

(** While the consumer is not about to store [tail_], a published element
    makes the settled queue non-empty. *)
Lemma settled_nonempty cfg :
  producer_ok cfg ->
  match cfg_consumer cfg with CPopDestroyed _ => False | _ => True end ->
  head_ (cfg_queue cfg) ≠ tail_ (cfg_queue cfg) ->
  head_ (settled cfg) ≠ tail_ (settled cfg).
Proof.
  destruct cfg as [q ppc ins cpc rems tr]. unfold producer_ok; simpl.
  intros Hp Hcpc Hne.
  destruct cpc; try done; destruct ppc; try done;
    by destruct Hp as (_ & -> & ?).
Qed.

Lemma consumer_step_inv cfg l cfg' :
  threads_inv cfg l -> thread_step Consumer cfg = Some cfg' ->
  exists l', threads_inv cfg' l'.
Proof.
  destruct cfg as [q ppc ins cpc rems tr].
  intros [Hring Hh Ht Hp Hc Hfifo]. unfold thread_step; simpl.
  unfold producer_ok, consumer_ok in *; simpl in *.
  pose proof (inv_capacity _ _ Hring) as Hcap. simpl in Hcap.
  destruct cpc as [|tail|p|tail|tail|tail].
  - (* the call starts: load of tail_ *)
    destruct rems as [|[] rems]; intros [= <-]; exists l;
      (split; simpl; [done..|by rewrite !app_nil_r]).
  - (* front: load of head_ *)
    subst tail. unfold consumer_step, mbind, op_mbind, op_bind; simpl.
    intros [= <-]. exists l.
    split; simpl; [done..| |by rewrite !app_nil_r].
    destruct (Z.eqb_spec (head_ q) (tail_ q)); [by left|by right].
  - (* front: read through the pointer *)
    intros [= <-]. exists l. split; simpl; [done..|].
    apply fifo_front; [done|]. intros v Hv.
    destruct Hc as [->|[-> Hne]]; [done|]. simpl in Hv.
    pose proof (settled_nonempty
                  (mkConfig q ppc ins
                     (CFrontReturned (Some (size_add (tail_ q) (kPadding T))))
                     rems tr) Hp I Hne) as Hlive.
    destruct (removed_at_inv _ _ Hring Hlive) as (w & l' & -> & Hw & _).
    simpl in Hw. rewrite Hw in Hv. by injection Hv as ->.
  - (* pop: load of head_ and assertion *)
    subst tail. unfold consumer_step, c_assert, mbind, op_mbind, op_bind; simpl.
    destruct (Z.eqb_spec (head_ q) (tail_ q)); [discriminate|]. simpl.
    intros [= <-]. exists l. split; simpl; [done..|by rewrite !app_nil_r].
  - (* pop: destructor call *)
    destruct Hc as [-> Hne].
    pose proof (settled_nonempty
                  (mkConfig q ppc ins (CPopAsserted (tail_ q)) rems tr)
                  Hp I Hne) as Hlive.
    unfold consumer_step, destroy_at, mbind, op_mbind, op_bind; simpl.
    destruct (in_bounds (slots_ q) _) eqn:Hin; [|discriminate]. simpl.
    intros [= <-].
    destruct (removed_at_inv _ _ Hring Hlive) as (w & l' & -> & Hw & Hring').
    simpl in Hw. rewrite Hw. exists l'.
    split; simpl; [exact Hring'|done..| |by apply fifo_destroy].
    destruct ppc; done.
  - (* pop: store of tail_ *)
    destruct Hc as [-> Hne].
    unfold consumer_step, mbind, op_mbind, op_bind; simpl.
    intros [= <-]. exists l.
    destruct (ring_next (capacity_ q) (tail_ q) Hcap Ht) as [_ Hnr].
    split; simpl; [done..| |done|by rewrite !app_nil_r].
    destruct ppc; try done; destruct Hp as (? & ? & Hroom);
      (split_and!; [done..|]); subst; intros Heq; apply Hne;
      by eapply ring_next_inj.
Qed.

Lemma interleave_inv sched : forall cfg l cfg',
  threads_inv cfg l -> interleave sched cfg = Some cfg' ->
  exists l', threads_inv cfg' l'.
Proof.
  induction sched as [|t sched IH]; intros cfg l cfg' Hinv; simpl.
  - intros [= <-]. eauto.
  - destruct (thread_step t cfg) as [cfg1|] eqn:Hstep; [|discriminate].
    intros Hrest.
    assert (exists l1, threads_inv cfg1 l1) as [l1 Hinv1].
    { destruct t; [by eapply producer_step_inv|by eapply consumer_step_inv]. }
    by eapply IH.
Qed.
End ThreadsInv.

(** ** No thread gets stuck *)

Section Progress.
Context {T : Type} `{Sized T}.
Implicit Types (q : SPSCQueue T) (v : T) (l : list T) (cfg : config T).

Lemma thread_step_spacious t cfg cfg' :
  spacious (cfg_queue cfg) -> thread_step t cfg = Some cfg' ->
  spacious (cfg_queue cfg').
Proof.
  destruct cfg as [q ppc ins cpc rems tr]. unfold spacious; simpl.
  intros Hsp. destruct t; unfold thread_step; simpl.
  - destruct ppc as [|c h n|c h n|c h n]; [destruct ins| | |];
      unfold producer_step, placement_new, mbind, op_mbind, op_bind; simpl;
      repeat match goal with
        | |- context [if ?b then _ else _] => destruct b
        | |- context [match ?c with PEmplace _ => _ | _ => _ end] => destruct c
        end; simpl; intros [= <-]; done.
  - destruct cpc as [|t|p|t|t|t]; [destruct rems as [|[] ?]| | | | |];
      unfold consumer_step, destroy_at, c_assert, mbind, op_mbind, op_bind;
      simpl;
      repeat match goal with
        | |- context [if ?b then _ else _] => destruct b
        end; simpl; intros [= <-]; done.
Qed.

Lemma interleave_spacious sched : forall cfg cfg',
  spacious (cfg_queue cfg) -> interleave sched cfg = Some cfg' ->
  spacious (cfg_queue cfg').
Proof.
  induction sched as [|t sched IH]; intros cfg cfg' Hsp; simpl.
  - by intros [= <-].
  - destruct (thread_step t cfg) as [cfg1|] eqn:Hstep; [|discriminate].
    apply IH. by eapply thread_step_spacious.
Qed.

(** In a block of the intended size the next access of the producer is
    always defined. *)
Lemma producer_progress cfg l :
  threads_inv cfg l -> spacious (cfg_queue cfg) ->
  is_Some (thread_step Producer cfg).
Proof.
  destruct cfg as [q ppc ins cpc rems tr].
  intros [_ Hh _ Hp _ _] Hsp. unfold producer_ok in Hp. simpl in *.
  unfold thread_step; simpl.
  destruct ppc as [|c h n|c h n|c h n]; [destruct ins| | |];
    unfold producer_step, placement_new, mbind, op_mbind, op_bind; simpl;
    try by eexists.
  - destruct (n =? tail_ q); [destruct c|]; by eexists.
  - destruct Hp as (-> & _).
    destruct (spacious_in_bounds q (head_ q) Hsp Hh) as [-> _]. by eexists.
Qed.

(** So is the next access of the consumer, unless it is the assertion of
    [pop] on an empty queue. *)
Lemma consumer_progress cfg l :
  threads_inv cfg l -> spacious (cfg_queue cfg) ->
  (forall tail, cfg_consumer cfg = CPopTailLoaded tail ->
     head_ (cfg_queue cfg) ≠ tail_ (cfg_queue cfg)) ->
  is_Some (thread_step Consumer cfg).
Proof.
  destruct cfg as [q ppc ins cpc rems tr].
  intros [_ _ Ht _ Hc _] Hsp Hpop. unfold consumer_ok in Hc. simpl in *.
  unfold thread_step; simpl.
  destruct cpc as [|t|p|t|t|t]; [destruct rems as [|[] ?]| | | | |];
    unfold consumer_step, destroy_at, c_assert, mbind, op_mbind, op_bind;
    simpl; try by eexists.
  - subst t.
    specialize (Hpop _ eq_refl).
    rewrite (proj2 (Z.eqb_neq _ _) Hpop). by eexists.
  - destruct Hc as [-> _].
    destruct (spacious_in_bounds q (tail_ q) Hsp Ht) as [-> _]. by eexists.
Qed.
End Progress.

(** Under any schedule the shared indices stay in range. *)
Lemma interleave_indices {T : Type} `{Sized T} available c q0 sched inserts
    removes (cfg : config T) :
  is_size_t c -> construct T available c = Constructed q0 ->
  interleave sched (start q0 inserts removes) = Some cfg ->
  0 <= head_ (cfg_queue cfg) < capacity_ (cfg_queue cfg)
  /\ 0 <= tail_ (cfg_queue cfg) < capacity_ (cfg_queue cfg).
Proof.
  intros Hc Hq Hrun.
  destruct (interleave_inv sched _ _ _ (start_inv _ _ _ inserts removes Hc Hq)
              Hrun) as (l & Hl).
  split; apply Hl.
Qed.

(** ** A thread running alone performs the member function *)

Section Alone.
Context {T : Type} `{Sized T}.
Implicit Types (q : SPSCQueue T) (v : T).

Ltac step_through :=
  simpl; unfold thread_step, producer_step, consumer_step, placement_new,
    destroy_at, c_assert, mbind, op_mbind, op_bind; simpl.

(** [try_emplace] is the four accesses of the producer, or the first two
    when the queue is full. *)
Lemma try_emplace_steps v q ins cpc rems tr :
  match try_emplace v q with
  | Ret b q' log =>
      interleave (replicate (if b then 4 else 2) Producer)
        (mkConfig q PIdle (PTryEmplace v :: ins) cpc rems tr)
      = Some (mkConfig q' PIdle ins cpc rems (tr ++ map ObsEvent log))
  | _ =>
      interleave (replicate 3 Producer)
        (mkConfig q PIdle (PTryEmplace v :: ins) cpc rems tr)
      = None
  end.
Proof.
  rewrite try_emplace_eq.
  destruct (_ =? _) eqn:Hfull;
    [|destruct (in_bounds _ _) eqn:Hin];
    step_through; rewrite Hfull; step_through; rewrite ?Hin; step_through;
    try done; by rewrite !app_nil_r.
Qed.

(** [emplace] on a queue with room is the four accesses of the producer; on
    a full queue the producer keeps loading [tail_]. *)
Lemma emplace_steps fuel v q ins cpc rems tr :
  match emplace (S fuel) v q with
  | Ret _ q' log =>
      interleave (replicate 4 Producer)
        (mkConfig q PIdle (PEmplace v :: ins) cpc rems tr)
      = Some (mkConfig q' PIdle ins cpc rems (tr ++ map ObsEvent log))
  | OutOfFuel =>
      forall n,
        interleave (replicate (S n) Producer)
          (mkConfig q PIdle (PEmplace v :: ins) cpc rems tr)
        = Some (mkConfig q
                  (PHeadLoaded (PEmplace v) (head_ q)
                     (size_add (head_ q) 1 mod capacity_ q))
                  ins cpc rems tr)
  | _ =>
      interleave (replicate 3 Producer)
        (mkConfig q PIdle (PEmplace v :: ins) cpc rems tr)
      = None
  end.
Proof.
  rewrite emplace_eq.
  destruct (_ =? _) eqn:Hfull; [|destruct (in_bounds _ _) eqn:Hin].
  - intros n. step_through. rewrite app_nil_r.
    induction n as [|n IH]; [done|].
    step_through. rewrite Hfull. step_through. by rewrite app_nil_r.
  - step_through. rewrite Hfull. step_through. rewrite Hin. step_through.
    by rewrite !app_nil_r.
  - step_through. rewrite Hfull. step_through. by rewrite Hin.
Qed.

(** [front] followed by the read through the returned pointer is the three
    accesses of the consumer. *)
Lemma front_steps q ppc ins rems tr :
  match front q with
  | Ret p q' log =>
      interleave (replicate 3 Consumer)
        (mkConfig q ppc ins CIdle (CFront :: rems) tr)
      = Some (mkConfig q' ppc ins CIdle rems
                (tr ++ observe (AnsPtr p) q' log))
  | _ => False
  end.
Proof.
  rewrite front_eq. step_through. by rewrite !app_nil_r.
Qed.

(** [pop] is the four accesses of the consumer. *)
Lemma pop_steps q ppc ins rems tr :
  match pop q with
  | Ret _ q' log =>
      interleave (replicate 4 Consumer)
        (mkConfig q ppc ins CIdle (CPop :: rems) tr)
      = Some (mkConfig q' ppc ins CIdle rems (tr ++ map ObsEvent log))
  | AssertFailed =>
      interleave (replicate 2 Consumer)
        (mkConfig q ppc ins CIdle (CPop :: rems) tr)
      = None
  | _ =>
      interleave (replicate 3 Consumer)
        (mkConfig q ppc ins CIdle (CPop :: rems) tr)
      = None
  end.
Proof.
  rewrite pop_eq.
  destruct (_ =? _) eqn:Hemp; [|destruct (in_bounds _ _) eqn:Hin];
    step_through; rewrite Hemp; step_through; rewrite ?Hin; step_through;
    try done; by rewrite !app_nil_r.
Qed.
End Alone.

(** ** The states of the examples are reachable *)

Lemma is_size_t_4 : is_size_t 4.
Proof. unfold is_size_t, SIZE_MAX. lia. Qed.

Lemma reachable_queue4 : reachable queue4.
Proof.
  apply (reachable_construct always_available 4);
    [exact is_size_t_4|reflexivity].
Qed.

Lemma reachable_queue4_A : reachable queue4_A.
Proof.
  apply (reachable_invoke queue4 1 (CallTryPush "A"%byte) (AnsBool true) _
           [Construct 128 "A"%byte] reachable_queue4).
  vm_compute. reflexivity.
Qed.

Lemma spacious_queue4 : spacious queue4.
Proof. vm_compute. split; discriminate. Qed.

Lemma is_size_t_huge : is_size_t huge.
Proof. unfold is_size_t, huge, SIZE_MAX. lia. Qed.

Lemma is_size_t_SIZE_MAX : is_size_t SIZE_MAX.
Proof. unfold is_size_t, SIZE_MAX. lia. Qed.

Lemma reachable_rotated_huge : reachable (rotated huge (huge - 1)).
Proof.
  apply (reachable_rotation "A"%byte).
  - apply (reachable_construct always_available huge);
      [exact is_size_t_huge|reflexivity].
  - unfold huge. lia.
  - vm_compute. split; discriminate.
Qed.

Lemma reachable_lagging_queue : reachable lagging_queue.
Proof.
  apply (reachable_invoke _ 1 (CallTryEmplace "A"%byte) (AnsBool true) _
           [Construct (huge - 1 + 128) "A"%byte] reachable_rotated_huge).
  vm_compute. reflexivity.
Qed.

Lemma reachable_rotated_SIZE_MAX : reachable (rotated SIZE_MAX 127).
Proof.
  apply (reachable_rotation "A"%byte).
  - apply (reachable_construct always_available SIZE_MAX);
      [exact is_size_t_SIZE_MAX|reflexivity].
  - unfold SIZE_MAX. lia.
  - vm_compute. split; discriminate.
Qed.

Lemma size_counts {T : Type} `{Sized T} (q : SPSCQueue T) (l : list T) :
  ring_inv q l -> capacity_ q <= SSIZE_MAX + 1 ->
  size q = Ret (Z.of_nat (length l)) q [].
Proof.
  intros [Hc Hh Ht Hlen _ _] Hsmall.
  rewrite size_eq, size_value_exact, Hlen by done. reflexivity.
Qed.

(** ** Blocks that [malloc] can serve *)

(** [std::malloc] returns no block of more than [PTRDIFF_MAX] bytes, which is
    [SSIZE_MAX].  In such a block the slot indices, and so [head_] and
    [tail_], fit [ssize_t], and [size()] is exact whatever the capacity. *)

Section Served.
Context {T : Type} `{Sized T}.
Implicit Types (q : SPSCQueue T) (v : T) (l : list T).

(** [size()] is exact as long as both indices fit [ssize_t]. *)
Lemma size_value_near q :
  is_size_t (capacity_ q) ->
  0 <= head_ q < capacity_ q -> 0 <= tail_ q < capacity_ q ->
  head_ q <= SSIZE_MAX -> tail_ q <= SSIZE_MAX ->
  size_value q = (head_ q - tail_ q) mod capacity_ q.
Proof.
  intros [_ Hc] Hh Ht Hhs Hts. rewrite size_value_eq.
  unfold size_sub, size_add; simpl. unfold SIZE_MAX, SSIZE_MAX in *.
  rewrite (to_size_t_cases (head_ q - tail_ q)) by (unfold SIZE_MODULUS; lia).
  rewrite (mod_cases (capacity_ q)) by lia.
  destruct (Z.ltb_spec (head_ q - tail_ q) 0).
  - rewrite (proj2 (Z.leb_gt _ _)) by (unfold SIZE_MODULUS; lia).
    rewrite to_size_t_cases by (unfold SIZE_MODULUS; lia).
    unfold SIZE_MODULUS. ring_cases; lia.
  - unfold SIZE_MODULUS. ring_cases; try lia.
    destruct (Z.leb_spec (head_ q - tail_ q) 9223372036854775807); lia.
Qed.

(** In a block of at most [SSIZE_MAX] bytes the indices fit [ssize_t]. *)
Lemma served_indices q l :
  ring_inv q l -> bounds_inv q -> block_bytes (slots_ q) <= SSIZE_MAX ->
  head_ q <= SSIZE_MAX /\ tail_ q <= SSIZE_MAX.
Proof.
  intros Hinv Hbnd Hb.
  pose proof (inv_head _ _ Hinv) as Hh. pose proof (inv_tail _ _ Hinv) as Ht.
  pose proof (kPadding_range (T:=T)) as Hk.
  pose proof (sizeof_range (T:=T)) as Hs.
  assert (Hhead : head_ q <= SSIZE_MAX).
  { destruct (bnd_head _ Hbnd) as [->|Hle]; [done|]. nia. }
  split; [done|].
  destruct (decide (head_ q = tail_ q)) as [<-|Hne]; [done|].
  destruct (removed_at_inv q l Hinv Hne) as (v & l' & _ & Hv & _).
  pose proof (bnd_live _ Hbnd (tail_ q) Ht ltac:(by eexists)). nia.
Qed.

(** There [size()] is the number of elements held. *)
Lemma size_counts_served q l :
  ring_inv q l -> bounds_inv q -> block_bytes (slots_ q) <= SSIZE_MAX ->
  size q = Ret (Z.of_nat (length l)) q [].
Proof.
  intros Hinv Hbnd Hb.
  destruct (served_indices q l Hinv Hbnd Hb) as [Hhs Hts].
  destruct Hinv as [Hc Hh Ht Hlen _ _].
  rewrite size_eq, size_value_near, Hlen by (done || split; lia).
  reflexivity.
Qed.

(** The block of a queue constructed with an allocator that serves no
    request above [SSIZE_MAX] bytes. *)
Lemma construct_served available c q :
  (forall n, available n = true -> n <= SSIZE_MAX) ->
  construct T available c = Constructed q ->
  block_bytes (slots_ q) <= SSIZE_MAX.
Proof. intros Hav (_ & Hserved & ->)%construct_eq. by apply Hav. Qed.
End Served.

(** No queue of [2^63 + 2] one-byte slots is ever constructed: its block
    would have [2^63 + 258] bytes. *)
Example huge_not_served :
  (forall n, ptrdiff_available n = true -> n <= SSIZE_MAX)
  /\ construct byte ptrdiff_available huge = Thrown bad_alloc
  /\ construct byte ptrdiff_available 4 = Constructed queue4
  /\ construct byte ptrdiff_available SIZE_MAX
     = Constructed (rotated SIZE_MAX 0).
Proof.
  split; [intros n Hn; by apply Z.leb_le|]. split_and!; reflexivity.
Qed.

(** * The properties of the specification *)

(** C1 (strict FIFO).  A client constructs a queue and performs any sequence
    of calls.  If every blocking insert finds room and every [pop] finds an
    element, the sequence runs to its end (in a block of the intended size,
    that is when the size asked of [malloc] does not wrap).  Whenever it
    does, the values destroyed by [pop] followed by the values still in the
    queue are exactly the values that were constructed, in the order of their
    insertion; every call of [front] sees the oldest value that is inserted
    and not yet removed (and nothing when there is none); and no destructor
    runs on a slot without a live element.  The same law holds when a
    producer thread and a consumer thread run their calls concurrently, one
    atomic access at a time, under any schedule; there the next access of
    either thread is always defined, except for the assertion of a [pop]
    that finds the queue empty. *)
Theorem fifo_order {T : Type} `{Sized T}
    (available : Z -> bool) (capacity : Z) (q0 : SPSCQueue T)
    (fuel : nat) (cs : list (call T)) :
  is_size_t capacity ->
  construct T available capacity = Constructed q0 ->
  ((0 < fuel)%nat -> sizeof T * (capacity + 2 * kPadding T) <= SIZE_MAX ->
   admissible capacity 0 cs = true ->
   is_Some (run fuel cs q0))
  /\ (forall obs q, run fuel cs q0 = Some (obs, q) ->
       inserted obs = removed obs ++ contents q
       /\ (forall obs1 seen obs2, obs = obs1 ++ ObsFront seen :: obs2 ->
             seen = inserted obs1 !! length (removed obs1))
       /\ (forall i, ObsEvent (Destroy i None) ∉ obs))
  /\ (forall sched inserts removes cfg,
       interleave sched (start q0 inserts removes) = Some cfg ->
       fifo (cfg_trace cfg) (contents (settled cfg))
       /\ (sizeof T * (capacity + 2 * kPadding T) <= SIZE_MAX ->
           is_Some (thread_step Producer cfg)
           /\ ((forall tail, cfg_consumer cfg = CPopTailLoaded tail ->
                  head_ (cfg_queue cfg) ≠ tail_ (cfg_queue cfg)) ->
               is_Some (thread_step Consumer cfg)))).
Proof.
  intros Hcap Hq0. pose proof (construct_inv _ _ _ Hcap Hq0) as Hinv.
  split_and!.
  - intros Hfuel Hfit Hadm.
    apply (run_returns fuel cs q0 [] Hfuel Hinv);
      [by eapply construct_spacious|].
    apply construct_eq in Hq0 as (_ & _ & ->). exact Hadm.
  - intros obs q Hrun.
    destruct (run_fifo fuel cs q0 [] obs q Hinv Hrun)
      as (l & Hl & Hio & Hfront & Hlive).
    rewrite (contents_inv q l Hl). auto.
  - intros sched inserts removes cfg Hrun.
    pose proof (start_inv available capacity q0 inserts removes Hcap Hq0)
      as Hstart.
    destruct (interleave_inv sched _ _ _ Hstart Hrun) as (l & Hl).
    rewrite (contents_inv _ l (ti_ring _ _ Hl)). split; [apply Hl|].
    intros Hfit.
    assert (Hsp : spacious (cfg_queue cfg)).
    { eapply interleave_spacious; [|exact Hrun].
      by eapply construct_spacious. }
    split; [by eapply producer_progress|].
    intros Hpop. by eapply consumer_progress.
Qed.

Lemma fifo_order_witness :
  is_size_t 4
  /\ construct byte always_available 4 = Constructed queue4
  /\ (((0 < 1)%nat -> sizeof byte * (4 + 2 * kPadding byte) <= SIZE_MAX ->
       admissible 4 0 scenario = true ->
       is_Some (run 1 scenario queue4))
      /\ (forall obs q, run 1 scenario queue4 = Some (obs, q) ->
           inserted obs = removed obs ++ contents q
           /\ (forall obs1 seen obs2, obs = obs1 ++ ObsFront seen :: obs2 ->
                 seen = inserted obs1 !! length (removed obs1))
           /\ (forall i, ObsEvent (Destroy i None) ∉ obs))
      /\ (forall sched inserts removes cfg,
           interleave sched (start queue4 inserts removes) = Some cfg ->
           fifo (cfg_trace cfg) (contents (settled cfg))
           /\ (sizeof byte * (4 + 2 * kPadding byte) <= SIZE_MAX ->
               is_Some (thread_step Producer cfg)
               /\ ((forall tail, cfg_consumer cfg = CPopTailLoaded tail ->
                      head_ (cfg_queue cfg) ≠ tail_ (cfg_queue cfg)) ->
                   is_Some (thread_step Consumer cfg))))).
Proof.
  assert (Hcap : is_size_t 4) by (unfold is_size_t, SIZE_MAX; lia).
  assert (Hq : construct byte always_available 4 = Constructed queue4)
    by reflexivity.
  split; [exact Hcap|]. split; [exact Hq|].
  exact (fifo_order always_available 4 queue4 1 scenario Hcap Hq).
Defined.

Example scenario_runs :
  run 1 scenario queue4 = Some (scenario_observations, queue4).
Proof. vm_compute. reflexivity. Qed.

Example schedule_runs :
  interleave schedule
    (start queue4 [PEmplace "A"; PTryEmplace "B"]%byte
       [CFront; CFront; CPop; CFront; CPop])
  = Some (mkConfig (mkSPSCQueue 4 (mkBlock 260 ∅) 2 2) PIdle [] CIdle []
            schedule_observations).
Proof. vm_compute. reflexivity. Qed.

(** C2 (non-blocking insert).  Take a queue in a state it reaches, whose
    block was served by [malloc] (at most [SSIZE_MAX] bytes) and holds the
    [capacity_ + 2 * kPadding] slots that the constructor meant to ask for.
    [try_emplace] and [try_push] return true exactly when [size()] is below
    [capacity_ - 1], exactly when [(head_ + 1) mod capacity_] differs from
    [tail_].  On success one element is constructed, in the slot of [head_],
    the content grows by it and [size()] by one; on failure the object is
    unchanged and nothing is constructed.  [size()] is the number of
    elements held and never exceeds [capacity_ - 1].

    The code breaks the claim where the request of the constructor wrapped
    (the defect of C9).  [SPSCQueue<char>(SIZE_MAX)] is constructed over a
    block of 255 bytes; once both indices have advanced to 127 the queue is
    empty and [size()] is 0, yet [try_emplace] neither returns true nor
    false: its placement-new is on slot 255, outside the block. *)
Theorem try_emplace_contract {T : Type} `{Sized T} :
  (forall (q : SPSCQueue T) (v : T),
     reachable q -> spacious q -> block_bytes (slots_ q) <= SSIZE_MAX ->
     exists (b : bool) (n : Z),
       size q = Ret n q []
       /\ n = Z.of_nat (length (contents q))
       /\ try_emplace v q
          = (if b then Ret true (inserted_at q v)
                         [Construct (head_ q + kPadding T) v]
             else Ret false q [])
       /\ try_push v q = try_emplace v q
       /\ (b = true <-> n < capacity_ q - 1)
       /\ (b = true <-> (head_ q + 1) mod capacity_ q ≠ tail_ q)
       /\ n <= capacity_ q - 1
       /\ (b = true ->
           contents (inserted_at q v) = contents q ++ [v]
           /\ size (inserted_at q v) = Ret (n + 1) (inserted_at q v) []))
  /\ (construct byte ptrdiff_available SIZE_MAX
      = Constructed (rotated SIZE_MAX 0)
      /\ block_bytes (slots_ (rotated SIZE_MAX 0)) = 255
      /\ reachable (rotated SIZE_MAX 127)
      /\ contents (rotated SIZE_MAX 127) = []
      /\ size (rotated SIZE_MAX 127) = Ret 0 (rotated SIZE_MAX 127) []
      /\ try_emplace "A"%byte (rotated SIZE_MAX 127) = OutOfBounds
      /\ try_push "A"%byte (rotated SIZE_MAX 127) = OutOfBounds).
Proof.
  split.
  - intros q v (l & Hinv & Hbnd)%reachable_inv Hsp Hserved.
    pose proof (inv_capacity _ _ Hinv) as Hc.
    pose proof (inv_head _ _ Hinv) as Hh.
    destruct (spacious_in_bounds q (head_ q) Hsp Hh) as [Hin Hnw].
    rewrite (contents_inv q l Hinv).
    assert (Hnext : size_add (head_ q) 1 = head_ q + 1)
      by (apply size_add_small; lia).
    destruct (decide ((head_ q + 1) mod capacity_ q = tail_ q)) as [Hf|Hnf].
    + exists false, (Z.of_nat (length l)). rewrite <-Hnext in Hf.
      pose proof (inv_full q l Hinv Hf) as Hlen.
      unfold try_push. rewrite try_emplace_eq, (proj2 (Z.eqb_eq _ _) Hf).
      rewrite Hnext in Hf.
      split_and!; try done; try lia.
      by apply size_counts_served.
    + exists true, (Z.of_nat (length l)). rewrite <-Hnext in Hnf.
      pose proof (inv_not_full q l Hinv Hnf) as Hlen.
      pose proof (inserted_at_inv q l v Hinv Hnf) as Hinv'.
      pose proof (inserted_at_bounds q l v Hinv Hbnd Hin) as Hbnd'.
      unfold try_push.
      rewrite try_emplace_eq, (proj2 (Z.eqb_neq _ _) Hnf), Hin, Hnw.
      rewrite Hnext in Hnf.
      split_and!; try done; try lia.
      * by apply size_counts_served.
      * intros _. split; [by apply contents_inv|].
        rewrite (size_counts_served _ _ Hinv' Hbnd' Hserved).
        by rewrite length_app, Nat2Z.inj_add.
  - split_and!.
    + reflexivity.
    + reflexivity.
    + exact reachable_rotated_SIZE_MAX.
    + vm_compute. reflexivity.
    + rewrite size_eq. reflexivity.
    + vm_compute. reflexivity.
    + vm_compute. reflexivity.
Qed.

Lemma try_emplace_contract_witness :
  reachable queue4 /\ spacious queue4
  /\ block_bytes (slots_ queue4) <= SSIZE_MAX
  /\ exists (b : bool) (n : Z),
       size queue4 = Ret n queue4 []
       /\ n = Z.of_nat (length (contents queue4))
       /\ try_emplace "A"%byte queue4
          = (if b then Ret true (inserted_at queue4 "A"%byte)
                         [Construct (head_ queue4 + kPadding byte) "A"%byte]
             else Ret false queue4 [])
       /\ try_push "A"%byte queue4 = try_emplace "A"%byte queue4
       /\ (b = true <-> n < capacity_ queue4 - 1)
       /\ (b = true
           <-> (head_ queue4 + 1) mod capacity_ queue4 ≠ tail_ queue4)
       /\ n <= capacity_ queue4 - 1
       /\ (b = true ->
           contents (inserted_at queue4 "A"%byte)
           = contents queue4 ++ ["A"%byte]
           /\ size (inserted_at queue4 "A"%byte)
              = Ret (n + 1) (inserted_at queue4 "A"%byte) []).
Proof.
  assert (Hserved : block_bytes (slots_ queue4) <= SSIZE_MAX)
    by (vm_compute; discriminate).
  refine (conj reachable_queue4 (conj spacious_queue4 (conj Hserved _))).
  exact (proj1 (try_emplace_contract (T:=byte)) queue4 "A"%byte
           reachable_queue4 spacious_queue4 Hserved).
Defined.

(** After a wrapped request: with one-byte elements and capacity [SIZE_MAX]
    the block has 255 bytes (see C9); once both indices have advanced to 127
    the queue is empty, yet [try_emplace] constructs outside the block. *)
Lemma try_emplace_fails_when_sizes_wrap :
  reachable (rotated SIZE_MAX 127)
  /\ size (rotated SIZE_MAX 127) = Ret 0 (rotated SIZE_MAX 127) []
  /\ try_emplace "A"%byte (rotated SIZE_MAX 127) = OutOfBounds.
Proof.
  split_and!.
  - exact reachable_rotated_SIZE_MAX.
  - rewrite size_eq. reflexivity.
  - vm_compute. reflexivity.
Qed.

(** C3 (construction).  A requested capacity below 2, so 0 or 1, makes the
    constructor throw [std::invalid_argument]; from 2 on it throws
    [std::bad_alloc] when [malloc] returns the null pointer, and otherwise
    yields a queue with both indices at 0 that reports size 0, empty, the
    requested capacity, and holds no element. *)
Theorem construct_outcomes {T : Type} `{Sized T}
    (available : Z -> bool) (requested : Z) :
  (requested < 2 ->
   construct T available requested = Thrown invalid_argument)
  /\ (2 <= requested -> available (malloc_size T requested) = false ->
      construct T available requested = Thrown bad_alloc)
  /\ (2 <= requested -> available (malloc_size T requested) = true ->
      exists q, construct T available requested = Constructed q
        /\ head_ q = 0 /\ tail_ q = 0
        /\ size q = Ret 0 q []
        /\ empty q = Ret true q []
        /\ capacity q = Ret requested q []
        /\ contents q = []).
Proof.
  unfold construct, malloc. split_and!.
  - intros Hlt. by rewrite (proj2 (Z.ltb_lt _ _) Hlt).
  - intros Hge ->. by rewrite (proj2 (Z.ltb_ge _ _) Hge).
  - intros Hge ->. rewrite (proj2 (Z.ltb_ge _ _) Hge).
    eexists. split; [reflexivity|]. split_and!; reflexivity.
Qed.

(** Capacity 2 is the least accepted; such a queue takes one element at a
    time. *)
Example capacity_two :
  construct byte always_available 1 = Thrown invalid_argument
  /\ construct byte always_available 2
     = Constructed (mkSPSCQueue 2 (mkBlock 258 ∅) 0 0)
  /\ run 1 [CallTryPush "A"; CallTryPush "B"; CallPop; CallTryPush "B"]%byte
       (mkSPSCQueue 2 (mkBlock 258 ∅) 0 0)
     = Some ([ObsEvent (Construct 128 "A");
              ObsEvent (Destroy 128 (Some "A"));
              ObsEvent (Construct 129 "B")]%byte,
             mkSPSCQueue 2 (mkBlock 258 {[129 := "B"%byte]}) 0 1).
Proof. split_and!; vm_compute; reflexivity. Qed.

(** C4 (remove).  In every state that a queue reaches: on an empty queue
    ([head_ = tail_]) the assertion of [pop] fails.  Otherwise the assertion
    holds and [pop] returns: it runs the destructor of the element in the
    slot of [tail_], the oldest of the queue, and of no other, moves [tail_]
    to [(tail_ + 1) mod capacity_] and leaves [head_] alone; the other
    elements stay as they are; and [size()] goes down by exactly one, the
    block being one that [malloc] serves (at most [SSIZE_MAX] bytes). *)
Theorem pop_contract {T : Type} `{Sized T} (q : SPSCQueue T) :
  reachable q ->
  (head_ q = tail_ q -> pop q = AssertFailed)
  /\ (head_ q ≠ tail_ q ->
      exists v,
        block_cells (slots_ q) !! (tail_ q + kPadding T) = Some v
        /\ pop q = Ret tt (removed_at q)
                    [Destroy (tail_ q + kPadding T) (Some v)]
        /\ tail_ (removed_at q) = (tail_ q + 1) mod capacity_ q
        /\ head_ (removed_at q) = head_ q
        /\ contents q = v :: contents (removed_at q)
        /\ (block_bytes (slots_ q) <= SSIZE_MAX ->
            exists n, size q = Ret n q []
              /\ size (removed_at q) = Ret (n - 1) (removed_at q) []
              /\ n = Z.of_nat (length (contents q)))).
Proof.
  intros (l & Hinv & Hbnd)%reachable_inv. rewrite pop_eq. split.
  - intros ->. by rewrite Z.eqb_refl.
  - intros Hne. rewrite (proj2 (Z.eqb_neq _ _) Hne).
    destruct (removed_at_inv q l Hinv Hne) as (v & l' & -> & Hv & Hinv').
    destruct (removed_at_bounds q _ Hinv Hbnd Hne) as (Hnw & Hin & Hbnd').
    pose proof (inv_capacity _ _ Hinv) as Hc.
    pose proof (inv_tail _ _ Hinv) as Ht.
    rewrite Hin, Hv. rewrite Hnw in *. exists v.
    rewrite (contents_inv q _ Hinv), (contents_inv _ _ Hinv').
    split_and!; try done.
    + simpl. by rewrite size_add_small by lia.
    + intros Hserved. exists (Z.of_nat (length (v :: l'))).
      split; [by apply size_counts_served|]. split; [|done].
      rewrite (size_counts_served _ _ Hinv' Hbnd' Hserved). f_equal.
      simpl. lia.
Qed.

Lemma pop_contract_witness :
  reachable queue4_A
  /\ head_ queue4_A ≠ tail_ queue4_A
  /\ block_bytes (slots_ queue4_A) <= SSIZE_MAX
  /\ (exists v,
        block_cells (slots_ queue4_A) !! (tail_ queue4_A + kPadding byte)
        = Some v
        /\ pop queue4_A
           = Ret tt (removed_at queue4_A)
               [Destroy (tail_ queue4_A + kPadding byte) (Some v)]
        /\ tail_ (removed_at queue4_A)
           = (tail_ queue4_A + 1) mod capacity_ queue4_A
        /\ head_ (removed_at queue4_A) = head_ queue4_A
        /\ contents queue4_A = v :: contents (removed_at queue4_A)
        /\ (block_bytes (slots_ queue4_A) <= SSIZE_MAX ->
            exists n, size queue4_A = Ret n queue4_A []
              /\ size (removed_at queue4_A)
                 = Ret (n - 1) (removed_at queue4_A) []
              /\ n = Z.of_nat (length (contents queue4_A)))).
Proof.
  assert (Hne : head_ queue4_A ≠ tail_ queue4_A) by (simpl; lia).
  assert (Hserved : block_bytes (slots_ queue4_A) <= SSIZE_MAX)
    by (vm_compute; discriminate).
  refine (conj reachable_queue4_A (conj Hne (conj Hserved _))).
  exact (proj2 (pop_contract queue4_A reachable_queue4_A) Hne).
Defined.

(** C5 (peek).  On an empty queue ([head_ = tail_]) [front] returns the null
    pointer; otherwise it returns the address of the slot of [tail_], which
    holds a live element, the oldest of the queue.  In both cases the object
    is left as it was and nothing is constructed or destroyed, so a second
    call returns the same pointer. *)
Theorem front_peeks {T : Type} `{Sized T} (q : SPSCQueue T) :
  reachable q ->
  (head_ q = tail_ q -> front q = Ret None q [])
  /\ (head_ q ≠ tail_ q ->
      exists v, front q = Ret (Some (tail_ q + kPadding T)) q []
        /\ block_cells (slots_ q) !! (tail_ q + kPadding T) = Some v
        /\ head (contents q) = Some v)
  /\ (forall p q' log, front q = Ret p q' log ->
        q' = q /\ log = [] /\ front q' = Ret p q' []).
Proof.
  intros (l & Hinv & Hbnd)%reachable_inv. rewrite front_eq. split_and!.
  - intros ->. by rewrite Z.eqb_refl.
  - intros Hne. rewrite (proj2 (Z.eqb_neq _ _) Hne).
    destruct (removed_at_inv q l Hinv Hne) as (v & l' & -> & Hv & _).
    destruct (removed_at_bounds q _ Hinv Hbnd Hne) as (Hnw & _).
    rewrite Hnw in *. exists v. by rewrite (contents_inv q _ Hinv).
  - intros p q' log [= <- <- <-]. by rewrite front_eq.
Qed.

Lemma front_peeks_witness :
  reachable queue4_A
  /\ (head_ queue4_A ≠ tail_ queue4_A ->
      exists v, front queue4_A = Ret (Some (tail_ queue4_A + kPadding byte))
                                 queue4_A []
        /\ block_cells (slots_ queue4_A) !! (tail_ queue4_A + kPadding byte)
           = Some v
        /\ head (contents queue4_A) = Some v).
Proof.
  split; [exact reachable_queue4_A|].
  exact (proj1 (proj2 (front_peeks queue4_A reachable_queue4_A))).
Defined.

(** C6 (size and empty).  In every state that a queue reaches, its block
    being one that [malloc] serves (at most [SSIZE_MAX] bytes): [head_] and
    [tail_] are in [0, capacity_); [size()] returns
    [(head_ - tail_) mod capacity_], which is [head_ - tail_] with the
    capacity added when the difference is negative, lies in
    [0, capacity_ - 1] and is the number of elements held; and [empty()]
    returns true exactly when [size()] returns 0, exactly when
    [head_ = tail_].  Neither call changes the object. *)
Theorem size_formula {T : Type} `{Sized T} (q : SPSCQueue T) :
  reachable q -> block_bytes (slots_ q) <= SSIZE_MAX ->
  (0 <= head_ q < capacity_ q /\ 0 <= tail_ q < capacity_ q)
  /\ size q = Ret ((head_ q - tail_ q) mod capacity_ q) q []
  /\ (head_ q - tail_ q) mod capacity_ q
     = (if head_ q - tail_ q <? 0
        then head_ q - tail_ q + capacity_ q else head_ q - tail_ q)
  /\ 0 <= (head_ q - tail_ q) mod capacity_ q <= capacity_ q - 1
  /\ (head_ q - tail_ q) mod capacity_ q = Z.of_nat (length (contents q))
  /\ empty q = Ret ((head_ q - tail_ q) mod capacity_ q =? 0) q []
  /\ ((head_ q - tail_ q) mod capacity_ q = 0 <-> head_ q = tail_ q).
Proof.
  intros (l & Hinv & Hbnd)%reachable_inv Hserved.
  destruct (served_indices q l Hinv Hbnd Hserved) as [Hhs Hts].
  pose proof (inv_capacity _ _ Hinv) as Hc.
  pose proof (inv_head _ _ Hinv) as Hh.
  pose proof (inv_tail _ _ Hinv) as Ht.
  pose proof (inv_length _ _ Hinv) as Hlen. unfold occupancy in Hlen.
  assert (Hsize : size_value q = (head_ q - tail_ q) mod capacity_ q)
    by (apply size_value_near; (done || split; lia)).
  rewrite (contents_inv q l Hinv), size_eq, empty_eq, Hsize.
  split; [done|]. split_and!; try done; ring_cases; lia.
Qed.

Lemma size_formula_witness :
  reachable queue4_A
  /\ block_bytes (slots_ queue4_A) <= SSIZE_MAX
  /\ (0 <= head_ queue4_A < capacity_ queue4_A
      /\ 0 <= tail_ queue4_A < capacity_ queue4_A)
  /\ size queue4_A
     = Ret ((head_ queue4_A - tail_ queue4_A) mod capacity_ queue4_A)
         queue4_A []
  /\ (head_ queue4_A - tail_ queue4_A) mod capacity_ queue4_A
     = (if head_ queue4_A - tail_ queue4_A <? 0
        then head_ queue4_A - tail_ queue4_A + capacity_ queue4_A
        else head_ queue4_A - tail_ queue4_A)
  /\ 0 <= (head_ queue4_A - tail_ queue4_A) mod capacity_ queue4_A
     <= capacity_ queue4_A - 1
  /\ (head_ queue4_A - tail_ queue4_A) mod capacity_ queue4_A
     = Z.of_nat (length (contents queue4_A))
  /\ empty queue4_A
     = Ret ((head_ queue4_A - tail_ queue4_A) mod capacity_ queue4_A =? 0)
         queue4_A []
  /\ ((head_ queue4_A - tail_ queue4_A) mod capacity_ queue4_A = 0
      <-> head_ queue4_A = tail_ queue4_A).
Proof.
  assert (Hserved : block_bytes (slots_ queue4_A) <= SSIZE_MAX)
    by (vm_compute; discriminate).
  refine (conj reachable_queue4_A (conj Hserved _)).
  exact (size_formula queue4_A reachable_queue4_A Hserved).
Defined.

(** The bound on the block is what makes [size()] exact.  An allocator
    that served [2^63 + 258] bytes would let a queue of capacity [2^63 + 2]
    reach head 0 and tail [2^63 + 1]; there one element is held and
    [size()] returns [2^63 - 1], because the difference of the indices is
    taken through [ssize_t]. *)
Remark size_off_in_oversized_block :
  construct byte always_available huge = Constructed (rotated huge 0)
  /\ SSIZE_MAX < block_bytes (slots_ lagging_queue)
  /\ reachable lagging_queue
  /\ contents lagging_queue = ["A"%byte]
  /\ size lagging_queue = Ret 9223372036854775807 lagging_queue [].
Proof.
  split_and!.
  - reflexivity.
  - reflexivity.
  - exact reachable_lagging_queue.
  - vm_compute. reflexivity.
  - rewrite size_eq. reflexivity.
Qed.

(** C7 (indices and slots).  In every state that a constructed queue reaches,
    [head_] and [tail_] are in [0, capacity_); every placement-new and every
    destructor call of a member function that returns, and of the destructor
    of the queue, is on a slot in [kPadding, kPadding + capacity_); the live
    elements are all in those slots; and the slot that the next insertion
    and the next removal address is one of them.  The [kPadding] slots in
    front are never used, nor are those behind slot
    [kPadding + capacity_ - 1]. *)
Theorem slots_in_range {T : Type} `{Sized T} (q : SPSCQueue T) :
  reachable q ->
  (0 <= head_ q < capacity_ q /\ 0 <= tail_ q < capacity_ q)
  /\ (forall fuel c a q' log, invoke fuel c q = Ret a q' log ->
        Forall (ring_slot q) (touched log))
  /\ (forall fuel q' log, destroy fuel q = Ret tt q' log ->
        Forall (ring_slot q) (touched log))
  /\ (forall i, is_Some (block_cells (slots_ q) !! i) -> ring_slot q i)
  /\ ring_slot q (size_add (head_ q) (kPadding T))
  /\ (head_ q ≠ tail_ q -> ring_slot q (size_add (tail_ q) (kPadding T))).
Proof.
  intros (l & Hinv & Hbnd)%reachable_inv.
  pose proof (inv_head _ _ Hinv) as Hh. pose proof (inv_tail _ _ Hinv) as Ht.
  assert (Hslot : size_add (head_ q) (kPadding T) = head_ q + kPadding T).
  { apply (slot_no_wrap q); [apply Hbnd|lia|apply Hbnd]. }
  split; [done|]. split_and!; [| | |rewrite Hslot; unfold ring_slot; lia|
    intros Hne; destruct (removed_at_bounds q _ Hinv Hbnd Hne) as (-> & _);
    unfold ring_slot; lia].
  - intros fuel c a q' log
      [(v & _ & Hin & _ & -> & _)
      |[(Hne & _ & _ & -> & _)|(_ & -> & _)]]%invoke_Ret;
      simpl; [apply Forall_singleton..|constructor].
    + rewrite Hslot. unfold ring_slot; lia.
    + destruct (removed_at_bounds q _ Hinv Hbnd Hne) as (-> & _).
      unfold ring_slot; lia.
  - intros fuel q' log. unfold destroy, mbind, op_mbind, op_bind.
    destruct (drain fuel q) as [[] q1 log1| | |] eqn:Hdrain; try discriminate.
    intros [= <- <-]. unfold touched. rewrite omap_app, app_nil_r.
    exact (drain_touched _ _ _ _ _ Hinv Hbnd Hdrain).
  - intros i Hi. destruct (inv_dead _ _ Hinv i Hi) as (j & Hj & ->).
    destruct (live_in_bounds q j Hbnd Hj Hi) as [-> _].
    unfold ring_slot; lia.
Qed.

Lemma slots_in_range_witness :
  reachable queue4_A
  /\ (0 <= head_ queue4_A < capacity_ queue4_A
      /\ 0 <= tail_ queue4_A < capacity_ queue4_A)
  /\ (forall fuel c a q' log, invoke fuel c queue4_A = Ret a q' log ->
        Forall (ring_slot queue4_A) (touched log))
  /\ (forall fuel q' log, destroy fuel queue4_A = Ret tt q' log ->
        Forall (ring_slot queue4_A) (touched log))
  /\ (forall i, is_Some (block_cells (slots_ queue4_A) !! i) ->
        ring_slot queue4_A i)
  /\ ring_slot queue4_A (size_add (head_ queue4_A) (kPadding byte))
  /\ (head_ queue4_A ≠ tail_ queue4_A ->
      ring_slot queue4_A (size_add (tail_ queue4_A) (kPadding byte))).
Proof.
  refine (conj reachable_queue4_A _).
  exact (slots_in_range queue4_A reachable_queue4_A).
Defined.

(** C8 (destruction).  The destructor of a queue in any reachable state
    returns, given one loop iteration more than there are elements.  It runs
    the destructor of every element held, the oldest first (the slot of
    [tail_], then the following ones up to [head_]), exactly as that many
    calls of [pop] do, and only then frees the block, in which no live
    element is left.  On an empty queue it destroys nothing and frees the
    block. *)
Theorem destroy_drains {T : Type} `{Sized T} (q : SPSCQueue T) (fuel : nat) :
  reachable q -> (length (contents q) < fuel)%nat ->
  exists q',
    destroy fuel q = Ret tt q' (drain_log q ++ [Free])
    /\ removed (ObsEvent <$> drain_log q) = contents q
    /\ run fuel (replicate (length (contents q)) CallPop) q
       = Some (ObsEvent <$> drain_log q, q')
    /\ block_cells (slots_ q') = ∅
    /\ head_ q' = tail_ q'
    /\ (contents q = [] -> q' = q /\ destroy fuel q = Ret tt q [Free]).
Proof.
  intros (l & Hinv & Hbnd)%reachable_inv. unfold drain_log.
  rewrite (contents_inv q l Hinv). intros Hfuel.
  destruct (drain_inv l q fuel fuel Hinv Hbnd Hfuel)
    as (q' & Hdrain & Hrun & Hinv' & _ & _ & Hnil).
  assert (Hdestroy : destroy fuel q
            = Ret tt q' (imap (fun k v =>
                           Destroy (slot_of q (Z.of_nat k)) (Some v)) l
                         ++ [Free])).
  { unfold destroy, mbind, op_mbind, op_bind. rewrite Hdrain. reflexivity. }
  exists q'. split_and!.
  - exact Hdestroy.
  - apply removed_imap_Destroy.
  - exact Hrun.
  - by apply inv_nil_cells.
  - by apply (inv_empty q' []).
  - intros ->. specialize (Hnil eq_refl). subst q'. done.
Qed.

Lemma destroy_drains_witness :
  reachable queue4_A /\ (length (contents queue4_A) < 2)%nat
  /\ exists q',
       destroy 2 queue4_A = Ret tt q' (drain_log queue4_A ++ [Free])
       /\ removed (ObsEvent <$> drain_log queue4_A) = contents queue4_A
       /\ run 2 (replicate (length (contents queue4_A)) CallPop) queue4_A
          = Some (ObsEvent <$> drain_log queue4_A, q')
       /\ block_cells (slots_ q') = ∅
       /\ head_ q' = tail_ q'
       /\ (contents queue4_A = [] ->
           q' = queue4_A /\ destroy 2 queue4_A = Ret tt queue4_A [Free]).
Proof.
  assert (Hfuel : (length (contents queue4_A) < 2)%nat) by (vm_compute; lia).
  refine (conj reachable_queue4_A (conj Hfuel _)).
  exact (destroy_drains queue4_A 2 reachable_queue4_A Hfuel).
Defined.

Example destroy_queue4_A :
  destroy 2 queue4_A
  = Ret tt (mkSPSCQueue 4 (mkBlock 260 ∅) 1 1)
      [Destroy 128 (Some "A"%byte); Free].
Proof. vm_compute. reflexivity. Qed.

(** C9 (padding).  [kPadding] is [(128 - 1) / sizeof(T) + 1] in exact
    arithmetic, which is 128 divided by [sizeof(T)] rounded up: the least
    number of slots that cover a cache line, and at least one slot.  The
    constructor asks [malloc] for the bytes of [capacity_ + 2 * kPadding]
    slots when that number of bytes fits [size_t], but it does not check
    that it fits: for one-byte elements and capacity [SIZE_MAX] the request
    wraps to 255 bytes, [malloc] serves it, and the constructed queue has a
    block of 255 slots instead of [SIZE_MAX + 256]. *)
Theorem padding_rounds_up {T : Type} `{Sized T} :
  kPadding T = (kCacheLineSize - 1) / sizeof T + 1
  /\ kPadding T = ceil_div kCacheLineSize (sizeof T)
  /\ (kPadding T - 1) * sizeof T < kCacheLineSize <= kPadding T * sizeof T
  /\ 1 <= kPadding T
  /\ (forall available requested q,
       is_size_t requested ->
       sizeof T * (requested + 2 * kPadding T) <= SIZE_MAX ->
       construct T available requested = Constructed q ->
       block_bytes (slots_ q) = sizeof T * (requested + 2 * kPadding T))
  /\ (is_size_t SIZE_MAX
      /\ construct byte always_available SIZE_MAX
         = Constructed (mkSPSCQueue SIZE_MAX (mkBlock 255 ∅) 0 0)
      /\ 255 < sizeof byte * (SIZE_MAX + 2 * kPadding byte)).
Proof.
  pose proof (sizeof_range (T:=T)) as Hs.
  pose proof (kPadding_range (T:=T)) as Hk.
  assert (Heq : kPadding T = 127 / sizeof T + 1) by apply kPadding_eq.
  assert (Hdm : 127 = sizeof T * (127 / sizeof T) + 127 mod sizeof T)
    by (apply Z.div_mod; lia).
  assert (Hmod : 0 <= 127 mod sizeof T < sizeof T)
    by (apply Z.mod_pos_bound; lia).
  split; [exact Heq|]. split.
  { rewrite Heq. unfold ceil_div, kCacheLineSize.
    replace (128 + sizeof T - 1) with (127 + 1 * sizeof T) by lia.
    rewrite Z.div_add by lia. done. }
  split; [unfold kCacheLineSize; rewrite Heq; nia|].
  split; [lia|]. split.
  - intros available requested q [Hr0 _] Hfit (_ & _ & ->)%construct_eq. simpl.
    unfold malloc_size, size_mul.
    rewrite (to_size_t_small (2 * kPadding T)) by (unfold SIZE_MAX; lia).
    rewrite size_add_small by nia.
    apply to_size_t_small. nia.
  - split; [exact is_size_t_SIZE_MAX|]. split; [reflexivity|done].
Qed.

Example kPadding_values :
  kPadding byte = 128 /\ kPadding N = 16
  /\ malloc_size byte 4 = 260 /\ malloc_size N 4 = 288.
Proof. split_and!; reflexivity. Qed.

(** C10 (precedence of the capacity check).  With a requested capacity below
    2 the constructor throws [std::invalid_argument] whatever [malloc]
    returned: the capacity is tested before the pointer. *)
Theorem invalid_capacity_first {T : Type} `{Sized T}
    (available : Z -> bool) (requested : Z) :
  requested < 2 ->
  construct T available requested = Thrown invalid_argument.
Proof.
  intros Hlt. unfold construct. by rewrite (proj2 (Z.ltb_lt _ _) Hlt).
Qed.

Lemma invalid_capacity_first_witness :
  1 < 2
  /\ malloc (T:=byte) never_available (malloc_size byte 1) = None
  /\ construct byte never_available 1 = Thrown invalid_argument.
Proof.
  split; [lia|]. split; [reflexivity|].
  apply (invalid_capacity_first never_available 1). lia.
Defined.

(** * Further properties of the code *)

(** ** Sequences of calls and schedules, piecewise *)

Section Pieces.
Context {T : Type} `{Sized T}.
Implicit Types (q : SPSCQueue T) (v : T) (l : list T) (cfg : config T).

Lemma run_reachable fuel cs : forall q obs q',
  reachable q -> run fuel cs q = Some (obs, q') -> reachable q'.
Proof.
  induction cs as [|c cs IH]; intros q obs q' Hq; simpl.
  - by intros [= _ <-].
  - destruct (invoke fuel c q) as [a q1 log| | |] eqn:Hstep; try done.
    destruct (run fuel cs q1) as [[o q2]|] eqn:Hrest; [|done].
    intros [= _ <-]. eapply IH; [|exact Hrest].
    by eapply reachable_invoke.
Qed.

(** No call changes [capacity_] or the size of the block. *)
Lemma invoke_capacity fuel c q a q' log :
  invoke fuel c q = Ret a q' log ->
  capacity_ q' = capacity_ q
  /\ block_bytes (slots_ q') = block_bytes (slots_ q).
Proof.
  by intros [(v & _ & _ & -> & _)|[(_ & _ & -> & _)|(-> & _)]]%invoke_Ret.
Qed.

Lemma run_capacity fuel cs : forall q obs q',
  run fuel cs q = Some (obs, q') ->
  capacity_ q' = capacity_ q
  /\ block_bytes (slots_ q') = block_bytes (slots_ q).
Proof.
  induction cs as [|c cs IH]; intros q obs q'; simpl.
  - by intros [= _ <-].
  - destruct (invoke fuel c q) as [a q1 log| | |] eqn:Hstep; try done.
    destruct (run fuel cs q1) as [[o q2]|] eqn:Hrest; [|done].
    intros [= _ <-]. apply invoke_capacity in Hstep as [<- <-].
    by eapply IH.
Qed.

(** Nor does any access of a thread. *)
Lemma thread_step_capacity t cfg cfg' :
  thread_step t cfg = Some cfg' ->
  capacity_ (cfg_queue cfg') = capacity_ (cfg_queue cfg)
  /\ block_bytes (slots_ (cfg_queue cfg'))
     = block_bytes (slots_ (cfg_queue cfg)).
Proof.
  destruct cfg as [q ppc ins cpc rems tr].
  destruct t; unfold thread_step; simpl.
  - destruct ppc as [|c h n|c h n|c h n]; [destruct ins| | |];
      unfold producer_step, placement_new, mbind, op_mbind, op_bind; simpl;
      repeat match goal with
        | |- context [if ?b then _ else _] => destruct b
        | |- context [match ?c with PEmplace _ => _ | _ => _ end] => destruct c
        end; simpl; intros [= <-]; done.
  - destruct cpc as [|t|p|t|t|t]; [destruct rems as [|[] ?]| | | | |];
      unfold consumer_step, destroy_at, c_assert, mbind, op_mbind, op_bind;
      simpl;
      repeat match goal with
        | |- context [if ?b then _ else _] => destruct b
        end; simpl; intros [= <-]; done.
Qed.

Lemma interleave_capacity sched : forall cfg cfg',
  interleave sched cfg = Some cfg' ->
  capacity_ (cfg_queue cfg') = capacity_ (cfg_queue cfg)
  /\ block_bytes (slots_ (cfg_queue cfg'))
     = block_bytes (slots_ (cfg_queue cfg)).
Proof.
  induction sched as [|t sched IH]; intros cfg cfg'; simpl.
  - by intros [= <-].
  - destruct (thread_step t cfg) as [cfg1|] eqn:Hstep; [|discriminate].
    intros Hrest. apply thread_step_capacity in Hstep as [<- <-].
    by apply IH.
Qed.

Lemma inv_length_bound q l :
  ring_inv q l -> Z.of_nat (length l) <= capacity_ q - 1.
Proof.
  intros [Hc _ _ Hlen _ _]. unfold occupancy in Hlen.
  pose proof (Z.mod_pos_bound (head_ q - tail_ q) (capacity_ q)). lia.
Qed.

(** The slot of [head_] holds no live element. *)
Lemma head_slot_dead q l :
  ring_inv q l ->
  block_cells (slots_ q) !! size_add (head_ q) (kPadding T) = None.
Proof.
  intros [Hc Hh Ht Hlen Hcells _]. rewrite Hcells by done.
  apply lookup_ge_None_2. unfold occupancy in Hlen. lia.
Qed.
End Pieces.

(** ** Accesses of one thread seen from the other *)

Section Frames.
Context {T : Type} `{Sized T}.
Implicit Types (q : SPSCQueue T) (v : T) (l : list T) (cfg : config T).

(** What one access of the producer leaves alone. *)
Lemma producer_step_frame cfg l cfg' :
  threads_inv cfg l -> thread_step Producer cfg = Some cfg' ->
  tail_ (cfg_queue cfg') = tail_ (cfg_queue cfg)
  /\ removed (cfg_trace cfg') = removed (cfg_trace cfg)
  /\ cfg_consumer cfg' = cfg_consumer cfg
  /\ forall i, i ≠ size_add (head_ (cfg_queue cfg)) (kPadding T) ->
       block_cells (slots_ (cfg_queue cfg')) !! i
       = block_cells (slots_ (cfg_queue cfg)) !! i.
Proof.
  destruct cfg as [q ppc ins cpc rems tr].
  intros [_ _ _ Hp _ _]. unfold producer_ok in Hp. simpl in Hp.
  unfold thread_step; simpl.
  destruct ppc as [|c h n|c h n|c h n]; [destruct ins| | |];
    unfold producer_step, placement_new, mbind, op_mbind, op_bind; simpl;
    repeat match goal with
      | |- context [if ?b then _ else _] => destruct b
      | |- context [match ?c with PEmplace _ => _ | _ => _ end] => destruct c
      end; simpl; intros [= <-]; simpl; rewrite ?app_nil_r;
    split_and!; try done.
  - by rewrite removed_app, app_nil_r.
  - intros i Hi. destruct Hp as (-> & _). by rewrite lookup_insert_ne.
Qed.

(** What one access of the consumer leaves alone. *)
Lemma consumer_step_frame cfg l cfg' :
  threads_inv cfg l -> thread_step Consumer cfg = Some cfg' ->
  head_ (cfg_queue cfg') = head_ (cfg_queue cfg)
  /\ inserted (cfg_trace cfg') = inserted (cfg_trace cfg)
  /\ cfg_producer cfg' = cfg_producer cfg
  /\ forall i, i ≠ size_add (tail_ (cfg_queue cfg)) (kPadding T) ->
       block_cells (slots_ (cfg_queue cfg')) !! i
       = block_cells (slots_ (cfg_queue cfg)) !! i.
Proof.
  destruct cfg as [q ppc ins cpc rems tr].
  intros [_ _ _ _ Hc _]. unfold consumer_ok in Hc. simpl in Hc.
  unfold thread_step; simpl.
  destruct cpc as [|t|p|t|t|t]; [destruct rems as [|[] ?]| | | | |];
    unfold consumer_step, destroy_at, c_assert, mbind, op_mbind, op_bind;
    simpl;
    repeat match goal with
      | |- context [if ?b then _ else _] => destruct b
      end; simpl; intros [= <-]; simpl; rewrite ?app_nil_r;
    split_and!; try done.
  - by rewrite inserted_app, app_nil_r.
  - by rewrite inserted_app, app_nil_r.
  - intros i Hi. destruct Hc as (-> & _). by rewrite lookup_delete_ne.
Qed.

End Frames.

(** ** Filling and rotating *)

Section Filling.
Context {T : Type} `{Sized T}.
Implicit Types (q : SPSCQueue T) (v : T) (l : list T).

(** One insertion and one removal on an empty queue, [n] times over. *)
Lemma rotation_run fuel v c bytes (n : nat) : forall i,
  2 <= c <= SIZE_MAX ->
  sizeof T * (c + 2 * kPadding T) <= bytes <= SIZE_MAX ->
  0 <= i < c ->
  exists obs,
    run fuel (concat (replicate n [CallTryEmplace v; CallPop]))
      (mkSPSCQueue c (mkBlock bytes (∅ : gmap Z T)) i i)
    = Some (obs,
            mkSPSCQueue c (mkBlock bytes ∅)
              ((i + Z.of_nat n) mod c) ((i + Z.of_nat n) mod c))
    /\ inserted obs = replicate n v /\ removed obs = replicate n v.
Proof.
  intros i Hc Hfit. revert i.
  induction n as [|n IH]; intros i Hi.
  { exists []. simpl. by rewrite Z.add_0_r, Z.mod_small. }
  set (q := mkSPSCQueue c (mkBlock bytes (∅ : gmap Z T)) i i).
  assert (Hsp : spacious q) by done.
  destruct (ring_next c i Hc Hi) as [Hnext Hnr].
  destruct (spacious_in_bounds q i Hsp Hi) as [Hin _].
  assert (Hne : size_add i 1 mod c ≠ i) by (rewrite Hnext; ring_cases; lia).
  destruct (IH _ Hnr) as (obs & Hrun & Hins & Hrem).
  exists (ObsEvent (Construct (size_add i (kPadding T)) v)
          :: ObsEvent (Destroy (size_add i (kPadding T)) (Some v)) :: obs).
  split;
    [|split; [unfold inserted|unfold removed]; simpl; f_equal;
      [exact Hins|exact Hrem]].
  change (concat (replicate (S n) [CallTryEmplace v; CallPop]))
    with (CallTryEmplace v :: CallPop
          :: concat (replicate n [CallTryEmplace v; CallPop])).
  cbn [run].
  rewrite (invoke_try_emplace_ok fuel q v) by done.
  rewrite (invoke_pop_ok fuel (inserted_at q v)) by done.
  unfold removed_at, inserted_at, observe; simpl.
  rewrite lookup_insert_eq, delete_insert_eq, delete_empty, Hrun.
  do 3 f_equal; rewrite size_add_small by lia;
    rewrite Nat2Z.inj_succ, <-Z.add_succ_comm, <-Z.add_1_r;
    by rewrite Zplus_mod_idemp_l.
Qed.

(** Repeated [try_emplace] fills the queue up to [capacity_ - 1] elements
    and no further. *)
Lemma fill_run fuel v (n : nat) : forall q l,
  ring_inv q l -> spacious q ->
  exists obs q',
    run fuel (replicate n (CallTryEmplace v)) q = Some (obs, q')
    /\ ring_inv q'
         (l ++ replicate (n `min` (Z.to_nat (capacity_ q - 1) - length l)) v)
    /\ inserted obs
       = replicate (n `min` (Z.to_nat (capacity_ q - 1) - length l)) v
    /\ removed obs = [].
Proof.
  induction n as [|n IH]; intros q l Hinv Hsp.
  { exists [], q. simpl. by rewrite app_nil_r. }
  pose proof (inv_head _ _ Hinv) as Hh.
  destruct (spacious_in_bounds q (head_ q) Hsp Hh) as [Hin _].
  cbn [replicate run invoke]. unfold mbind, op_mbind, op_bind.
  rewrite try_emplace_eq.
  destruct (Z.eqb_spec (size_add (head_ q) 1 mod capacity_ q) (tail_ q))
    as [Hfull|Hroom].
  - pose proof (inv_full q l Hinv Hfull) as Hlen.
    destruct (IH q l Hinv Hsp) as (obs & q' & Hrun & Hinv' & Hins & Hrem).
    replace (Z.to_nat (capacity_ q - 1) - length l)%nat with 0%nat in * by lia.
    rewrite Nat.min_0_r in *.
    exists obs, q'. simpl. by rewrite Hrun.
  - pose proof (inv_not_full q l Hinv Hroom) as Hlen. rewrite Hin.
    destruct (IH (inserted_at q v) (l ++ [v])
                (inserted_at_inv q l v Hinv Hroom) Hsp)
      as (obs & q' & Hrun & Hinv' & Hins & Hrem).
    simpl in Hinv', Hins. rewrite length_app in Hinv', Hins.
    simpl in Hinv', Hins.
    replace (Z.to_nat (capacity_ q - 1) - length l)%nat
      with (S (Z.to_nat (capacity_ q - 1) - (length l + 1)))%nat by lia.
    rewrite <-Nat.succ_min_distr.
    exists (ObsEvent (Construct (size_add (head_ q) (kPadding T)) v) :: obs),
      q'.
    simpl. rewrite Hrun. split_and!; [done| | |done].
    + by rewrite <-app_assoc in Hinv'.
    + unfold inserted in *. simpl. by f_equal.
Qed.

Lemma inserted_imap_Destroy (f : nat -> Z) l :
  inserted (ObsEvent <$> imap (fun k v => Destroy (f k) (Some v)) l) = [].
Proof.
  revert f. induction l as [|v l IH]; intros f; [done|].
  rewrite imap_cons, fmap_cons. unfold inserted in *. simpl.
  apply (IH (f ∘ S)).
Qed.
End Filling.

(** ** More states of the worked scenario *)

Lemma construct_queue4 :
  construct byte always_available 4 = Constructed queue4.
Proof. reflexivity. Qed.

Lemma queue4_fits : sizeof byte * (4 + 2 * kPadding byte) <= SIZE_MAX.
Proof. vm_compute. discriminate. Qed.

Lemma spacious_queue4_A : spacious queue4_A.
Proof. vm_compute. split; discriminate. Qed.

Lemma reachable_queue4_full : reachable queue4_full.
Proof.
  apply (run_reachable 1
           [CallTryPush "A"; CallTryPush "B"; CallTryPush "C"]%byte queue4
           [ObsEvent (Construct 128 "A"); ObsEvent (Construct 129 "B");
            ObsEvent (Construct 130 "C")]%byte
           queue4_full reachable_queue4).
  vm_compute. reflexivity.
Qed.

Lemma spacious_queue4_full : spacious queue4_full.
Proof. vm_compute. split; discriminate. Qed.

(** ** Histories of stores *)

Lemma mod_eq_le a b c :
  0 < c -> a mod c = b mod c -> a < b + c -> a <= b.
Proof.
  intros Hc Heq Hlt.
  pose proof (Z.div_mod a c ltac:(lia)) as Ha.
  pose proof (Z.div_mod b c ltac:(lia)) as Hb.
  rewrite Heq in Ha.
  destruct (Z_le_gt_dec (a / c) (b / c)) as [Hle|Hgt].
  - assert (c * (a / c) <= c * (b / c)) by (apply Z.mul_le_mono_nonneg_l; lia).
    lia.
  - assert (c * (b / c + 1) <= c * (a / c))
      by (apply Z.mul_le_mono_nonneg_l; lia).
    lia.
Qed.

Lemma latest_snoc stores x : latest (stores ++ [x]) = x.
Proof. unfold latest. by rewrite last_snoc. Qed.

Lemma latest_counted c stores :
  counted c stores ->
  latest stores = (Z.of_nat (length stores) - 1) mod c
  /\ (0 < length stores)%nat.
Proof.
  intros [Hne Hval]. unfold latest.
  destruct stores as [|x stores _] using rev_ind; [done|].
  rewrite last_snoc, length_app. simpl. split; [|lia].
  rewrite (Hval (length stores) x) by (by apply list_lookup_middle).
  f_equal. lia.
Qed.

Lemma counted_snoc c stores :
  2 <= c <= SIZE_MAX -> counted c stores ->
  counted c (stores ++ [size_add (latest stores) 1 mod c]).
Proof.
  intros Hc Hcnt. destruct (latest_counted c stores Hcnt) as [Hlast Hlen].
  destruct Hcnt as [Hne Hval]. split; [by destruct stores|].
  intros i x Hi. apply lookup_app_Some in Hi as [Hi|[Hge Hi]]; [by apply Hval|].
  apply list_lookup_singleton_Some in Hi as [Hi <-].
  replace i with (length stores) by lia.
  rewrite Hlast, size_add_small.
  - rewrite Zplus_mod_idemp_l. f_equal. lia.
  - pose proof (Z.mod_pos_bound (Z.of_nat (length stores) - 1) c). lia.
Qed.

Lemma acquire_counted c stores seen lag i x :
  counted c stores -> (seen < length stores)%nat ->
  acquire stores seen lag = (i, x) ->
  (seen <= i < length stores)%nat /\ x = Z.of_nat i mod c.
Proof.
  intros [_ Hval] Hseen [= <- <-].
  assert (Hi : (seen `max` (length stores - 1 - lag) < length stores)%nat)
    by lia.
  split; [lia|]. apply lookup_lt_is_Some in Hi as [x Hx].
  rewrite Hx. simpl. by apply Hval.
Qed.

Lemma next_counted c n :
  2 <= c <= SIZE_MAX -> size_add ((n - 1) mod c) 1 mod c = n mod c.
Proof.
  intros Hc. pose proof (Z.mod_pos_bound (n - 1) c ltac:(lia)).
  rewrite size_add_small by lia. rewrite Zplus_mod_idemp_l. f_equal. lia.
Qed.

(** An acquire load reads a store that was made, not older than the one the
    thread read before; and each such store is read for some [lag]. *)
Lemma acquire_reads (stores : list Z) (seen lag : nat) :
  (seen < length stores)%nat ->
  (seen <= (acquire stores seen lag).1 < length stores)%nat
  /\ stores !! (acquire stores seen lag).1
     = Some (acquire stores seen lag).2.
Proof.
  intros Hseen. unfold acquire. simpl.
  set (i := (seen `max` (length stores - 1 - lag))%nat).
  assert (Hi : (seen <= i < length stores)%nat) by lia.
  split; [done|].
  destruct (lookup_lt_is_Some_2 stores i (proj2 Hi)) as [x Hx].
  by rewrite Hx.
Qed.

Lemma acquire_any (stores : list Z) (seen i : nat) :
  (seen <= i < length stores)%nat ->
  acquire stores seen (length stores - 1 - i)
  = (i, default 0 (stores !! i)).
Proof.
  intros Hi. unfold acquire.
  by replace (seen `max` (length stores - 1 - (length stores - 1 - i)))%nat
    with i by lia.
Qed.

(** ** The invariant under release and acquire is established and preserved *)

Ltac rsplit :=
  split;
  unfold unpublished, unreleased, rproducer_ok, rconsumer_ok, producer_at,
    consumer_at, rsettled; simpl.

Section RInvariant.
Context {T : Type} `{Sized T}.
Implicit Types (v : T) (l : list T) (cfg : rconfig T).

Lemma rstart_inv available c q inserts removes :
  is_size_t c -> construct T available c = Constructed q ->
  rthreads_inv (rstart q inserts removes) [].
Proof.
  intros Hc Hq. pose proof (construct_inv _ _ _ Hc Hq) as Hinv.
  apply construct_eq in Hq as (Hc2 & _ & ->).
  split; unfold unpublished, unreleased; simpl; try done; try lia.
  - split; [done|]. by intros [|i] x [= <-].
  - split; [done|]. by intros [|i] x [= <-].
  - apply fifo_nil.
Qed.

(** Two slots of the ring coincide only for elements whose numbers are
    congruent modulo the capacity. *)
Lemma slot_congruent c (a b : Z) :
  2 <= c <= SIZE_MAX ->
  size_add (a mod c) (kPadding T) = size_add (b mod c) (kPadding T) ->
  a mod c = b mod c.
Proof.
  intros Hc Heq.
  pose proof (Z.mod_pos_bound a c ltac:(lia)).
  pose proof (Z.mod_pos_bound b c ltac:(lia)).
  apply size_add_inj in Heq; lia.
Qed.

Lemma rproducer_step_inv lag cfg l cfg' :
  rthreads_inv cfg l -> rproducer_step lag cfg = Some cfg' ->
  exists l', rthreads_inv cfg' l'.
Proof.
  destruct cfg as [[cap blk heads tails prod cons] ppc ins ts cpc rems hs tr].
  intros [Hring Hheads Htails Hcount Hts Hhs Hahead Hbehind Hp Hc Hprod Hcons
            Hfifo].
  unfold rproducer_step, rproducer_ok, rconsumer_ok, unpublished, unreleased
    in *; simpl in *.
  pose proof (inv_capacity _ _ Hring) as Hcap. simpl in Hcap.
  destruct (latest_counted _ _ Hheads) as [Hlh Hlenh].
  destruct (latest_counted _ _ Htails) as [Hlt Hlent].
  destruct ppc as [|c head nextHead|c head nextHead|c head nextHead].
  - (* the call starts: relaxed load of head_ *)
    destruct ins as [|c ins]; intros [= <-]; exists l;
      (rsplit; [done..|by rewrite ?app_nil_r]).
  - (* acquire load of tail_ *)
    destruct Hp as [-> ->].
    destruct (acquire_counted _ _ ts lag _ _ Htails Hts eq_refl) as [Hi Hx].
    rewrite Hx. clear Hx.
    set (i := (ts `max` (length tails - 1 - lag))%nat) in *.
    destruct (Z.eqb_spec (size_add (latest heads) 1 mod cap)
                (Z.of_nat i mod cap)) as [Heq|Hne];
      [destruct c|]; intros [= <-]; exists l;
      (rsplit; [done|done|done|done|lia|done|lia|done| |done|done|done
               |by rewrite ?app_nil_r]); try done.
    split_and!; [done..|].
    destruct (decide (Z.of_nat (length heads) = Z.of_nat i + cap)) as [E|E];
      [|lia].
    exfalso. apply Hne. rewrite Hlh, next_counted, E by done.
    by rewrite Z_mod_plus_full with (b := 1) || (rewrite <-(Z.mul_1_l cap) at 1;
      by rewrite Z_mod_plus_full).
  - (* placement-new *)
    destruct Hp as (-> & -> & Hroom).
    destruct (in_bounds blk _) eqn:Hin; [|discriminate].
    destruct (ordered cons _ ts) eqn:Hord; [|discriminate].
    simpl. intros [= <-]. exists (l ++ [call_value c]).
    assert (Hnf : size_add (latest heads) 1 mod cap
                  ≠ match cpc with
                    | CPopDestroyed tail => size_add tail 1 mod cap
                    | _ => latest tails
                    end).
    { intros Hfull. pose proof (inv_full _ _ Hring Hfull) as Hlen.
      simpl in Hlen. destruct cpc; lia. }
    pose proof (inserted_at_inv _ _ (call_value c) Hring Hnf) as Hring'.
    rsplit; [exact Hring'|done|done| |done|done|lia|done|done|done| |done
            |by apply fifo_construct].
    + rewrite length_app. simpl. lia.
    + intros s n [[<- <-]|[_ Hs]]%lookup_insert_Some.
      * exists (length heads - 1)%nat. split_and!; [|lia|lia].
        rewrite Hlh. do 2 f_equal. lia.
      * destruct (Hprod s n Hs) as (e & ? & ? & ?). exists e.
        split_and!; [done|done|lia].
  - (* release store of head_ *)
    destruct Hp as (-> & ->). intros [= <-]. exists l.
    pose proof (counted_snoc _ _ Hcap Hheads) as Hheads'.
    rsplit; rewrite ?latest_snoc, ?length_app, ?app_nil_r; simpl;
      [done|done|done|lia|done|lia|lia|done|done|done| |done|done].
    intros s n Hs. destruct (Hprod s n Hs) as (e & ? & ? & ?). exists e.
    split_and!; [done|done|lia].
Qed.

(** While the consumer knows of an element that it has not removed, the
    settled queue is not empty. *)
Lemma rsettled_nonempty cfg l :
  rthreads_inv cfg l ->
  (length (m_tails (r_memory cfg)) <= r_head_seen cfg)%nat ->
  unreleased cfg = 0 ->
  exists v l', l = v :: l'
    /\ block_cells (m_slots (r_memory cfg))
         !! size_add (latest (m_tails (r_memory cfg))) (kPadding T) = Some v
    /\ ring_inv (removed_at (rsettled cfg)) l'.
Proof.
  intros Hinv Hseen Hrel.
  pose proof (ri_count _ _ Hinv) as Hcount.
  pose proof (ri_head_seen _ _ Hinv) as Hhs.
  pose proof (ri_ring _ _ Hinv) as Hring.
  assert (Hne : head_ (rsettled cfg) ≠ tail_ (rsettled cfg)).
  { intros Heq%(inv_empty _ _ Hring). subst l. simpl in Hcount.
    unfold unpublished in Hcount. destruct (r_producer cfg); lia. }
  destruct (removed_at_inv _ _ Hring Hne) as (v & l' & -> & Hv & Hring').
  exists v, l'. split; [done|]. split; [|done].
  unfold rsettled, unreleased in *. simpl in Hv.
  by destruct (r_consumer cfg).
Qed.

Lemma rconsumer_step_inv lag cfg l cfg' :
  rthreads_inv cfg l -> rconsumer_step lag cfg = Some cfg' ->
  exists l', rthreads_inv cfg' l'.
Proof.
  intros Hinv.
  pose proof (fun Hs Hr => rsettled_nonempty cfg l Hinv Hs Hr) as Hlive.
  revert Hinv Hlive.
  destruct cfg as [[cap blk heads tails prod cons] ppc ins ts cpc rems hs tr].
  intros [Hring Hheads Htails Hcount Hts Hhs Hahead Hbehind Hp Hc Hprod Hcons
            Hfifo] Hlive.
  unfold rconsumer_step, rproducer_ok, rconsumer_ok, unpublished, unreleased
    in *; simpl in *.
  pose proof (inv_capacity _ _ Hring) as Hcap. simpl in Hcap.
  destruct (latest_counted _ _ Hheads) as [Hlh Hlenh].
  destruct (latest_counted _ _ Htails) as [Hlt Hlent].
  assert (Hweaker : forall i : nat, (hs <= i)%nat ->
            forall s n, cons !! s = Some n ->
            exists e : nat, s = size_add (Z.of_nat e mod cap) (kPadding T)
              /\ n = S e /\ (S e <= i)%nat).
  { intros i Hi s n Hs. destruct (Hcons s n Hs) as (e & ? & ? & ?).
    exists e. split_and!; [done|done|lia]. }
  assert (Hfound : forall i : nat, (hs <= i < length heads)%nat ->
            Z.of_nat i mod cap ≠ latest tails ->
            match cpc with CPopDestroyed _ => False | _ => True end ->
            (length tails <= i)%nat).
  { intros i Hi Hne Hcpc.
    destruct (decide (length tails = S i)) as [E|E]; [|destruct cpc; lia].
    exfalso. apply Hne. rewrite Hlt. f_equal. lia. }
  destruct cpc as [|tail|p|tail|tail|tail].
  - (* the call starts: relaxed load of tail_ *)
    destruct rems as [|[] rems]; intros [= <-]; exists l;
      (rsplit; [done..|by rewrite ?app_nil_r]).
  - (* front: acquire load of head_ *)
    subst tail.
    destruct (acquire_counted _ _ hs lag _ _ Hheads Hhs eq_refl) as [Hi Hx].
    rewrite Hx. clear Hx.
    set (i := (hs `max` (length heads - 1 - lag))%nat) in *.
    intros [= <-]. exists l.
    rsplit; [done|done|done|done|done|lia|done|lia|done| |done|apply Hweaker; lia
            |by rewrite ?app_nil_r].
    destruct (Z.eqb_spec (Z.of_nat i mod cap) (latest tails)) as [Heq|Hne];
      [by left|right]. split; [done|]. apply Hfound; (done || lia).
  - (* front: read through the pointer *)
    destruct p as [p|].
    + destruct (ordered prod p hs) eqn:Hord; [|discriminate].
      intros [= <-]. exists l.
      destruct Hc as [[=]|[[= ->] Hseen]].
      destruct (Hlive Hseen eq_refl) as (v & l' & -> & Hv & _).
      simpl in Hv.
      rsplit; [done|done|done|done|done|done|done|done|done|done|done| |].
      * intros s n [[<- <-]|[_ Hs]]%lookup_insert_Some; [|by apply Hcons].
        exists (length tails - 1)%nat. split_and!; [|lia|lia].
        rewrite Hlt. do 2 f_equal. lia.
      * apply fifo_front; [done|]. rewrite Hv. by intros ? [= <-].
    + intros [= <-]. exists l.
      rsplit; [done..|]. by apply fifo_front.
  - (* pop: acquire load of head_ and assertion *)
    subst tail.
    destruct (acquire_counted _ _ hs lag _ _ Hheads Hhs eq_refl) as [Hi Hx].
    rewrite Hx. clear Hx.
    set (i := (hs `max` (length heads - 1 - lag))%nat) in *.
    destruct (Z.eqb_spec (Z.of_nat i mod cap) (latest tails)) as [Heq|Hne];
      [discriminate|].
    intros [= <-]. exists l.
    rsplit; [done|done|done|done|done|lia|done|lia|done| |done|apply Hweaker; lia
            |by rewrite ?app_nil_r].
    split; [done|]. apply Hfound; (done || lia).
  - (* pop: destructor call *)
    destruct Hc as [-> Hseen].
    destruct (in_bounds blk _) eqn:Hin; [|discriminate].
    destruct (ordered prod _ hs) eqn:Hord; [|discriminate].
    simpl. intros [= <-].
    destruct (Hlive Hseen eq_refl) as (v & l' & -> & Hv & Hring').
    simpl in Hv. rewrite Hv. exists l'.
    rsplit; [exact Hring'|done|done| |done|done|done|lia|done|done|done|
            |by apply fifo_destroy].
    + simpl in Hcount. lia.
    + intros s n [[<- <-]|[_ Hs]]%lookup_insert_Some; [|by apply Hcons].
      exists (length tails - 1)%nat. split_and!; [|lia|lia].
      rewrite Hlt. do 2 f_equal. lia.
  - (* pop: release store of tail_ *)
    subst tail. intros [= <-]. exists l.
    pose proof (counted_snoc _ _ Hcap Htails) as Htails'.
    rsplit; rewrite ?latest_snoc, ?length_app, ?app_nil_r; simpl;
      [done|done|done|lia|lia|done|done|lia|done|done|done|done|done].
Qed.
End RInvariant.

Section RProgress.
Context {T : Type} `{Sized T}.
Implicit Types (v : T) (l : list T) (cfg : rconfig T).

Lemma rstep_inv t lag cfg l cfg' :
  rthreads_inv cfg l -> rstep t lag cfg = Some cfg' ->
  exists l', rthreads_inv cfg' l'.
Proof.
  destruct t; [apply rproducer_step_inv|apply rconsumer_step_inv].
Qed.

Lemma rinterleave_inv sched : forall cfg l cfg',
  rthreads_inv cfg l -> rinterleave sched cfg = Some cfg' ->
  exists l', rthreads_inv cfg' l'.
Proof.
  induction sched as [|[t lag] sched IH]; intros cfg l cfg' Hinv;
    cbn [rinterleave].
  - intros [= <-]. eauto.
  - destruct (rstep t lag cfg) as [cfg1|] eqn:Hstep; [|discriminate].
    intros Hrest. destruct (rstep_inv _ _ _ _ _ Hinv Hstep) as [l1 Hinv1].
    by eapply IH.
Qed.

(** No access changes the capacity or the size of the block; the stores to
    an index are only ever added to. *)
Lemma rstep_frame t lag cfg cfg' :
  rstep t lag cfg = Some cfg' ->
  m_capacity (r_memory cfg') = m_capacity (r_memory cfg)
  /\ block_bytes (m_slots (r_memory cfg'))
     = block_bytes (m_slots (r_memory cfg))
  /\ m_heads (r_memory cfg) `prefix_of` m_heads (r_memory cfg')
  /\ m_tails (r_memory cfg) `prefix_of` m_tails (r_memory cfg').
Proof.
  destruct cfg as [[cap blk heads tails prod cons] ppc ins ts cpc rems hs tr].
  destruct t; unfold rstep, rproducer_step, rconsumer_step; simpl.
  - destruct ppc as [|c h n|c h n|c h n]; [destruct ins| | |];
      repeat match goal with
        | |- context [if ?b then _ else _] => destruct b
        | |- context [match ?c with PEmplace _ => _ | _ => _ end] => destruct c
        end; simpl; intros [= <-]; simpl; split_and!;
      try done; by apply prefix_app_r.
  - destruct cpc as [|t|[p|]|t|t|t]; [destruct rems as [|[] ?]| | | | | |];
      repeat match goal with
        | |- context [if ?b then _ else _] => destruct b
        end; simpl; intros [= <-]; simpl; split_and!;
      try done; by apply prefix_app_r.
Qed.

Lemma rinterleave_frame sched : forall cfg cfg',
  rinterleave sched cfg = Some cfg' ->
  m_capacity (r_memory cfg') = m_capacity (r_memory cfg)
  /\ block_bytes (m_slots (r_memory cfg'))
     = block_bytes (m_slots (r_memory cfg))
  /\ m_heads (r_memory cfg) `prefix_of` m_heads (r_memory cfg')
  /\ m_tails (r_memory cfg) `prefix_of` m_tails (r_memory cfg').
Proof.
  induction sched as [|[t lag] sched IH]; intros cfg cfg'; cbn [rinterleave].
  - by intros [= <-].
  - destruct (rstep t lag cfg) as [cfg1|] eqn:Hstep; [|discriminate].
    intros (Hc & Hb & Hh & Ht)%IH.
    destruct (rstep_frame _ _ _ _ Hstep) as (Hc1 & Hb1 & Hh1 & Ht1).
    split_and!; [congruence|congruence|by etrans|by etrans].
Qed.

(** The last access of the consumer to the slot in which the producer is
    about to construct happens before the construction. *)
Lemma producer_slot_ordered cfg l c h n :
  rthreads_inv cfg l -> r_producer cfg = PRoomFound c h n ->
  ordered (m_consumed (r_memory cfg)) (size_add h (kPadding T))
    (r_tail_seen cfg) = true.
Proof.
  destruct cfg as [[cap blk heads tails prod cons] ppc ins ts cpc rems hs tr].
  intros [Hring Hheads Htails Hcount Hts Hhs Hahead Hbehind Hp Hc Hprod Hcons
            Hfifo] Hpc.
  unfold rproducer_ok, unpublished, unreleased in *; simpl in *. subst ppc.
  pose proof (inv_capacity _ _ Hring) as Hcap. simpl in Hcap.
  destruct (latest_counted _ _ Hheads) as [Hlh Hlenh].
  destruct Hp as (-> & -> & Hroom). unfold ordered.
  destruct (cons !! _) as [m|] eqn:Hm; [|done].
  destruct (Hcons _ _ Hm) as (e & Hs & -> & He).
  rewrite Hlh in Hs. apply slot_congruent in Hs; [|done].
  apply Nat.leb_le.
  destruct (Z_lt_le_dec (Z.of_nat (length heads) - 1)
              (Z.of_nat e + cap)) as [Hlt|Hge]; [|lia].
  pose proof (mod_eq_le _ _ cap ltac:(lia) Hs Hlt). lia.
Qed.

(** The last access of the producer to the slot of an element that the
    consumer knows to be published happens before what the consumer does
    with it. *)
Lemma consumer_slot_ordered cfg l :
  rthreads_inv cfg l ->
  (length (m_tails (r_memory cfg)) <= r_head_seen cfg)%nat ->
  ordered (m_produced (r_memory cfg))
    (size_add (latest (m_tails (r_memory cfg))) (kPadding T))
    (r_head_seen cfg) = true.
Proof.
  destruct cfg as [[cap blk heads tails prod cons] ppc ins ts cpc rems hs tr].
  intros [Hring Hheads Htails Hcount Hts Hhs Hahead Hbehind Hp Hc Hprod Hcons
            Hfifo] Hseen.
  unfold unpublished, unreleased in *; simpl in *.
  pose proof (inv_capacity _ _ Hring) as Hcap. simpl in Hcap.
  destruct (latest_counted _ _ Htails) as [Hlt Hlent]. unfold ordered.
  destruct (prod !! _) as [m|] eqn:Hm; [|done].
  destruct (Hprod _ _ Hm) as (e & Hs & -> & He).
  rewrite Hlt in Hs. symmetry in Hs. apply slot_congruent in Hs; [|done].
  apply Nat.leb_le.
  assert (Z.of_nat e < Z.of_nat (length tails) - 1 + cap)
    by (destruct ppc; lia).
  pose proof (mod_eq_le _ _ cap ltac:(lia) Hs ltac:(done)). lia.
Qed.

(** In a block of the intended size no access of the producer is a data
    race or lies outside the block. *)
Lemma rproducer_progress lag cfg l :
  rthreads_inv cfg l -> spacious (rsettled cfg) ->
  is_Some (rproducer_step lag cfg).
Proof.
  intros Hinv Hsp.
  pose proof (fun c h n => producer_slot_ordered cfg l c h n Hinv) as Hord.
  revert Hinv Hsp Hord.
  destruct cfg as [[cap blk heads tails prod cons] ppc ins ts cpc rems hs tr].
  intros [Hring Hheads Htails Hcount Hts Hhs Hahead Hbehind Hp Hc Hprod Hcons
            Hfifo] Hsp Hord.
  unfold rproducer_step, rproducer_ok, spacious in *; simpl in *.
  pose proof (inv_capacity _ _ Hring) as Hcap. simpl in Hcap.
  destruct (latest_counted _ _ Hheads) as [Hlh Hlenh].
  destruct ppc as [|c h n|c h n|c h n]; [destruct ins| | |]; try by eexists.
  - destruct (_ =? _); [destruct c|]; by eexists.
  - destruct Hp as (-> & -> & Hroom).
    pose proof (Z.mod_pos_bound (Z.of_nat (length heads) - 1) cap
                  ltac:(lia)) as Hrange.
    destruct (spacious_in_bounds
                (mkSPSCQueue cap blk (latest heads) 0) (latest heads))
      as [Hin _]; [done|simpl; lia|]. simpl in Hin.
    rewrite Hin, (Hord _ _ _ eq_refl). by eexists.
Qed.

(** Nor is any access of the consumer; the assertion of [pop] holds when
    the consumer has read a store to [head_] that published an element it
    has not removed. *)
Lemma rconsumer_progress lag cfg l :
  rthreads_inv cfg l -> spacious (rsettled cfg) ->
  (forall tail, r_consumer cfg = CPopTailLoaded tail ->
     (length (m_tails (r_memory cfg)) <= r_head_seen cfg)%nat) ->
  is_Some (rconsumer_step lag cfg).
Proof.
  intros Hinv Hsp Hpop.
  pose proof (consumer_slot_ordered cfg l Hinv) as Hord.
  revert Hinv Hsp Hpop Hord.
  destruct cfg as [[cap blk heads tails prod cons] ppc ins ts cpc rems hs tr].
  intros [Hring Hheads Htails Hcount Hts Hhs Hahead Hbehind Hp Hc Hprod Hcons
            Hfifo] Hsp Hpop Hord.
  unfold rconsumer_step, rconsumer_ok, unpublished, unreleased, spacious in *;
    simpl in *.
  pose proof (inv_capacity _ _ Hring) as Hcap. simpl in Hcap.
  destruct (latest_counted _ _ Htails) as [Hlt Hlent].
  pose proof (Z.mod_pos_bound (Z.of_nat (length tails) - 1) cap
                ltac:(lia)) as Hrange.
  destruct cpc as [|t|[p|]|t|t|t]; [destruct rems as [|[] ?]| | | | | |];
    try by eexists.
  - destruct Hc as [[=]|[[= ->] Hseen]]. rewrite (Hord Hseen). by eexists.
  - subst t. specialize (Hpop _ eq_refl).
    destruct (acquire_counted _ _ hs lag _ _ Hheads Hhs eq_refl) as [Hi Hx].
    rewrite Hx. clear Hx.
    set (i := (hs `max` (length heads - 1 - lag))%nat) in *.
    destruct (Z.eqb_spec (Z.of_nat i mod cap) (latest tails)) as [Heq|Hne];
      [|by eexists].
    exfalso. rewrite Hlt in Heq.
    assert (Z.of_nat i < Z.of_nat (length tails) - 1 + cap)
      by (destruct ppc; lia).
    pose proof (mod_eq_le _ _ cap ltac:(lia) Heq ltac:(done)). lia.
  - destruct Hc as [-> Hseen].
    destruct (spacious_in_bounds
                (mkSPSCQueue cap blk 0 (latest tails)) (latest tails))
      as [Hin _]; [done|simpl; lia|]. simpl in Hin.
    rewrite Hin, (Hord Hseen). by eexists.
Qed.
End RProgress.

Section RFrames.
Context {T : Type} `{Sized T}.
Implicit Types (v : T) (l : list T) (cfg : rconfig T).

(** What one access of the producer leaves alone: all that is the
    consumer's, and every slot but a dead one. *)
Lemma rproducer_step_frame lag cfg l cfg' :
  rthreads_inv cfg l -> rproducer_step lag cfg = Some cfg' ->
  r_consumer cfg' = r_consumer cfg
  /\ r_removes cfg' = r_removes cfg
  /\ r_head_seen cfg' = r_head_seen cfg
  /\ m_tails (r_memory cfg') = m_tails (r_memory cfg)
  /\ removed (r_trace cfg') = removed (r_trace cfg)
  /\ forall i, block_cells (m_slots (r_memory cfg)) !! i = None
       \/ block_cells (m_slots (r_memory cfg')) !! i
          = block_cells (m_slots (r_memory cfg)) !! i.
Proof.
  intros Hinv.
  pose proof (head_slot_dead _ _ (ri_ring _ _ Hinv)) as Hdead.
  pose proof (ri_producer _ _ Hinv) as Hp. revert Hdead Hp.
  destruct cfg as [[cap blk heads tails prod cons] ppc ins ts cpc rems hs tr].
  unfold rproducer_step, rproducer_ok; simpl. intros Hdead Hp.
  destruct ppc as [|c h n|c h n|c h n]; [destruct ins| | |];
    repeat match goal with
      | |- context [if ?b then _ else _] => destruct b
      | |- context [match ?c with PEmplace _ => _ | _ => _ end] => destruct c
      end; simpl; intros [= <-]; simpl; rewrite ?app_nil_r;
    split_and!; try done; try (intros i; by right).
  - by rewrite removed_app, app_nil_r.
  - destruct Hp as (-> & _). intros i.
    destruct (decide (i = size_add (latest heads) (kPadding T))) as [->|Hne];
      [by left|right; by rewrite lookup_insert_ne].
Qed.

(** What one access of the consumer leaves alone. *)
Lemma rconsumer_step_frame lag cfg cfg' :
  rconsumer_step lag cfg = Some cfg' ->
  r_producer cfg' = r_producer cfg
  /\ r_inserts cfg' = r_inserts cfg
  /\ r_tail_seen cfg' = r_tail_seen cfg
  /\ m_heads (r_memory cfg') = m_heads (r_memory cfg)
  /\ inserted (r_trace cfg') = inserted (r_trace cfg).
Proof.
  destruct cfg as [[cap blk heads tails prod cons] ppc ins ts cpc rems hs tr].
  unfold rconsumer_step; simpl.
  destruct cpc as [|t|[p|]|t|t|t]; [destruct rems as [|[] ?]| | | | | |];
    repeat match goal with
      | |- context [if ?b then _ else _] => destruct b
      end; simpl; intros [= <-]; simpl; rewrite ?app_nil_r;
    split_and!; try done; by rewrite inserted_app, app_nil_r.
Qed.

(** Accesses of the producer leave the element behind a pointer returned by
    [front] alone. *)
Lemma rproducer_steps_keep_front lags : forall cfg l p w cfg',
  rthreads_inv cfg l -> r_consumer cfg = CFrontReturned (Some p) ->
  block_cells (m_slots (r_memory cfg)) !! p = Some w ->
  rinterleave (map (pair Producer) lags) cfg = Some cfg' ->
  r_consumer cfg' = CFrontReturned (Some p)
  /\ block_cells (m_slots (r_memory cfg')) !! p = Some w
  /\ exists l', rthreads_inv cfg' l'.
Proof.
  induction lags as [|lag lags IH]; intros cfg l p w cfg' Hinv Hp Hw;
    cbn [rinterleave map rstep].
  { intros [= <-]. eauto. }
  destruct (rproducer_step lag cfg) as [cfg1|] eqn:Hstep; [|discriminate].
  intros Hrest.
  destruct (rproducer_step_frame _ _ _ _ Hinv Hstep)
    as (Hc1 & _ & _ & _ & _ & Hcells).
  destruct (rproducer_step_inv _ _ _ _ Hinv Hstep) as (l1 & Hinv1).
  rewrite Hp in Hc1.
  apply (IH cfg1 l1 p w cfg' Hinv1 Hc1); [|done].
  destruct (Hcells p) as [Hnone|Heq]; [congruence|by rewrite Heq].
Qed.

(** When the producer finds the queue full, it has read the last store to
    [tail_]. *)
Lemma full_seen cfg l c h n :
  rthreads_inv cfg l -> r_producer cfg = PHeadLoaded c h n ->
  n = latest (m_tails (r_memory cfg)) ->
  r_tail_seen cfg = (length (m_tails (r_memory cfg)) - 1)%nat.
Proof.
  destruct cfg as [[cap blk heads tails prod cons] ppc ins ts cpc rems hs tr].
  intros [Hring Hheads Htails Hcount Hts Hhs Hahead Hbehind Hp Hc Hprod Hcons
            Hfifo] Hpc Hfull.
  unfold rproducer_ok, unpublished, unreleased in *; simpl in *. subst ppc.
  pose proof (inv_capacity _ _ Hring) as Hcap. simpl in Hcap.
  destruct (latest_counted _ _ Hheads) as [Hlh Hlenh].
  destruct (latest_counted _ _ Htails) as [Hlt Hlent].
  destruct Hp as (-> & ->). rewrite Hlh, Hlt, next_counted in Hfull by done.
  destruct (decide (ts = (length tails - 1)%nat)) as [E|E]; [done|].
  assert (Hlt' : Z.of_nat (length heads)
                 < Z.of_nat (length tails) - 1 + cap) by lia.
  pose proof (mod_eq_le _ _ cap ltac:(lia) Hfull Hlt').
  destruct cpc; lia.
Qed.

(** As long as [tail_] is not stored to, a producer that found the queue
    full stays in the loop of [emplace] and nothing is constructed. *)
Lemma rspin sched : forall cfg l v h n cfg',
  rthreads_inv cfg l -> r_producer cfg = PHeadLoaded (PEmplace v) h n ->
  n = latest (m_tails (r_memory cfg)) ->
  rinterleave sched cfg = Some cfg' ->
  m_tails (r_memory cfg') = m_tails (r_memory cfg) ->
  r_producer cfg' = PHeadLoaded (PEmplace v) h n
  /\ r_inserts cfg' = r_inserts cfg
  /\ m_heads (r_memory cfg') = m_heads (r_memory cfg)
  /\ inserted (r_trace cfg') = inserted (r_trace cfg).
Proof.
  induction sched as [|[t lag] sched IH]; intros cfg l v h n cfg' Hinv Hpc Hfull;
    cbn [rinterleave].
  { by intros [= <-]. }
  destruct (rstep t lag cfg) as [cfg1|] eqn:Hstep; [|discriminate].
  intros Hrest Htails.
  destruct (rstep_inv _ _ _ _ _ Hinv Hstep) as (l1 & Hinv1).
  destruct (rstep_frame _ _ _ _ Hstep) as (_ & _ & _ & Hpre1).
  destruct (rinterleave_frame _ _ _ Hrest) as (_ & _ & _ & Hpre2).
  assert (Htails1 : m_tails (r_memory cfg1) = m_tails (r_memory cfg)).
  { symmetry. apply prefix_length_eq; [done|].
    apply prefix_length in Hpre2. rewrite Htails in Hpre2. done. }
  assert (Hsame : r_producer cfg1 = PHeadLoaded (PEmplace v) h n
                  /\ r_inserts cfg1 = r_inserts cfg
                  /\ m_heads (r_memory cfg1) = m_heads (r_memory cfg)
                  /\ inserted (r_trace cfg1) = inserted (r_trace cfg)).
  { destruct t; simpl in Hstep.
    - pose proof (full_seen _ _ _ _ _ Hinv Hpc Hfull) as Hseen.
      pose proof (ri_tails _ _ Hinv) as Hcnt.
      destruct (latest_counted _ _ Hcnt) as [_ Hlen].
      revert Hpc Hstep Hseen Hfull Hlen. clear.
      destruct cfg as [[cap blk heads tails prod cons] ppc ins ts cpc rems hs
                         tr]. simpl. intros ->.
      unfold rproducer_step; simpl. intros Hstep -> -> Hlen.
      replace ((length tails - 1) `max` (length tails - 1 - lag))%nat
        with (length tails - 1)%nat in Hstep by lia.
      assert (Hl : latest tails
                   = default 0 (tails !! (length tails - 1)%nat)).
      { unfold latest. rewrite last_lookup. do 2 f_equal. lia. }
      rewrite Hl, Z.eqb_refl in Hstep. injection Hstep as <-. simpl.
      by rewrite Hl, app_nil_r.
    - destruct (rconsumer_step_frame _ _ _ Hstep) as (-> & -> & _ & -> & ->).
      done. }
  destruct Hsame as (Hpc1 & Hins1 & Hheads1 & Htr1).
  destruct (IH cfg1 l1 v h n cfg' Hinv1 Hpc1) as (? & ? & ? & ?);
    [congruence|done|congruence|].
  split_and!; congruence.
Qed.
End RFrames.

Section RReached.
Context {T : Type} `{Sized T}.
Implicit Types (v : T) (l : list T) (cfg : rconfig T).

Lemma rreached_inv available c q0 sched inserts removes cfg :
  is_size_t c -> construct T available c = Constructed q0 ->
  rinterleave sched (rstart q0 inserts removes) = Some cfg ->
  exists l, rthreads_inv cfg l.
Proof.
  intros Hc Hq Hrun.
  exact (rinterleave_inv sched _ _ _
           (rstart_inv _ _ _ inserts removes Hc Hq) Hrun).
Qed.

Lemma rreached_spacious available c q0 sched inserts removes cfg :
  is_size_t c -> sizeof T * (c + 2 * kPadding T) <= SIZE_MAX ->
  construct T available c = Constructed q0 ->
  rinterleave sched (rstart q0 inserts removes) = Some cfg ->
  spacious (rsettled cfg).
Proof.
  intros Hc Hfit Hq Hrun.
  pose proof (construct_spacious _ _ _ Hc Hfit Hq) as Hsp.
  destruct (rinterleave_frame _ _ _ Hrun) as (Hcap & Hbytes & _).
  unfold spacious in *. simpl in *. by rewrite Hcap, Hbytes.
Qed.

(** A producer in the loop of [emplace] whose load reads a store to [tail_]
    that leaves room constructs the element and stores [head_]. *)
Lemma rresume cfg l v h n lag1 lag2 :
  rthreads_inv cfg l -> spacious (rsettled cfg) ->
  r_producer cfg = PHeadLoaded (PEmplace v) h n ->
  n ≠ latest (m_tails (r_memory cfg)) ->
  exists cfg',
    rinterleave [(Producer, 0%nat); (Producer, lag1); (Producer, lag2)] cfg
    = Some cfg'
    /\ r_producer cfg' = PIdle
    /\ r_inserts cfg' = r_inserts cfg
    /\ r_trace cfg'
       = r_trace cfg ++ [ObsEvent (Construct (size_add h (kPadding T)) v)]
    /\ m_heads (r_memory cfg') = m_heads (r_memory cfg) ++ [n]
    /\ block_cells (m_slots (r_memory cfg')) !! size_add h (kPadding T)
       = Some v.
Proof.
  intros Hinv Hsp Hpc Hroom.
  assert (Hstep1 : rproducer_step 0 cfg
                   = Some (producer_at (PRoomFound (PEmplace v) h n)
                             (r_inserts cfg)
                             (length (m_tails (r_memory cfg)) - 1)
                             (r_memory cfg) [] cfg)).
  { pose proof (ri_tail_seen _ _ Hinv) as Hts.
    revert Hpc Hroom Hts. clear.
    destruct cfg as [[cap blk heads tails prod cons] ppc ins ts cpc rems hs
                       tr]. simpl. intros -> Hroom Hts.
    unfold rproducer_step; simpl.
    replace (ts `max` (length tails - 1 - 0))%nat
      with (length tails - 1)%nat by lia.
    assert (Hl : latest tails
                 = default 0 (tails !! (length tails - 1)%nat)).
    { unfold latest. rewrite last_lookup. do 2 f_equal. lia. }
    rewrite <-Hl. by rewrite (proj2 (Z.eqb_neq _ _) Hroom). }
  destruct (rproducer_step_inv _ _ _ _ Hinv Hstep1) as (l1 & Hinv1).
  pose proof (producer_slot_ordered _ _ _ _ _ Hinv1 eq_refl) as Hord.
  pose proof (ri_producer _ _ Hinv) as Hp.
  pose proof (ri_ring _ _ Hinv) as Hring.
  revert Hpc Hstep1 Hord Hp Hring Hsp. clear.
  destruct cfg as [[cap blk heads tails prod cons] ppc ins ts cpc rems hs tr].
  unfold rproducer_ok, spacious; simpl. intros -> Hstep1 Hord (-> & ->) Hring Hsp.
  pose proof (inv_head _ _ Hring) as Hh. simpl in Hh.
  destruct (spacious_in_bounds
              (mkSPSCQueue cap blk (latest heads) 0) (latest heads))
    as [Hin _]; [done|done|]. simpl in Hin.
  eexists. split.
  { cbn [rinterleave rstep]. rewrite Hstep1. unfold producer_at; simpl.
    unfold rproducer_step at 1; simpl. rewrite Hin, Hord. simpl.
    reflexivity. }
  simpl. rewrite !app_nil_r, lookup_insert_eq. done.
Qed.
End RReached.

Section RPointers.
Context {T : Type} `{Sized T}.
Implicit Types (v : T) (l : list T) (cfg : rconfig T).

(** The pointer that [front] returned points to the oldest element. *)
Lemma rfront_pointer_live cfg l p :
  rthreads_inv cfg l -> r_consumer cfg = CFrontReturned (Some p) ->
  exists w, block_cells (m_slots (r_memory cfg)) !! p = Some w
    /\ head l = Some w
    /\ ordered (m_produced (r_memory cfg)) p (r_head_seen cfg) = true.
Proof.
  intros Hinv Hp. pose proof (ri_consumer _ _ Hinv) as Hc.
  unfold rconsumer_ok in Hc. rewrite Hp in Hc.
  destruct Hc as [[=]|[[= ->] Hseen]].
  assert (Hrel : unreleased cfg = 0) by (unfold unreleased; by rewrite Hp).
  destruct (rsettled_nonempty _ _ Hinv Hseen Hrel) as (w & l' & -> & Hw & _).
  exists w. split; [done|]. split; [done|].
  by eapply consumer_slot_ordered.
Qed.

(** The producer constructs in a slot without a live element. *)
Lemma rproducer_constructs_dead lag cfg l cfg' i v :
  rthreads_inv cfg l -> rproducer_step lag cfg = Some cfg' ->
  r_trace cfg' = r_trace cfg ++ [ObsEvent (Construct i v)] ->
  block_cells (m_slots (r_memory cfg)) !! i = None
  /\ block_cells (m_slots (r_memory cfg')) !! i = Some v
  /\ ordered (m_consumed (r_memory cfg)) i (r_tail_seen cfg) = true.
Proof.
  intros Hinv Hstep Htr.
  pose proof (head_slot_dead _ _ (ri_ring _ _ Hinv)) as Hdead.
  pose proof (ri_producer _ _ Hinv) as Hp.
  pose proof (fun c h n => producer_slot_ordered cfg l c h n Hinv) as Hord.
  revert Hstep Htr Hdead Hp Hord. clear.
  destruct cfg as [[cap blk heads tails prod cons] ppc ins ts cpc rems hs tr].
  unfold rproducer_step, rproducer_ok, rsettled; simpl.
  destruct ppc as [|c h n|c h n|c h n]; [destruct ins| | |]; simpl;
    repeat match goal with
      | |- context [if ?b then _ else _] => destruct b
      | |- context [match ?c with PEmplace _ => _ | _ => _ end] => destruct c
      end; simpl; try discriminate; intros [= <-]; simpl;
    intros Htr;
    try (apply (f_equal length) in Htr; rewrite ?length_app in Htr;
         simpl in Htr; lia).
  apply app_inv_head in Htr. injection Htr as <- <-.
  intros Hdead (-> & _) Hord.
  split; [done|]. split; [apply lookup_insert_eq|]. by eapply Hord.
Qed.
End RPointers.

(** ** States of the two threads that are reached *)

Lemma waiting_config_reached :
  rinterleave
    (always_fresh (replicate 13 Producer ++ replicate 4 Consumer))
    (rstart queue4
       [PEmplace "A"%byte; PEmplace "B"%byte; PEmplace "C"%byte;
        PEmplace "D"%byte] [CPop])
  = Some waiting_config.
Proof. vm_compute. reflexivity. Qed.

Lemma front_config_reached :
  rinterleave
    (always_fresh [Producer; Producer; Producer; Producer; Consumer; Consumer])
    (rstart queue4 [PTryEmplace "A"%byte; PTryEmplace "B"%byte] [CFront])
  = Some front_config.
Proof. vm_compute. reflexivity. Qed.

Lemma room_config_reached :
  rinterleave (always_fresh [Producer; Producer])
    (rstart queue4 [PTryEmplace "A"%byte] [CFront])
  = Some room_config.
Proof. vm_compute. reflexivity. Qed.

Lemma constructed_config_reached :
  rinterleave (always_fresh [Producer; Producer; Producer])
    (rstart queue4 [PTryEmplace "A"%byte] [CFront])
  = Some constructed_config.
Proof. vm_compute. reflexivity. Qed.

(** ** The properties *)

(** X1 (blocking insert).  [push] is [emplace].  Run without a consumer,
    [emplace] returns exactly when [try_emplace] returns true, and then
    leaves the same object behind after the same construction; when
    [try_emplace] reports a full queue, [emplace] keeps loading [tail_]
    however often it is allowed to, and never returns; it constructs outside
    the block exactly when [try_emplace] does; it contains no assertion. *)
Theorem emplace_is_try_emplace_with_room {T : Type} `{Sized T}
    (fuel : nat) (v : T) (q : SPSCQueue T) :
  push (S fuel) v q = emplace (S fuel) v q
  /\ (forall q' log,
        emplace (S fuel) v q = Ret tt q' log
        <-> try_emplace v q = Ret true q' log)
  /\ (emplace (S fuel) v q = OutOfFuel <-> try_emplace v q = Ret false q [])
  /\ (emplace (S fuel) v q = OutOfBounds <-> try_emplace v q = OutOfBounds)
  /\ emplace (S fuel) v q <> AssertFailed.
Proof.
  unfold push. rewrite emplace_eq, try_emplace_eq.
  destruct (_ =? _); [|destruct (in_bounds _ _)];
    split_and!; try done; try intros q' log; split; try done;
    by intros [= <- <-].
Qed.

(** X2 (a blocked insert resumes once it reads the store of a removal).
    The producer is in the loop of [emplace], under the memory orders of the
    source.  A load of [tail_] that reads a store leaving no room, which may
    be an old one, puts it back in the loop with nothing changed.  While no
    store to [tail_] leaves room, it stays in the loop whatever the two
    threads do, stores nothing to [head_] and constructs nothing.  Once
    [pop] has stored a [tail_] that leaves room and the load of the producer
    reads it, the producer constructs the element in the slot of [head_],
    without a data race on that slot, and stores the next [head_]. *)
Theorem emplace_waits_for_pop {T : Type} `{Sized T}
    (available : Z -> bool) (requested : Z) (q0 : SPSCQueue T)
    (sched : list (thread * nat)) (inserts : list (producer_call T))
    (removes : list consumer_call) (cfg : rconfig T) (v : T) (h n : Z) :
  is_size_t requested ->
  sizeof T * (requested + 2 * kPadding T) <= SIZE_MAX ->
  construct T available requested = Constructed q0 ->
  rinterleave sched (rstart q0 inserts removes) = Some cfg ->
  r_producer cfg = PHeadLoaded (PEmplace v) h n ->
  (forall lag,
     (acquire (m_tails (r_memory cfg)) (r_tail_seen cfg) lag).2 = n ->
     exists cfg',
       rstep Producer lag cfg = Some cfg'
       /\ r_producer cfg' = PHeadLoaded (PEmplace v) h n
       /\ r_memory cfg' = r_memory cfg
       /\ r_trace cfg' = r_trace cfg)
  /\ (n = latest (m_tails (r_memory cfg)) ->
      forall sched' cfg',
        rinterleave sched' cfg = Some cfg' ->
        m_tails (r_memory cfg') = m_tails (r_memory cfg) ->
        r_producer cfg' = PHeadLoaded (PEmplace v) h n
        /\ r_inserts cfg' = r_inserts cfg
        /\ m_heads (r_memory cfg') = m_heads (r_memory cfg)
        /\ inserted (r_trace cfg') = inserted (r_trace cfg))
  /\ (n ≠ latest (m_tails (r_memory cfg)) ->
      forall lag1 lag2, exists cfg',
        rinterleave [(Producer, 0%nat); (Producer, lag1); (Producer, lag2)]
          cfg = Some cfg'
        /\ r_producer cfg' = PIdle
        /\ r_inserts cfg' = r_inserts cfg
        /\ r_trace cfg'
           = r_trace cfg ++ [ObsEvent (Construct (size_add h (kPadding T)) v)]
        /\ m_heads (r_memory cfg') = m_heads (r_memory cfg) ++ [n]
        /\ block_cells (m_slots (r_memory cfg')) !! size_add h (kPadding T)
           = Some v).
Proof.
  intros Hreq Hfit Hq0 Hrun Hpc.
  destruct (rreached_inv _ _ _ _ _ _ _ Hreq Hq0 Hrun) as (l & Hinv).
  pose proof (rreached_spacious _ _ _ _ _ _ _ Hreq Hfit Hq0 Hrun) as Hsp.
  split_and!.
  - intros lag Hread. revert Hpc Hread. clear.
    destruct cfg as [[cap blk heads tails prod cons] ppc ins ts cpc rems hs
                       tr]. simpl. intros -> Hread.
    unfold rproducer_step; simpl. rewrite Hread, Z.eqb_refl.
    eexists. split; [reflexivity|]. simpl. by rewrite app_nil_r.
  - intros Hfull sched' cfg' Hrun' Htails.
    by eapply rspin.
  - intros Hroom lag1 lag2. by eapply rresume.
Qed.

Lemma emplace_waits_for_pop_witness :
  is_size_t 4
  /\ sizeof byte * (4 + 2 * kPadding byte) <= SIZE_MAX
  /\ construct byte always_available 4 = Constructed queue4
  /\ rinterleave
       (always_fresh (replicate 13 Producer ++ replicate 4 Consumer))
       (rstart queue4
          [PEmplace "A"%byte; PEmplace "B"%byte; PEmplace "C"%byte;
           PEmplace "D"%byte] [CPop])
     = Some waiting_config
  /\ r_producer waiting_config = PHeadLoaded (PEmplace "D"%byte) 3 0
  /\ (exists cfg',
        rstep Producer 1 waiting_config = Some cfg'
        /\ r_producer cfg' = PHeadLoaded (PEmplace "D"%byte) 3 0
        /\ r_memory cfg' = r_memory waiting_config
        /\ r_trace cfg' = r_trace waiting_config)
  /\ (forall lag1 lag2, exists cfg',
        rinterleave [(Producer, 0%nat); (Producer, lag1); (Producer, lag2)]
          waiting_config = Some cfg'
        /\ r_producer cfg' = PIdle
        /\ r_inserts cfg' = r_inserts waiting_config
        /\ r_trace cfg'
           = r_trace waiting_config
             ++ [ObsEvent (Construct (size_add 3 (kPadding byte)) "D"%byte)]
        /\ m_heads (r_memory cfg') = m_heads (r_memory waiting_config) ++ [0]
        /\ block_cells (m_slots (r_memory cfg'))
             !! size_add 3 (kPadding byte) = Some "D"%byte).
Proof.
  assert (Hroom : 0 ≠ latest (m_tails (r_memory waiting_config)))
    by (vm_compute; discriminate).
  pose proof (emplace_waits_for_pop always_available 4 queue4 _ _ _
                waiting_config "D"%byte 3 0 is_size_t_4 queue4_fits
                construct_queue4 waiting_config_reached eq_refl)
    as (Hstale & _ & Hresume).
  refine (conj is_size_t_4 (conj queue4_fits (conj construct_queue4
            (conj waiting_config_reached (conj eq_refl
               (conj (Hstale 1%nat eq_refl) (Hresume Hroom))))))).
Defined.

(** X3 (the capacity is fixed at construction).  Whatever calls a client
    performs on a constructed queue, and whatever accesses the two threads
    perform under any schedule, [capacity()] returns the capacity that was
    given to the constructor, changes nothing, and the block keeps the size
    that was asked of [malloc]. *)
Theorem capacity_never_changes {T : Type} `{Sized T}
    (available : Z -> bool) (requested : Z) (q0 : SPSCQueue T) :
  construct T available requested = Constructed q0 ->
  (forall fuel cs obs q, run fuel cs q0 = Some (obs, q) ->
     capacity q = Ret requested q []
     /\ block_bytes (slots_ q) = malloc_size T requested)
  /\ (forall sched inserts removes cfg,
        interleave sched (start q0 inserts removes) = Some cfg ->
        capacity (cfg_queue cfg) = Ret requested (cfg_queue cfg) []
        /\ block_bytes (slots_ (cfg_queue cfg)) = malloc_size T requested).
Proof.
  intros (_ & _ & ->)%construct_eq. split.
  - intros fuel cs obs q [Hc Hb]%run_capacity.
    by rewrite capacity_eq, Hc, Hb.
  - intros sched ins rems cfg [Hc Hb]%interleave_capacity.
    by rewrite capacity_eq, Hc, Hb.
Qed.

Lemma capacity_never_changes_witness :
  construct byte always_available 4 = Constructed queue4
  /\ (forall fuel cs obs q, run fuel cs queue4 = Some (obs, q) ->
        capacity q = Ret 4 q []
        /\ block_bytes (slots_ q) = malloc_size byte 4)
  /\ (forall sched inserts removes cfg,
        interleave sched (start queue4 inserts removes) = Some cfg ->
        capacity (cfg_queue cfg) = Ret 4 (cfg_queue cfg) []
        /\ block_bytes (slots_ (cfg_queue cfg)) = malloc_size byte 4).
Proof.
  split; [reflexivity|].
  apply (capacity_never_changes always_available 4 queue4). reflexivity.
Defined.

(** X4 (the indices wrap around).  On a freshly constructed queue whose
    block has the intended size, [n] rounds of one [try_emplace] followed by
    one [pop] all succeed, for every [n]: each value is constructed and
    destroyed once, and both indices end at [n mod capacity_] with no live
    element left.  So after a multiple of [capacity_] rounds the object is
    exactly as it was constructed. *)
Theorem indices_wrap_around {T : Type} `{Sized T}
    (available : Z -> bool) (requested : Z) (q0 : SPSCQueue T)
    (fuel : nat) (v : T) (n : nat) :
  is_size_t requested ->
  sizeof T * (requested + 2 * kPadding T) <= SIZE_MAX ->
  construct T available requested = Constructed q0 ->
  exists obs,
    run fuel (concat (replicate n [CallTryEmplace v; CallPop])) q0
    = Some (obs,
            mkSPSCQueue requested (slots_ q0)
              (Z.of_nat n mod requested) (Z.of_nat n mod requested))
    /\ inserted obs = replicate n v /\ removed obs = replicate n v
    /\ (Z.of_nat n mod requested = 0 ->
        run fuel (concat (replicate n [CallTryEmplace v; CallPop])) q0
        = Some (obs, q0)).
Proof.
  intros Hreq Hfit Hq0.
  pose proof (construct_spacious _ _ _ Hreq Hfit Hq0) as Hsp.
  apply construct_eq in Hq0 as (Hc & _ & ->).
  destruct (rotation_run fuel v requested (malloc_size T requested) n 0)
    as (obs & Hrun & Hins & Hrem); [destruct Hreq; lia|exact Hsp|lia|].
  rewrite Z.add_0_l in Hrun. exists obs. split_and!; try done.
  intros Hz. by rewrite Hrun, Hz.
Qed.

Lemma indices_wrap_around_witness :
  is_size_t 4
  /\ sizeof byte * (4 + 2 * kPadding byte) <= SIZE_MAX
  /\ construct byte always_available 4 = Constructed queue4
  /\ exists obs,
       run 1 (concat (replicate 6 [CallTryEmplace "A"%byte; CallPop])) queue4
       = Some (obs,
               mkSPSCQueue 4 (slots_ queue4)
                 (Z.of_nat 6 mod 4) (Z.of_nat 6 mod 4))
       /\ inserted obs = replicate 6 "A"%byte
       /\ removed obs = replicate 6 "A"%byte
       /\ (Z.of_nat 6 mod 4 = 0 ->
           run 1 (concat (replicate 6 [CallTryEmplace "A"%byte; CallPop]))
             queue4
           = Some (obs, queue4)).
Proof.
  refine (conj is_size_t_4 (conj queue4_fits (conj construct_queue4 _))).
  exact (indices_wrap_around always_available 4 queue4 1 "A"%byte 6
           is_size_t_4 queue4_fits construct_queue4).
Defined.

(** X5 (a removal makes room, an insertion makes an element available).
    In a reachable state of a queue whose block has the intended size: after
    a [pop], [try_emplace] succeeds, also when the queue was full before;
    and after a successful [try_emplace], [front] returns the slot of
    [tail_] and [pop] passes its assertion and destroys the oldest element
    (the new one when the queue was empty). *)
Theorem pop_makes_room {T : Type} `{Sized T} (q : SPSCQueue T) (v : T) :
  reachable q -> spacious q ->
  (head_ q ≠ tail_ q ->
   exists w,
     pop q = Ret tt (removed_at q)
               [Destroy (size_add (tail_ q) (kPadding T)) (Some w)]
     /\ try_emplace v (removed_at q)
        = Ret true (inserted_at (removed_at q) v)
            [Construct (size_add (head_ q) (kPadding T)) v])
  /\ (size_add (head_ q) 1 mod capacity_ q ≠ tail_ q ->
      try_emplace v q
      = Ret true (inserted_at q v)
          [Construct (size_add (head_ q) (kPadding T)) v]
      /\ exists w,
           head (contents q ++ [v]) = Some w
           /\ front (inserted_at q v)
              = Ret (Some (size_add (tail_ q) (kPadding T)))
                  (inserted_at q v) []
           /\ pop (inserted_at q v)
              = Ret tt (removed_at (inserted_at q v))
                  [Destroy (size_add (tail_ q) (kPadding T)) (Some w)]).
Proof.
  intros (l & Hinv & Hbnd)%reachable_inv Hsp.
  pose proof (inv_head _ _ Hinv) as Hh.
  pose proof (inv_tail _ _ Hinv) as Ht.
  destruct (spacious_in_bounds q (head_ q) Hsp Hh) as [Hinh _].
  destruct (spacious_in_bounds q (tail_ q) Hsp Ht) as [Hint _].
  split.
  - intros Hne.
    destruct (removed_at_inv q l Hinv Hne) as (w & l' & -> & Hw & Hinv').
    exists w. split.
    { by rewrite pop_eq, (proj2 (Z.eqb_neq _ _) Hne), Hint, Hw. }
    rewrite try_emplace_eq.
    destruct (Z.eqb_spec (size_add (head_ (removed_at q)) 1
                            mod capacity_ (removed_at q))
                (tail_ (removed_at q))) as [Hfull|Hroom].
    { pose proof (inv_full _ _ Hinv' Hfull) as Hlen.
      pose proof (inv_length_bound _ _ Hinv) as Hle.
      simpl in Hlen, Hle. lia. }
    change (in_bounds _ (size_add (head_ (removed_at q)) (kPadding T)))
      with (in_bounds (slots_ q) (size_add (head_ q) (kPadding T))).
    by rewrite Hinh.
  - intros Hroom.
    pose proof (inserted_at_inv q l v Hinv Hroom) as Hinv'.
    split.
    { by rewrite try_emplace_eq, (proj2 (Z.eqb_neq _ _) Hroom), Hinh. }
    assert (Hne : head_ (inserted_at q v) ≠ tail_ (inserted_at q v)).
    { intros Heq%(inv_empty _ _ Hinv'). by destruct l. }
    destruct (removed_at_inv _ _ Hinv' Hne) as (w & l' & Hl & Hw & _).
    exists w. rewrite (contents_inv q l Hinv), Hl. split; [done|].
    rewrite front_eq, pop_eq, (proj2 (Z.eqb_neq _ _) Hne).
    change (in_bounds _ (size_add (tail_ (inserted_at q v)) (kPadding T)))
      with (in_bounds (slots_ q) (size_add (tail_ q) (kPadding T))).
    rewrite Hint, Hw. done.
Qed.

Lemma pop_makes_room_witness :
  reachable queue4_full /\ spacious queue4_full
  /\ head_ queue4_full ≠ tail_ queue4_full
  /\ exists w,
       pop queue4_full
       = Ret tt (removed_at queue4_full)
           [Destroy (size_add (tail_ queue4_full) (kPadding byte)) (Some w)]
       /\ try_emplace "D"%byte (removed_at queue4_full)
          = Ret true (inserted_at (removed_at queue4_full) "D"%byte)
              [Construct (size_add (head_ queue4_full) (kPadding byte))
                 "D"%byte].
Proof.
  assert (Hne : head_ queue4_full ≠ tail_ queue4_full) by (simpl; lia).
  refine (conj reachable_queue4_full (conj spacious_queue4_full
            (conj Hne _))).
  exact (proj1 (pop_makes_room queue4_full "D"%byte reachable_queue4_full
                  spacious_queue4_full) Hne).
Defined.

(** X6 (one writer for each index).  In every configuration that the two
    threads reach under any schedule: an access of the producer leaves
    [tail_] as it is, destroys nothing, and changes no slot but the one of
    [head_]; an access of the consumer leaves [head_] as it is, constructs
    nothing, and changes no slot but the one of [tail_]. *)
Theorem one_writer_per_index {T : Type} `{Sized T}
    (available : Z -> bool) (requested : Z) (q0 : SPSCQueue T)
    (sched : list thread) (inserts : list (producer_call T))
    (removes : list consumer_call) (cfg : config T) :
  is_size_t requested ->
  construct T available requested = Constructed q0 ->
  interleave sched (start q0 inserts removes) = Some cfg ->
  (forall cfg', thread_step Producer cfg = Some cfg' ->
     tail_ (cfg_queue cfg') = tail_ (cfg_queue cfg)
     /\ removed (cfg_trace cfg') = removed (cfg_trace cfg)
     /\ forall i, i ≠ size_add (head_ (cfg_queue cfg)) (kPadding T) ->
          block_cells (slots_ (cfg_queue cfg')) !! i
          = block_cells (slots_ (cfg_queue cfg)) !! i)
  /\ (forall cfg', thread_step Consumer cfg = Some cfg' ->
        head_ (cfg_queue cfg') = head_ (cfg_queue cfg)
        /\ inserted (cfg_trace cfg') = inserted (cfg_trace cfg)
        /\ forall i, i ≠ size_add (tail_ (cfg_queue cfg)) (kPadding T) ->
             block_cells (slots_ (cfg_queue cfg')) !! i
             = block_cells (slots_ (cfg_queue cfg)) !! i).
Proof.
  intros Hreq Hq0 Hrun.
  destruct (interleave_inv sched _ _ _
              (start_inv _ _ _ inserts removes Hreq Hq0) Hrun) as (l & Hl).
  split; intros cfg' Hstep.
  - destruct (producer_step_frame _ _ _ Hl Hstep) as (? & ? & _ & ?). done.
  - destruct (consumer_step_frame _ _ _ Hl Hstep) as (? & ? & _ & ?). done.
Qed.

Lemma one_writer_per_index_witness :
  is_size_t 4
  /\ construct byte always_available 4 = Constructed queue4
  /\ interleave [Producer; Producer]
       (start queue4 [PTryEmplace "A"%byte] [CFront])
     = Some (mkConfig queue4 (PRoomFound (PTryEmplace "A"%byte) 0 1) []
               CIdle [CFront] [])
  /\ (forall cfg',
        thread_step Producer
          (mkConfig queue4 (PRoomFound (PTryEmplace "A"%byte) 0 1) []
             CIdle [CFront] []) = Some cfg' ->
        tail_ (cfg_queue cfg') = tail_ queue4
        /\ removed (cfg_trace cfg') = removed []
        /\ forall i, i ≠ size_add (head_ queue4) (kPadding byte) ->
             block_cells (slots_ (cfg_queue cfg')) !! i
             = block_cells (slots_ queue4) !! i).
Proof.
  assert (Hrun : interleave [Producer; Producer]
                   (start queue4 [PTryEmplace "A"%byte] [CFront])
                 = Some (mkConfig queue4
                           (PRoomFound (PTryEmplace "A"%byte) 0 1) []
                           CIdle [CFront] []))
    by (vm_compute; reflexivity).
  refine (conj is_size_t_4 (conj construct_queue4 (conj Hrun _))).
  exact (proj1 (one_writer_per_index always_available 4 queue4
                  [Producer; Producer] [PTryEmplace "A"%byte] [CFront] _
                  is_size_t_4 construct_queue4 Hrun)).
Defined.

(** X7 (no element is overwritten).  Whenever a member function called on a
    state that the queue reaches constructs an element, the slot held no
    live element before and holds the new one afterwards. *)
Theorem never_constructs_over_live {T : Type} `{Sized T}
    (available : Z -> bool) (requested : Z) (q0 : SPSCQueue T) :
  is_size_t requested ->
  construct T available requested = Constructed q0 ->
  forall fuel cs obs q c a q' log i v,
    run fuel cs q0 = Some (obs, q) -> invoke fuel c q = Ret a q' log ->
    Construct i v ∈ log ->
    block_cells (slots_ q) !! i = None
    /\ block_cells (slots_ q') !! i = Some v.
Proof.
  intros Hreq Hq0 fuel cs obs q c a q' log i v Hrun Hstep Hin.
  destruct (run_fifo fuel cs q0 [] obs q
              (construct_inv _ _ _ Hreq Hq0) Hrun) as (l & Hinv & _).
  apply invoke_Ret in Hstep
    as [(w & _ & _ & -> & -> & _)|[(_ & _ & _ & -> & _)|(_ & -> & _)]].
  - apply list_elem_of_singleton in Hin as [= -> ->].
    split; [by eapply head_slot_dead|]. simpl. apply lookup_insert_eq.
  - by apply list_elem_of_singleton in Hin.
  - by apply elem_of_nil in Hin.
Qed.

Lemma never_constructs_over_live_witness :
  is_size_t 4
  /\ construct byte always_available 4 = Constructed queue4
  /\ (forall fuel cs obs q c a q' log i v,
        run fuel cs queue4 = Some (obs, q) ->
        invoke fuel c q = Ret a q' log ->
        Construct i v ∈ log ->
        block_cells (slots_ q) !! i = None
        /\ block_cells (slots_ q') !! i = Some v).
Proof.
  refine (conj is_size_t_4 (conj construct_queue4 _)).
  exact (never_constructs_over_live always_available 4 queue4
           is_size_t_4 construct_queue4).
Defined.

(** X8 (a pointer returned by [front] stays valid).  Under the memory
    orders of the source: when [front] has returned a non-null pointer to
    the consumer thread, the slot it points to holds the oldest element of
    the queue.  However many accesses the producer performs before the
    consumer reads through the pointer, and whatever its loads read, the
    slot still holds that element; the read is no data race and sees it. *)
Theorem front_pointer_stays_valid {T : Type} `{Sized T}
    (available : Z -> bool) (requested : Z) (q0 : SPSCQueue T)
    (sched : list (thread * nat)) (inserts : list (producer_call T))
    (removes : list consumer_call) (cfg : rconfig T) (p : Z) :
  is_size_t requested ->
  construct T available requested = Constructed q0 ->
  rinterleave sched (rstart q0 inserts removes) = Some cfg ->
  r_consumer cfg = CFrontReturned (Some p) ->
  exists w,
    block_cells (m_slots (r_memory cfg)) !! p = Some w
    /\ head (contents (rsettled cfg)) = Some w
    /\ forall lags cfg',
         rinterleave (map (pair Producer) lags) cfg = Some cfg' ->
         block_cells (m_slots (r_memory cfg')) !! p = Some w
         /\ forall lag, exists cfg'',
              rstep Consumer lag cfg' = Some cfg''
              /\ r_trace cfg'' = r_trace cfg' ++ [ObsFront (Some w)].
Proof.
  intros Hreq Hq0 Hrun Hp.
  destruct (rreached_inv _ _ _ _ _ _ _ Hreq Hq0 Hrun) as (l & Hinv).
  destruct (rfront_pointer_live _ _ _ Hinv Hp) as (w & Hw & Hhead & _).
  exists w. rewrite (contents_inv _ l (ri_ring _ _ Hinv)).
  split; [done|]. split; [done|]. intros lags cfg' Hsteps.
  destruct (rproducer_steps_keep_front lags _ _ _ _ _ Hinv Hp Hw Hsteps)
    as (Hc' & Hcells & l' & Hinv').
  split; [done|]. intros lag.
  destruct (rfront_pointer_live _ _ _ Hinv' Hc') as (w' & Hw' & _ & Hord).
  revert Hc' Hcells Hord. clear.
  destruct cfg' as [[cap blk heads tails prod cons] ppc ins ts cpc rems hs
                      tr]. simpl. intros -> Hcells Hord.
  unfold rconsumer_step; simpl. rewrite Hord. eexists. split; [reflexivity|].
  simpl. by rewrite Hcells.
Qed.

Lemma front_pointer_stays_valid_witness :
  is_size_t 4
  /\ construct byte always_available 4 = Constructed queue4
  /\ rinterleave
       (always_fresh
          [Producer; Producer; Producer; Producer; Consumer; Consumer])
       (rstart queue4 [PTryEmplace "A"%byte; PTryEmplace "B"%byte] [CFront])
     = Some front_config
  /\ r_consumer front_config = CFrontReturned (Some 128)
  /\ exists w,
       block_cells (m_slots (r_memory front_config)) !! 128 = Some w
       /\ head (contents (rsettled front_config)) = Some w
       /\ forall lags cfg',
            rinterleave (map (pair Producer) lags) front_config = Some cfg' ->
            block_cells (m_slots (r_memory cfg')) !! 128 = Some w
            /\ forall lag, exists cfg'',
                 rstep Consumer lag cfg' = Some cfg''
                 /\ r_trace cfg'' = r_trace cfg' ++ [ObsFront (Some w)].
Proof.
  refine (conj is_size_t_4 (conj construct_queue4
            (conj front_config_reached (conj eq_refl _)))).
  exact (front_pointer_stays_valid always_available 4 queue4 _ _ _ _ 128
           is_size_t_4 construct_queue4 front_config_reached eq_refl).
Defined.

(** X9 (usable capacity).  On a freshly constructed queue whose block has
    the intended size, of [n] calls of [try_emplace] the first
    [capacity_ - 1] construct their element, in order, and the others
    construct nothing: the queue ends with [min n (capacity_ - 1)] elements,
    and once [capacity_ - 1] are held [try_emplace] returns false. *)
Theorem fills_to_capacity_minus_one {T : Type} `{Sized T}
    (available : Z -> bool) (requested : Z) (q0 : SPSCQueue T)
    (fuel : nat) (v : T) (n : nat) :
  is_size_t requested ->
  sizeof T * (requested + 2 * kPadding T) <= SIZE_MAX ->
  construct T available requested = Constructed q0 ->
  exists obs q,
    run fuel (replicate n (CallTryEmplace v)) q0 = Some (obs, q)
    /\ contents q = replicate (n `min` Z.to_nat (requested - 1)) v
    /\ inserted obs = replicate (n `min` Z.to_nat (requested - 1)) v
    /\ ((Z.to_nat (requested - 1) <= n)%nat ->
        try_emplace v q = Ret false q []).
Proof.
  intros Hreq Hfit Hq0.
  pose proof (construct_spacious _ _ _ Hreq Hfit Hq0) as Hsp.
  pose proof (construct_inv _ _ _ Hreq Hq0) as Hinv.
  destruct (fill_run fuel v n q0 [] Hinv Hsp)
    as (obs & q & Hrun & Hinv' & Hins & _).
  destruct (run_capacity _ _ _ _ _ Hrun) as [Hcap _].
  apply construct_eq in Hq0 as (Hc & _ & ->).
  simpl in Hinv', Hins, Hcap. rewrite Nat.sub_0_r in Hinv', Hins.
  exists obs, q. split_and!; [done|by apply contents_inv|done|].
  intros Hn. rewrite try_emplace_eq.
  destruct (Z.eqb_spec (size_add (head_ q) 1 mod capacity_ q) (tail_ q))
    as [Hfull|Hroom]; [done|].
  pose proof (inv_not_full q _ Hinv' Hroom) as Hlen.
  rewrite length_replicate, Hcap in Hlen. lia.
Qed.

Lemma fills_to_capacity_minus_one_witness :
  is_size_t 4
  /\ sizeof byte * (4 + 2 * kPadding byte) <= SIZE_MAX
  /\ construct byte always_available 4 = Constructed queue4
  /\ exists obs q,
       run 1 (replicate 5 (CallTryEmplace "A"%byte)) queue4 = Some (obs, q)
       /\ contents q = replicate (5 `min` Z.to_nat (4 - 1)) "A"%byte
       /\ inserted obs = replicate (5 `min` Z.to_nat (4 - 1)) "A"%byte
       /\ ((Z.to_nat (4 - 1) <= 5)%nat ->
           try_emplace "A"%byte q = Ret false q []).
Proof.
  refine (conj is_size_t_4 (conj queue4_fits (conj construct_queue4 _))).
  exact (fills_to_capacity_minus_one always_available 4 queue4 1 "A"%byte 5
           is_size_t_4 queue4_fits construct_queue4).
Defined.

(** X10 (every element is destroyed once).  A client constructs a queue,
    performs any calls that return, and lets the destructor run with one
    loop iteration more than there are elements left.  Then the destructor
    returns; over the whole life of the object the values destroyed are
    exactly the values constructed, in the order of their construction; the
    destructor constructs nothing, no destructor call is on a slot without a
    live element, the block is freed last, and no live element is left in
    it. *)
Theorem every_element_destroyed_once {T : Type} `{Sized T}
    (available : Z -> bool) (requested : Z) (q0 : SPSCQueue T)
    (fuel : nat) (cs : list (call T)) (obs : list (observation T))
    (q : SPSCQueue T) (fuel' : nat) :
  is_size_t requested ->
  construct T available requested = Constructed q0 ->
  run fuel cs q0 = Some (obs, q) ->
  (length (contents q) < fuel')%nat ->
  exists q' log,
    destroy fuel' q = Ret tt q' log
    /\ removed (obs ++ (ObsEvent <$> log)) = inserted obs
    /\ inserted (ObsEvent <$> log) = []
    /\ (forall i, ObsEvent (Destroy i None) ∉ obs ++ (ObsEvent <$> log))
    /\ last log = Some Free
    /\ block_cells (slots_ q') = ∅.
Proof.
  intros Hreq Hq0 Hrun Hfuel.
  assert (Hreach : reachable q).
  { eapply run_reachable; [|exact Hrun]. by eapply reachable_construct. }
  destruct (run_fifo fuel cs q0 [] obs q (construct_inv _ _ _ Hreq Hq0) Hrun)
    as (l & Hinv & Hio & _ & Hlive).
  destruct (reachable_inv q Hreach) as (l0 & _ & Hbnd).
  rewrite (contents_inv q l Hinv) in Hfuel.
  destruct (drain_inv l q fuel' 0 Hinv Hbnd Hfuel)
    as (q' & Hdrain & _ & Hinv' & _).
  eexists q', _. split.
  { unfold destroy, mbind, op_mbind, op_bind. rewrite Hdrain. reflexivity. }
  rewrite fmap_app. split_and!.
  - rewrite !removed_app, removed_imap_Destroy. simpl in Hio.
    by rewrite Hio, app_nil_r.
  - by rewrite inserted_app, inserted_imap_Destroy.
  - intros i [Hin|[Hin|Hin]%elem_of_app]%elem_of_app.
    + by eapply Hlive.
    + apply list_elem_of_fmap in Hin as (e & [= <-] & He).
      apply elem_of_lookup_imap in He as (k & x & [=] & _).
    + by apply list_elem_of_singleton in Hin.
  - apply last_snoc.
  - by apply inv_nil_cells.
Qed.

Lemma every_element_destroyed_once_witness :
  is_size_t 4
  /\ construct byte always_available 4 = Constructed queue4
  /\ run 1 [CallTryPush "A"%byte] queue4
     = Some ([ObsEvent (Construct 128 "A"%byte)], queue4_A)
  /\ (length (contents queue4_A) < 2)%nat
  /\ exists q' log,
       destroy 2 queue4_A = Ret tt q' log
       /\ removed ([ObsEvent (Construct 128 "A"%byte)] ++ (ObsEvent <$> log))
          = inserted [ObsEvent (Construct 128 "A"%byte)]
       /\ inserted (ObsEvent <$> log) = []
       /\ (forall i,
             ObsEvent (Destroy i None)
             ∉ [ObsEvent (Construct 128 "A"%byte)] ++ (ObsEvent <$> log))
       /\ last log = Some Free
       /\ block_cells (slots_ q') = ∅.
Proof.
  assert (Hrun : run 1 [CallTryPush "A"%byte] queue4
                 = Some ([ObsEvent (Construct 128 "A"%byte)], queue4_A))
    by (vm_compute; reflexivity).
  assert (Hfuel : (length (contents queue4_A) < 2)%nat) by (vm_compute; lia).
  refine (conj is_size_t_4 (conj construct_queue4 (conj Hrun
            (conj Hfuel _)))).
  exact (every_element_destroyed_once always_available 4 queue4 1
           [CallTryPush "A"%byte] _ queue4_A 2
           is_size_t_4 construct_queue4 Hrun Hfuel).
Defined.

(** X11 ([empty] agrees with [front], whatever the capacity).  In every
    reachable state, also with a capacity above [SSIZE_MAX + 1] where
    [size()] is no longer the number of elements, [empty()] returns true
    exactly when [front()] returns the null pointer, exactly when the queue
    holds no element; and when it returns false, the pointer returned by
    [front()] leads to the oldest element.  Neither call changes the
    object. *)
Theorem empty_iff_front_null {T : Type} `{Sized T} (q : SPSCQueue T) :
  reachable q ->
  exists (b : bool) (p : option Z),
    empty q = Ret b q [] /\ front q = Ret p q []
    /\ (b = true <-> p = None)
    /\ (b = true <-> contents q = [])
    /\ (b = false <->
        exists w, deref q p = Some w /\ head (contents q) = Some w).
Proof.
  intros (l & Hinv & Hbnd)%reachable_inv.
  pose proof (inv_capacity _ _ Hinv) as Hc.
  pose proof (inv_head _ _ Hinv) as Hh.
  pose proof (inv_tail _ _ Hinv) as Ht.
  assert (Hz : size_value q = 0 <-> head_ q = tail_ q).
  { apply size_value_zero; [split; lia|done..]. }
  rewrite empty_eq, front_eq, (contents_inv q l Hinv).
  eexists _, _. split; [done|]. split; [done|].
  pose proof (inv_empty q l Hinv) as Hemp.
  destruct (Z.eqb_spec (head_ q) (tail_ q)) as [Heq|Hne].
  - rewrite (proj2 (Z.eqb_eq _ _) (proj2 Hz Heq)).
    split_and!; [done|tauto|]. split; [done|]. by intros (w & [=] & _).
  - rewrite (proj2 (Z.eqb_neq _ _)) by tauto.
    destruct (removed_at_inv q l Hinv Hne) as (w & l' & -> & Hw & _).
    split_and!; try done. split; [|done]. intros _. by exists w.
Qed.

Lemma empty_iff_front_null_witness :
  reachable lagging_queue
  /\ exists (b : bool) (p : option Z),
       empty lagging_queue = Ret b lagging_queue []
       /\ front lagging_queue = Ret p lagging_queue []
       /\ (b = true <-> p = None)
       /\ (b = true <-> contents lagging_queue = [])
       /\ (b = false <->
           exists w, deref lagging_queue p = Some w
                     /\ head (contents lagging_queue) = Some w).
Proof.
  refine (conj reachable_lagging_queue _).
  exact (empty_iff_front_null lagging_queue reachable_lagging_queue).
Defined.

(** X12 (the padding keeps a cache line free at both ends).  In a queue
    constructed with a block of the intended size, every slot of the ring
    starts at least [kCacheLineSize] bytes after the start of the block and
    ends at least [kCacheLineSize] bytes before its end. *)
Theorem padding_keeps_cache_lines_clear {T : Type} `{Sized T}
    (available : Z -> bool) (requested : Z) (q : SPSCQueue T) (i : Z) :
  is_size_t requested ->
  sizeof T * (requested + 2 * kPadding T) <= SIZE_MAX ->
  construct T available requested = Constructed q ->
  ring_slot q i ->
  kCacheLineSize <= i * sizeof T
  /\ (i + 1) * sizeof T + kCacheLineSize <= block_bytes (slots_ q).
Proof.
  intros Hreq Hfit Hq [Hlo Hhi].
  destruct (construct_spacious _ _ _ Hreq Hfit Hq) as [Hsp _].
  apply construct_eq in Hq as (Hc & _ & ->). simpl in *.
  pose proof (sizeof_range (T:=T)) as Hs.
  pose proof (kPadding_range (T:=T)) as Hk.
  assert (Hline : kCacheLineSize <= kPadding T * sizeof T).
  { rewrite kPadding_eq. unfold kCacheLineSize.
    assert (127 = sizeof T * (127 / sizeof T) + 127 mod sizeof T)
      by (apply Z.div_mod; lia).
    assert (0 <= 127 mod sizeof T < sizeof T)
      by (apply Z.mod_pos_bound; lia).
    nia. }
  split; nia.
Qed.

Lemma padding_keeps_cache_lines_clear_witness :
  is_size_t 4
  /\ sizeof N * (4 + 2 * kPadding N) <= SIZE_MAX
  /\ construct N always_available 4
     = Constructed (mkSPSCQueue 4 (mkBlock 288 ∅) 0 0)
  /\ ring_slot (mkSPSCQueue 4 (mkBlock 288 (∅ : gmap Z N)) 0 0) 19
  /\ kCacheLineSize <= 19 * sizeof N
  /\ (19 + 1) * sizeof N + kCacheLineSize
     <= block_bytes (slots_ (mkSPSCQueue 4 (mkBlock 288 (∅ : gmap Z N)) 0 0)).
Proof.
  assert (Hfit : sizeof N * (4 + 2 * kPadding N) <= SIZE_MAX)
    by (vm_compute; discriminate).
  assert (Hq : construct N always_available 4
               = Constructed (mkSPSCQueue 4 (mkBlock 288 ∅) 0 0))
    by reflexivity.
  assert (Hslot : ring_slot (mkSPSCQueue 4 (mkBlock 288 (∅ : gmap Z N)) 0 0)
                    19)
    by (vm_compute; split; [discriminate|reflexivity]).
  refine (conj is_size_t_4 (conj Hfit (conj Hq (conj Hslot _)))).
  exact (padding_keeps_cache_lines_clear always_available 4 _ 19
           is_size_t_4 Hfit Hq Hslot).
Defined.

(** X13 (bounded occupancy under any schedule).  Under the memory orders of
    the source, whatever the two threads have done so far and whatever their
    loads have read, the queue, counting an element from its construction
    to its destruction, holds at most [capacity_ - 1] elements; the number
    of values constructed is the number of values destroyed plus the number
    of elements held. *)
Theorem never_exceeds_capacity {T : Type} `{Sized T}
    (available : Z -> bool) (requested : Z) (q0 : SPSCQueue T)
    (sched : list (thread * nat)) (inserts : list (producer_call T))
    (removes : list consumer_call) (cfg : rconfig T) :
  is_size_t requested ->
  construct T available requested = Constructed q0 ->
  rinterleave sched (rstart q0 inserts removes) = Some cfg ->
  Z.of_nat (length (contents (rsettled cfg))) <= requested - 1
  /\ length (inserted (r_trace cfg))
     = (length (removed (r_trace cfg))
        + length (contents (rsettled cfg)))%nat.
Proof.
  intros Hreq Hq0 Hrun.
  destruct (rreached_inv _ _ _ _ _ _ _ Hreq Hq0 Hrun) as (l & Hinv).
  destruct (rinterleave_frame _ _ _ Hrun) as [Hcap _].
  apply construct_eq in Hq0 as (_ & _ & ->). simpl in Hcap.
  rewrite (contents_inv _ l (ri_ring _ _ Hinv)).
  pose proof (inv_length_bound _ _ (ri_ring _ _ Hinv)) as Hle.
  destruct (ri_fifo _ _ Hinv) as (Hio & _).
  split; [simpl in Hle; lia|].
  by rewrite Hio, length_app.
Qed.

Lemma never_exceeds_capacity_witness :
  is_size_t 4
  /\ construct byte always_available 4 = Constructed queue4
  /\ rinterleave (always_fresh [Producer; Producer; Producer])
       (rstart queue4 [PTryEmplace "A"%byte] [CFront])
     = Some constructed_config
  /\ Z.of_nat (length (contents (rsettled constructed_config))) <= 4 - 1
  /\ length (inserted (r_trace constructed_config))
     = (length (removed (r_trace constructed_config))
        + length (contents (rsettled constructed_config)))%nat.
Proof.
  refine (conj is_size_t_4 (conj construct_queue4
            (conj constructed_config_reached _))).
  exact (never_exceeds_capacity always_available 4 queue4 _ _ _ _
           is_size_t_4 construct_queue4 constructed_config_reached).
Defined.

(** ** Accesses left to a thread *)

Section WaitFree.
Context {T : Type} `{Sized T}.
Implicit Types (cfg : config T).

Lemma producer_step_left cfg cfg' :
  never_spins cfg -> thread_step Producer cfg = Some cfg' ->
  never_spins cfg'
  /\ (producer_left cfg' <= producer_left cfg - 1)%nat
  /\ consumer_left cfg' = consumer_left cfg.
Proof.
  destruct cfg as [q ppc ins cpc rems tr].
  unfold never_spins, producer_left, consumer_left, thread_step; simpl.
  intros [Hall Hpc].
  destruct ppc as [|c h n|c h n|c h n]; [destruct ins as [|c ins]| | |];
    try (apply Forall_cons in Hall as [[v ->] Hall]);
    unfold producer_step, placement_new, mbind, op_mbind, op_bind; simpl;
    repeat match goal with
      | |- context [if ?b then _ else _] => destruct b
      | |- context [match ?c with PEmplace _ => _ | _ => _ end] => destruct c
      end; simpl; intros [= <-]; simpl; try done; split_and!; try done; lia.
Qed.

Lemma producer_step_consumer_left cfg cfg' :
  thread_step Producer cfg = Some cfg' ->
  consumer_left cfg' = consumer_left cfg.
Proof.
  unfold thread_step.
  destruct (producer_step _ _ _) as [[pc todo] q log| | |]; try discriminate.
  by intros [= <-].
Qed.

Lemma consumer_step_left cfg cfg' :
  thread_step Consumer cfg = Some cfg' ->
  (never_spins cfg -> never_spins cfg')
  /\ (consumer_left cfg' <= consumer_left cfg - 1)%nat
  /\ producer_left cfg' = producer_left cfg.
Proof.
  destruct cfg as [q ppc ins cpc rems tr].
  unfold never_spins, producer_left, consumer_left, thread_step; simpl.
  destruct cpc as [|t|p|t|t|t]; [destruct rems as [|[] ?]| | | | |];
    unfold consumer_step, destroy_at, c_assert, mbind, op_mbind, op_bind;
    simpl;
    repeat match goal with
      | |- context [if ?b then _ else _] => destruct b
      end; simpl; intros [= <-]; simpl; split_and!; try done; lia.
Qed.

(** Each access of a thread brings it closer to the end of its calls,
    whatever the other thread does in between. *)
Lemma interleave_left sched : forall cfg cfg',
  interleave sched cfg = Some cfg' ->
  (consumer_left cfg' <= consumer_left cfg - accesses Consumer sched)%nat
  /\ (never_spins cfg ->
      (producer_left cfg' <= producer_left cfg - accesses Producer sched)%nat).
Proof.
  induction sched as [|t sched IH]; intros cfg cfg'; cbn [interleave accesses].
  { intros [= <-]. lia. }
  destruct (thread_step t cfg) as [cfg1|] eqn:Hstep; [|discriminate].
  intros [Hc Hp]%IH. destruct t.
  - rewrite (producer_step_consumer_left _ _ Hstep) in Hc.
    split; [done|]. intros Hns.
    destruct (producer_step_left _ _ Hns Hstep) as (Hns1 & Hle & _).
    specialize (Hp Hns1). lia.
  - destruct (consumer_step_left _ _ Hstep) as (Hns1 & Hle & Heq).
    split; [lia|]. intros Hns. specialize (Hp (Hns1 Hns)). lia.
Qed.
End WaitFree.

(** X14 (the non-blocking calls are wait-free).  The two threads run under
    any schedule from any configuration, and no access fails.  If the
    producer has only calls of [try_emplace] to perform, then as soon as the
    schedule has given it four accesses for each of them, all of them have
    returned, whatever the consumer did in between.  Likewise, as soon as
    the schedule has given the consumer four accesses for each of its calls
    of [front] and [pop], all of them have returned, whatever the producer
    did in between. *)
Theorem nonblocking_calls_are_wait_free {T : Type} `{Sized T}
    (sched : list thread) (cfg cfg' : config T) :
  interleave sched cfg = Some cfg' ->
  (cfg_producer cfg = PIdle ->
   Forall (fun c => exists v, c = PTryEmplace v) (cfg_inserts cfg) ->
   (4 * length (cfg_inserts cfg) <= accesses Producer sched)%nat ->
   cfg_producer cfg' = PIdle /\ cfg_inserts cfg' = [])
  /\ (cfg_consumer cfg = CIdle ->
      (4 * length (cfg_removes cfg) <= accesses Consumer sched)%nat ->
      cfg_consumer cfg' = CIdle /\ cfg_removes cfg' = []).
Proof.
  intros [Hc Hp]%interleave_left. split.
  - intros Hidle Hall Hn.
    assert (Hns : never_spins cfg) by (split; [done|by rewrite Hidle]).
    specialize (Hp Hns). unfold producer_left in Hp. rewrite Hidle in Hp.
    destruct (cfg_producer cfg'), (cfg_inserts cfg'); simpl in Hp;
      try lia; done.
  - intros Hidle Hn. unfold consumer_left in Hc. rewrite Hidle in Hc.
    destruct (cfg_consumer cfg'), (cfg_removes cfg'); simpl in Hc;
      try lia; done.
Qed.

Lemma nonblocking_calls_are_wait_free_witness :
  interleave
    [Producer; Consumer; Producer; Consumer; Producer; Consumer; Producer;
     Consumer]
    (start queue4 [PTryEmplace "A"%byte] [CFront; CFront])
  = Some (mkConfig queue4_A PIdle [] (CFrontTailLoaded 0) []
            [ObsEvent (Construct 128 "A"%byte); ObsFront None])
  /\ Forall (fun c => exists v, c = PTryEmplace v) [PTryEmplace "A"%byte]
  /\ (4 * length [PTryEmplace "A"%byte]
      <= accesses Producer
           [Producer; Consumer; Producer; Consumer; Producer; Consumer;
            Producer; Consumer])%nat
  /\ cfg_producer
       (mkConfig queue4_A PIdle [] (CFrontTailLoaded 0) []
          [ObsEvent (Construct 128 "A"%byte); ObsFront None]) = PIdle
  /\ cfg_inserts
       (mkConfig queue4_A PIdle [] (CFrontTailLoaded 0) []
          [ObsEvent (Construct 128 "A"%byte); ObsFront None]) = [].
Proof.
  assert (Hrun :
    interleave
      [Producer; Consumer; Producer; Consumer; Producer; Consumer; Producer;
       Consumer]
      (start queue4 [PTryEmplace "A"%byte] [CFront; CFront])
    = Some (mkConfig queue4_A PIdle [] (CFrontTailLoaded 0) []
              [ObsEvent (Construct 128 "A"%byte); ObsFront None]))
    by (vm_compute; reflexivity).
  assert (Hall : Forall (fun c => exists v, c = PTryEmplace v)
                   [PTryEmplace "A"%byte])
    by (apply Forall_singleton; by eexists).
  assert (Hn : (4 * length [PTryEmplace "A"%byte]
                <= accesses Producer
                     [Producer; Consumer; Producer; Consumer; Producer;
                      Consumer; Producer; Consumer])%nat)
    by (simpl; lia).
  refine (conj Hrun (conj Hall (conj Hn _))).
  exact (proj1 (nonblocking_calls_are_wait_free _ _ _ Hrun) eq_refl Hall Hn).
Defined.

(** X15 (the two threads never race).  Under the memory orders of the
    source, on a queue whose block has the intended size, whatever the two
    threads have done so far and whatever their loads have read: the next
    access of the producer is defined, so it lies inside the block and is no
    data race; the next access of the consumer is defined unless it is the
    assertion of [pop] and the load reads a [head_] equal to [tail_]; that
    assertion holds whenever the consumer has read a store to [head_] that
    published an element it has not removed; and the observations of the two
    threads obey the FIFO law. *)
Theorem threads_are_race_free {T : Type} `{Sized T}
    (available : Z -> bool) (requested : Z) (q0 : SPSCQueue T)
    (sched : list (thread * nat)) (inserts : list (producer_call T))
    (removes : list consumer_call) (cfg : rconfig T) :
  is_size_t requested ->
  sizeof T * (requested + 2 * kPadding T) <= SIZE_MAX ->
  construct T available requested = Constructed q0 ->
  rinterleave sched (rstart q0 inserts removes) = Some cfg ->
  (forall lag, is_Some (rstep Producer lag cfg))
  /\ (forall lag, rstep Consumer lag cfg = None ->
        exists tail,
          r_consumer cfg = CPopTailLoaded tail
          /\ (acquire (m_heads (r_memory cfg)) (r_head_seen cfg) lag).2
             = tail)
  /\ (forall lag,
        (length (m_tails (r_memory cfg)) <= r_head_seen cfg)%nat ->
        is_Some (rstep Consumer lag cfg))
  /\ fifo (r_trace cfg) (contents (rsettled cfg)).
Proof.
  intros Hreq Hfit Hq0 Hrun.
  destruct (rreached_inv _ _ _ _ _ _ _ Hreq Hq0 Hrun) as (l & Hinv).
  pose proof (rreached_spacious _ _ _ _ _ _ _ Hreq Hfit Hq0 Hrun) as Hsp.
  split_and!.
  - intros lag. by eapply rproducer_progress.
  - intros lag Hnone.
    destruct (r_consumer cfg) as [|t|p|t|t|t] eqn:Hpc;
      try (destruct (rconsumer_progress lag _ _ Hinv Hsp) as [cfg' Hsome];
           [intros tail Htail; congruence|simpl in Hnone; congruence]).
    exists t. split; [done|]. revert Hpc Hnone. clear.
    destruct cfg as [[cap blk heads tails prod cons] ppc ins ts cpc rems hs
                       tr]. simpl. intros ->.
    unfold rconsumer_step; simpl.
    destruct (_ =? _) eqn:Heq; [|discriminate]. intros _.
    by apply Z.eqb_eq.
  - intros lag Hseen. by eapply rconsumer_progress.
  - rewrite (contents_inv _ l (ri_ring _ _ Hinv)). apply (ri_fifo _ _ Hinv).
Qed.

Lemma threads_are_race_free_witness :
  is_size_t 4
  /\ sizeof byte * (4 + 2 * kPadding byte) <= SIZE_MAX
  /\ construct byte always_available 4 = Constructed queue4
  /\ rinterleave
       (always_fresh (replicate 13 Producer ++ replicate 4 Consumer))
       (rstart queue4
          [PEmplace "A"%byte; PEmplace "B"%byte; PEmplace "C"%byte;
           PEmplace "D"%byte] [CPop])
     = Some waiting_config
  /\ (forall lag, is_Some (rstep Producer lag waiting_config))
  /\ (forall lag, rstep Consumer lag waiting_config = None ->
        exists tail,
          r_consumer waiting_config = CPopTailLoaded tail
          /\ (acquire (m_heads (r_memory waiting_config))
                (r_head_seen waiting_config) lag).2 = tail)
  /\ (forall lag,
        (length (m_tails (r_memory waiting_config))
         <= r_head_seen waiting_config)%nat ->
        is_Some (rstep Consumer lag waiting_config))
  /\ fifo (r_trace waiting_config) (contents (rsettled waiting_config)).
Proof.
  refine (conj is_size_t_4 (conj queue4_fits (conj construct_queue4
            (conj waiting_config_reached _)))).
  exact (threads_are_race_free always_available 4 queue4 _ _ _ _
           is_size_t_4 queue4_fits construct_queue4 waiting_config_reached).
Defined.

(** X16 (the producer thread overwrites no element).  Under the memory
    orders of the source, whatever the consumer did since the producer
    loaded [tail_] and whichever store that load read: a placement-new of
    the producer thread finds no live element in the slot, leaves the new
    one there, and every access of the consumer to that slot happened
    before it. *)
Theorem placement_new_on_dead_slot {T : Type} `{Sized T}
    (available : Z -> bool) (requested : Z) (q0 : SPSCQueue T)
    (sched : list (thread * nat)) (inserts : list (producer_call T))
    (removes : list consumer_call) (cfg cfg' : rconfig T) (lag : nat) (i : Z)
    (v : T) :
  is_size_t requested ->
  construct T available requested = Constructed q0 ->
  rinterleave sched (rstart q0 inserts removes) = Some cfg ->
  rstep Producer lag cfg = Some cfg' ->
  r_trace cfg' = r_trace cfg ++ [ObsEvent (Construct i v)] ->
  block_cells (m_slots (r_memory cfg)) !! i = None
  /\ block_cells (m_slots (r_memory cfg')) !! i = Some v
  /\ ordered (m_consumed (r_memory cfg)) i (r_tail_seen cfg) = true.
Proof.
  intros Hreq Hq0 Hrun Hstep Htr.
  destruct (rreached_inv _ _ _ _ _ _ _ Hreq Hq0 Hrun) as (l & Hinv).
  by eapply rproducer_constructs_dead.
Qed.

Lemma placement_new_on_dead_slot_witness :
  is_size_t 4
  /\ construct byte always_available 4 = Constructed queue4
  /\ rinterleave (always_fresh [Producer; Producer])
       (rstart queue4 [PTryEmplace "A"%byte] [CFront])
     = Some room_config
  /\ rstep Producer 0 room_config = Some constructed_config
  /\ r_trace constructed_config
     = r_trace room_config ++ [ObsEvent (Construct 128 "A"%byte)]
  /\ block_cells (m_slots (r_memory room_config)) !! 128 = None
  /\ block_cells (m_slots (r_memory constructed_config)) !! 128
     = Some "A"%byte
  /\ ordered (m_consumed (r_memory room_config)) 128
       (r_tail_seen room_config) = true.
Proof.
  assert (Hstep : rstep Producer 0 room_config = Some constructed_config)
    by (vm_compute; reflexivity).
  assert (Htr : r_trace constructed_config
                = r_trace room_config ++ [ObsEvent (Construct 128 "A"%byte)])
    by reflexivity.
  refine (conj is_size_t_4 (conj construct_queue4
            (conj room_config_reached (conj Hstep (conj Htr _))))).
  exact (placement_new_on_dead_slot always_available 4 queue4 _ _ _ _ _ 0%nat
           128 "A"%byte is_size_t_4 construct_queue4 room_config_reached
           Hstep Htr).
Defined.
